(** * Platypus: the logic scheduler ([handler-logic]) and the collision group

    A shallow embedding of two components of the Platypus game engine and
    of its state map:

    - [HandlerLogic]: the component [platformer.components['handler-logic']],
      which turns elapsed frame time into a bounded number of logic steps;
    - [CollisionGroup]: the component [CollisionGroup], which groups the
      solid entities carried by an owner entity;
    - [StateMap]: the class [platypus.StateMap], the map of an entity's
      states.

    The numbers of the scheduler are IEEE 754 binary64 values, with the
    rounding of every operation, the two zeros, the two infinities and
    NaN ([JSNumber]): its step count and its camera test depend on how a
    quotient or a sum is rounded.  The positions and boxes of the
    collision group are exact rationals ([Qc]): no branch of its code
    depends on a rounded value. *)

From stdpp Require Import base numbers list gmap strings.
From Stdlib Require Import Ascii QArith Qcanon Qround.

Open Scope Qc_scope.

(** ** JavaScript numbers

    A JavaScript number is an IEEE 754 binary64 value.  A finite one is
    kept as its sign and the 63 bits of its exponent and fraction read as
    an integer, its _ordinal_: ordinals below [2^53] count in steps of
    [2^-1074] (the subnormal numbers and the first binade), and each
    later block of [2^52] ordinals is a binade with steps twice as long.
    Arithmetic is done on exact integers and fractions in units of
    [2^-1074] and rounded to the nearest ordinal, ties to the even one,
    with overflow to an infinity.  There are two zeros. *)

Module JSNumber.

Local Open Scope Z_scope.

(** [2^52], the first ordinal that has its hidden bit set. *)
Definition P : Z := 4503599627370496.

(** The ordinal of the bit pattern of [Infinity]. *)
Definition INF : Z := 2047 * P.

(** [2^1074]: the number of units in [1]. *)
Definition U : Z := 2 ^ 1074.

(** The binade of an ordinal, and the magnitude it stands for, in units
    of [2^-1074]. *)
Definition shift_of (k : Z) : Z := Z.max 0 (k / P - 1).

Definition magnitude (k : Z) : Z := (k - shift_of k * P) * 2 ^ shift_of k.

Definition in_range (k : Z) : bool := (0 <=? k) && (k <? INF).

Record double : Type := Double {
  negative : bool;
  ord : Z;
  ord_in_range : in_range ord = true
}.

Inductive number : Type :=
| Fin (d : double)
| PosInf
| NegInf
| NaN.

Declare Scope num_scope.
Delimit Scope num_scope with num.
Bind Scope num_scope with number.

(** The value, in units of [2^-1074]. *)
Definition scaled (x : double) : Z :=
  if negative x then - magnitude (ord x) else magnitude (ord x).

(** [n / d] rounded to the nearest integer, ties to even; [0 <= n] and
    [0 < d]. *)
Definition rne (n d : Z) : Z :=
  let f := n / d in
  match 2 * (n mod d) ?= d with
  | Lt => f
  | Gt => f + 1
  | Eq => if Z.even f then f else f + 1
  end.

(** The ordinal nearest to [n / d] units: 53 significant bits are kept. *)
Definition nearest (n d : Z) : Z :=
  let s := Z.max 0 (Z.log2 (n / d) - 52) in
  s * P + rne n (d * 2 ^ s).

(** The number nearest to [n / d] units, with the given sign; at or
    beyond the ordinal of [Infinity] it is an infinity. *)
Definition round (neg : bool) (n d : Z) : number :=
  let k := nearest n d in
  match Bool.bool_dec (in_range k) true with
  | left H => Fin (Double neg k H)
  | right _ => if neg then NegInf else PosInf
  end.

Definition zero : double := Double false 0 eq_refl.

(** The numbers [1], [4], [10] and [15]. *)
Definition one : double := Double false 4607182418800017408 eq_refl.
Definition four : double := Double false 4616189618054758400 eq_refl.
Definition ten : double := Double false 4621819117588971520 eq_refl.
Definition fifteen : double := Double false 4624633867356078080 eq_refl.

(** A whole number as a number. *)
Definition of_Z (z : Z) : number := round (z <? 0) (Z.abs z * U) 1.

(** A decimal or a fraction as the source writes it: the nearest
    number. *)
Definition of_Q (q : Q) : number :=
  round (Qnum q <? 0) (Z.abs (Qnum q) * U) (Zpos (Qden q)).

Definition is_negative (a : number) : bool :=
  match a with
  | Fin x => negative x
  | NegInf => true
  | _ => false
  end.

(** Unary [-]. *)
Definition opp (a : number) : number :=
  match a with
  | Fin x => Fin (Double (negb (negative x)) (ord x) (ord_in_range x))
  | PosInf => NegInf
  | NegInf => PosInf
  | NaN => NaN
  end.

(** The operator [+].  An exact sum of zero is [-0] only when both
    operands are negative. *)
Definition add (a b : number) : number :=
  match a, b with
  | NaN, _ | _, NaN => NaN
  | PosInf, NegInf | NegInf, PosInf => NaN
  | PosInf, _ | _, PosInf => PosInf
  | NegInf, _ | _, NegInf => NegInf
  | Fin x, Fin y =>
      let n := scaled x + scaled y in
      round (if n =? 0 then negative x && negative y else n <? 0) (Z.abs n) 1
  end.

(** The operator [-]. *)
Definition sub (a b : number) : number := add a (opp b).

(** The operator [/]. *)
Definition div (a b : number) : number :=
  match a, b with
  | NaN, _ | _, NaN => NaN
  | (PosInf | NegInf), (PosInf | NegInf) => NaN
  | (PosInf | NegInf), Fin _ =>
      if xorb (is_negative a) (is_negative b) then NegInf else PosInf
  | Fin x, (PosInf | NegInf) =>
      Fin (Double (xorb (negative x) (is_negative b)) 0 eq_refl)
  | Fin x, Fin y =>
      if ord y =? 0 then
        if ord x =? 0 then NaN
        else if xorb (negative x) (negative y) then NegInf else PosInf
      else round (xorb (negative x) (negative y))
                 (magnitude (ord x) * U) (magnitude (ord y))
  end.

(** [Math.floor]. *)
Definition floor (a : number) : number :=
  match a with
  | Fin x =>
      let v := scaled x / U in
      round (if v =? 0 then negative x else v <? 0) (Z.abs v * U) 1
  | other => other
  end.

(** The place of a number on the line, the infinities at [2^1024] as
    their ordinal has it; NaN has none. *)
Definition place (a : number) : option Z :=
  match a with
  | Fin x => Some (scaled x)
  | PosInf => Some (magnitude INF)
  | NegInf => Some (- magnitude INF)
  | NaN => None
  end.

(** The operators [<] and [<=]; [a >= b] is [b <= a]. *)
Definition ltb (a b : number) : bool :=
  match place a, place b with
  | Some u, Some v => u <? v
  | _, _ => false
  end.

Definition leb (a b : number) : bool :=
  match place a, place b with
  | Some u, Some v => u <=? v
  | _, _ => false
  end.

(** [Math.min] of two numbers: NaN if either is NaN, and [-0] below
    [+0]. *)
Definition min (a b : number) : number :=
  match a, b with
  | NaN, _ | _, NaN => NaN
  | _, _ =>
      if ltb b a then b
      else if ltb a b then a
      else if is_negative a then a else b
  end.

(** Number of times the body of [for (i = 0; i < n; i++)] runs: the
    comparison is false for NaN and for [n <= 0].  For [n = Infinity]
    (and beyond [2^53], where [i++] no longer moves) the loop does not
    end; the only loop of this development is bounded by a [Math.min]
    against a finite number, and those cases are given the value [0]
    and the ceiling. *)
Definition iterations (n : number) : nat :=
  match n with
  | Fin x => Z.to_nat ((scaled x + U - 1) / U)
  | _ => 0%nat
  end.

(** Truthiness of a finite number, as used by [||] and [!]: the zeros
    are falsy. *)
Definition truthy (x : double) : bool := negb (ord x =? 0).

(** The whole number a number is, if it is one. *)
Definition whole (a : number) : option Z :=
  match a with
  | Fin x => if scaled x mod U =? 0 then Some (scaled x / U) else None
  | _ => None
  end.

(** A number that is not finite cannot be kept in a field of the model,
    whose fields hold finite numbers; the one such assignment of the
    source, [camera.width / 4], always gives a finite number
    ([quarter_finite] below). *)
Definition finite_or (a : number) (d : double) : double :=
  match a with
  | Fin x => x
  | _ => d
  end.

(** A finite number that is not a zero. *)
Definition nonzero (x : double) : Prop := truthy x = true.

Definition Lt (a b : number) : Prop := ltb a b = true.
Definition Le (a b : number) : Prop := leb a b = true.

Coercion Fin : double >-> number.

Notation "0" := (Fin zero) : num_scope.
Notation "a + b" := (add a b) : num_scope.
Notation "a - b" := (sub a b) : num_scope.
Notation "a / b" := (div a b) : num_scope.
Notation "a < b" := (Lt a b) : num_scope.
Notation "a <= b" := (Le a b) : num_scope.

End JSNumber.

(** ** Notions used to state the properties of numbers *)

Module JSNumberSpec.

Import JSNumber.

Local Open Scope Z_scope.

(** On the line, the rounding of a whole number of units [n]: where
    [add] and [floor] land. *)
Definition landing (n : Z) : Z :=
  if n <? 0 then - magnitude (Z.min (nearest (- n) 1) INF)
  else magnitude (Z.min (nearest n 1) INF).

End JSNumberSpec.

(** ** The logic scheduler: [platformer.components['handler-logic']]

    The fields of the component, the payloads of the messages and the
    positions of the entities are finite numbers. *)

Module HandlerLogic.

Import JSNumber.

Record Camera : Type := mkCamera {
  left : double;
  top : double;
  width : double;
  height : double;
  buffer : double
}.

(** The payload of ['camera-update']. *)
Record CameraUpdate : Type := mkCameraUpdate {
  viewportLeft : double;
  viewportTop : double;
  viewportWidth : double;
  viewportHeight : double
}.

(** The component definition: absent fields are [undefined]. *)
Record Definition_ : Type := mkDefinition {
  def_stepLength : option double;
  def_buffer : option double
}.

(** [this.message] as a listener finds it: [deltaT] is rewritten on every
    tick, [camera] is the component's own camera object, so that it shows
    the camera as it is when the listener is called. *)
Record Message : Type := mkMessage {
  deltaT : number;
  msg_camera : Camera
}.

(** [v || d] on an optional number. *)
Definition or_default (v : option double) (d : double) : double :=
  match v with
  | Some q => if truthy q then q else d
  | None => d
  end.

Section Scheduler.

(** Entities are references to objects owned by the rest of the engine;
    [World] is the state of everything outside this component. *)
Variable Entity : Type.
Variable World : Type.

(** What reaches the component while one of its triggers runs: the
    listeners run before [trigger] returns, and one that spawns an entity
    or moves the camera has the owner deliver ['child-entity-added'] or
    ['camera-update'] to the component in the middle of a pass.  A
    listener that sends ['tick'] or ['logic'] to the owner from inside a
    tick is not modelled: a tick is not entered again before it
    returns. *)
Inductive Delivery : Type :=
| DeliverChildEntityAdded (entity : Entity)
| DeliverCameraUpdate (camera : CameraUpdate).

(** [entity.getMessageIds()]. *)
Variable getMessageIds : Entity -> list string.
(** [child.x] and [child.y]; [None] is [undefined]. *)
Variable entity_x : World -> Entity -> option double.
Variable entity_y : World -> Entity -> option double.
(** [child.trigger('handle-logic', message)]: runs the entity's
    listeners, tells whether there were any, and lists what they had
    delivered to the component meanwhile, in order. *)
Variable trigger_handle_logic :
  World -> Entity -> Message -> World * bool * list Delivery.
(** [this.owner.trigger('check-collision-group', message)]. *)
Variable trigger_check_collision_group :
  World -> Message -> World * list Delivery.
(** [platformer.game.currentScene.trigger('time-elapsed', ...)]; the
    measured time is wall-clock time and is left out. *)
Variable trigger_time_elapsed : World -> string -> World * list Delivery.

Record State : Type := mkState {
  entities : list Entity;
  stepLength : double;
  leftoverTime : double;
  maximumStepsPerTick : double;
  camera : Camera;
  message_deltaT : number;
  timeElapsed_name : string
}.

(** What the component sends out, in order. *)
Inductive Event : Type :=
| HandleLogic (child : Entity) (m : Message)
| TimeElapsed (name : string)
| CheckCollisionGroup (m : Message).

Definition component (definition : Definition_) : State :=
  let stepLength := or_default (def_stepLength definition) fifteen in
  {| entities := [];
     stepLength := stepLength;
     leftoverTime := zero;
     maximumStepsPerTick := ten;
     camera := {| left := zero; top := zero; width := zero; height := zero;
                  buffer := or_default (def_buffer definition) zero |};
     message_deltaT := Fin stepLength;
     timeElapsed_name := "Logic" |}.

(** [proto['child-entity-added']]: one push at the first
    ['handle-logic'] among the message ids, then [break]. *)
Fixpoint listens_handle_logic (messageIds : list string) : bool :=
  match messageIds with
  | [] => false
  | id :: rest =>
      if String.eqb id "handle-logic" then true
      else listens_handle_logic rest
  end.

Definition set_entities (s : State) (l : list Entity) : State :=
  {| entities := l;
     stepLength := stepLength s;
     leftoverTime := leftoverTime s;
     maximumStepsPerTick := maximumStepsPerTick s;
     camera := camera s;
     message_deltaT := message_deltaT s;
     timeElapsed_name := timeElapsed_name s |}.

Definition child_entity_added (s : State) (entity : Entity) : State :=
  if listens_handle_logic (getMessageIds entity)
  then set_entities s (entities s ++ [entity])
  else s.

(** [proto['camera-update']]. *)
Definition camera_update_camera (c : Camera) (u : CameraUpdate) : Camera :=
  let c1 := {| left := viewportLeft u; top := viewportTop u;
               width := viewportWidth u; height := viewportHeight u;
               buffer := buffer c |} in
  if negb (truthy (buffer c1))
  then {| left := left c1; top := top c1; width := width c1;
          height := height c1;
          buffer := finite_or (Fin (width c1) / Fin four)%num zero |}
  else c1.

Definition camera_update (s : State) (u : CameraUpdate) : State :=
  {| entities := entities s;
     stepLength := stepLength s;
     leftoverTime := leftoverTime s;
     maximumStepsPerTick := maximumStepsPerTick s;
     camera := camera_update_camera (camera s) u;
     message_deltaT := message_deltaT s;
     timeElapsed_name := timeElapsed_name s |}.

(** The component takes what is delivered to it during a trigger. *)
Definition receive (s : State) (d : Delivery) : State :=
  match d with
  | DeliverChildEntityAdded entity => child_entity_added s entity
  | DeliverCameraUpdate u => camera_update s u
  end.

Definition receive_all (s : State) (ds : list Delivery) : State :=
  foldl receive s ds.

(** [this.message], read now. *)
Definition message_of (s : State) : Message :=
  {| deltaT := message_deltaT s; msg_camera := camera s |}.

(** The test of line 74: no [x], or inside the buffered camera window,
    whose bounds are computed as the source does.  A comparison with an
    [undefined] [y] is false. *)
Definition in_window (c : Camera) (x y : option double) : bool :=
  match x with
  | None => true
  | Some vx =>
      leb (Fin (left c) - Fin (buffer c)) (Fin vx)
      && leb (Fin vx) (Fin (left c) + Fin (width c) + Fin (buffer c))
      && match y with
         | None => false
         | Some vy =>
             leb (Fin (top c) - Fin (buffer c)) (Fin vy)
             && leb (Fin vy) (Fin (top c) + Fin (height c) + Fin (buffer c))
         end
  end.

(** An entity with a position that is off the buffered camera window,
    along x or along y. *)
Definition outside_window (c : Camera) (x y : option double) : Prop :=
  exists vx, x = Some vx /\
    ((Fin vx < Fin (left c) - Fin (buffer c))%num \/
     (Fin (left c) + Fin (width c) + Fin (buffer c) < Fin vx)%num \/
     exists vy, y = Some vy /\
       ((Fin vy < Fin (top c) - Fin (buffer c))%num \/
        (Fin (top c) + Fin (height c) + Fin (buffer c) < Fin vy)%num)).

(** The inner loop, [for (x = length - 1; x > -1; x--)]: [logic_pass n]
    handles the indices [n - 1] down to [0].  What the listeners have
    delivered is taken before the answer of [trigger] is looked at.  An
    index is always below the length here: a delivery only appends, and
    [splice(x, 1)] only shortens the list above the indices still to
    come ([after_dispatch_entities] below). *)
Fixpoint logic_pass (n : nat) (w : World) (s : State) (out : list Event)
    : World * State * list Event :=
  match n with
  | O => (w, s, out)
  | S x =>
      match entities s !! x with
      | None => logic_pass x w s out
      | Some child =>
          if in_window (camera s) (entity_x w child) (entity_y w child)
          then
            let m := message_of s in
            let '(w', listened, delivered) := trigger_handle_logic w child m in
            let s1 := receive_all s delivered in
            logic_pass x w'
              (if listened then s1
               else set_entities s1 (delete x (entities s1)))
              (out ++ [HandleLogic child m])
          else logic_pass x w s out
      end
  end.

(** One iteration of the outer loop: the pass over the entities, the
    telemetry, and the collision check on the owner. *)
Definition step (st : World * State * list Event)
    : World * State * list Event :=
  let '(w, s, out) := st in
  let '(w1, s1, out1) := logic_pass (length (entities s)) w s out in
  let '(w2, d2) := trigger_time_elapsed w1 "Logic" in
  let s2 := receive_all s1 d2 in
  let m := message_of s2 in
  let '(w3, d3) := trigger_check_collision_group w2 m in
  let s3 := receive_all s2 d3 in
  let '(w4, d4) := trigger_time_elapsed w3 "Collision" in
  (w4, receive_all s3 d4,
   out1 ++ [TimeElapsed "Logic"; CheckCollisionGroup m;
            TimeElapsed "Collision"]).

Fixpoint steps (n : nat) (st : World * State * list Event)
    : World * State * list Event :=
  match n with
  | O => st
  | S k => steps k (step st)
  end.

(** [cycles] as computed on line 60, from the time accumulated. *)
Definition cycles_of (s : State) (resp_deltaT : double) : number :=
  floor ((Fin (leftoverTime s) + Fin resp_deltaT) / Fin (stepLength s))%num.

(** [cycles] after the clamp of line 68. *)
Definition clamped_cycles (s : State) (resp_deltaT : double) : number :=
  min (cycles_of s resp_deltaT) (Fin (maximumStepsPerTick s)).

(** [proto['tick'] = proto['logic']].  Lines 63 and 64 write the message
    and the accumulator before the loop starts. *)
Definition tick (s : State) (resp_deltaT : double) (w : World)
    : State * World * list Event :=
  let accumulated := (Fin (leftoverTime s) + Fin resp_deltaT)%num in
  let cycles := cycles_of s resp_deltaT in
  let deltaT' := (accumulated / cycles)%num in
  let n := iterations (clamped_cycles s resp_deltaT) in
  let s0 := {| entities := entities s;
               stepLength := stepLength s;
               leftoverTime := zero;
               maximumStepsPerTick := maximumStepsPerTick s;
               camera := camera s;
               message_deltaT := deltaT';
               timeElapsed_name := timeElapsed_name s |} in
  let '(w', s', out) := steps n (w, s0, []) in
  let name := if decide (n = 0%nat) then timeElapsed_name s
              else "Collision" in
  let '(w'', delivered) := trigger_time_elapsed w' name in
  (receive_all
     {| entities := entities s';
        stepLength := stepLength s';
        leftoverTime := leftoverTime s';
        maximumStepsPerTick := maximumStepsPerTick s';
        camera := camera s';
        message_deltaT := message_deltaT s';
        timeElapsed_name := name |} delivered,
   w'',
   out ++ [TimeElapsed name]).

(** Observations on what a tick sent out: a step ends with one
    ['check-collision-group'], so the steps run are counted by these;
    [dispatched_to out] lists the messages sent to the children. *)
Definition is_check (ev : Event) : bool :=
  match ev with
  | CheckCollisionGroup _ => true
  | _ => false
  end.

Definition steps_run (out : list Event) : nat :=
  length (filter (fun ev => is_check ev = true) out).

Fixpoint dispatched_to (out : list Event) : list (Entity * Message) :=
  match out with
  | [] => []
  | HandleLogic child m :: rest => (child, m) :: dispatched_to rest
  | _ :: rest => dispatched_to rest
  end.

(** A run of ['camera-update'] messages. *)
Definition camera_updates (s : State) (us : list CameraUpdate) : State :=
  foldl camera_update s us.

(** The fields that only a tick writes, and never after its loop has
    started. *)
Definition settings (s : State) : double * double * double * number :=
  (stepLength s, leftoverTime s, maximumStepsPerTick s, message_deltaT s).

(** The entities that a run of deliveries registers. *)
Definition registrations (ds : list Delivery) : list Entity :=
  omap (fun d =>
          match d with
          | DeliverChildEntityAdded entity =>
              if listens_handle_logic (getMessageIds entity)
              then Some entity else None
          | DeliverCameraUpdate _ => None
          end) ds.

(** The camera after what was delivered. *)
Definition receive_camera (c : Camera) (ds : list Delivery) : Camera :=
  foldl (fun c d =>
           match d with
           | DeliverCameraUpdate u => camera_update_camera c u
           | DeliverChildEntityAdded _ => c
           end) c ds.

(** Listeners that deliver nothing to the component. *)
Definition quiet_children : Prop :=
  forall w child m, (trigger_handle_logic w child m).2 = [].

Definition quiet_owner : Prop :=
  (forall w m, (trigger_check_collision_group w m).2 = []) /\
  (forall w name, (trigger_time_elapsed w name).2 = []).

End Scheduler.

Arguments HandleLogic {Entity} child m.
Arguments TimeElapsed {Entity} name.
Arguments CheckCollisionGroup {Entity} m.
Arguments DeliverChildEntityAdded {Entity} entity.
Arguments DeliverCameraUpdate {Entity} camera.

End HandlerLogic.

(** ** The collision group: component [CollisionGroup] *)

Module CollisionGroup.

(** Modelled from the spec: [platypus.AABB] is not among the sources.  An
    axis-aligned box with reset/include semantics: [new platypus.AABB()]
    and [reset()] give the empty box, [include] grows the receiver to
    the smallest box that holds both. *)
Record Box : Type := mkBox {
  box_left : Qc;
  box_top : Qc;
  box_right : Qc;
  box_bottom : Qc
}.

Definition AABB : Type := option Box.

Definition qmin (a b : Qc) : Qc := if decide (a <= b) then a else b.
Definition qmax (a b : Qc) : Qc := if decide (a <= b) then b else a.

Definition include (this other : AABB) : AABB :=
  match this, other with
  | None, b => b
  | a, None => a
  | Some a, Some b =>
      Some {| box_left := qmin (box_left a) (box_left b);
              box_top := qmin (box_top a) (box_top b);
              box_right := qmax (box_right a) (box_right b);
              box_bottom := qmax (box_bottom a) (box_bottom b) |}
  end.

(** [inner] lies within [outer]. *)
Definition encloses (outer inner : AABB) : Prop :=
  match inner, outer with
  | None, _ => True
  | Some _, None => False
  | Some b, Some a =>
      box_left a <= box_left b /\ box_top a <= box_top b /\
      box_right b <= box_right a /\ box_bottom b <= box_bottom a
  end.

(** Object references. *)
Definition ref : Type := nat.

(** The state the component keeps: [this.solidEntities], [this.aabb] and
    [this.prevAABB] (references to AABB objects).  [this.owner] is the
    entity that holds the group. *)
Record Group : Type := mkGroup {
  solidEntities : list ref;
  aabb : ref;
  prevAABB : ref
}.

(** The fields of an entity that the component reads or writes.
    [own_getAABB] and [own_getPreviousAABB] stand for the entity's own
    [getAABB]/[getPreviousAABB] (a read of its collision shapes);
    [solidCollisions] maps a collision type to its list of responses. *)
Record Entity : Type := mkEntity {
  x : Qc;
  y : Qc;
  previousX : Qc;
  previousY : Qc;
  saveDX : Qc;
  saveDY : Qc;
  saveOX : Qc;
  saveOY : Qc;
  collisionTypes : option (list string);
  solidCollisions : gmap string (list string);
  immobile : bool;
  own_getAABB : option string -> AABB;
  own_getPreviousAABB : option string -> AABB;
  collisionGroup : option Group
}.

(** The heap: entities and AABB objects, by reference. *)
Record Heap : Type := mkHeap {
  ents : gmap ref Entity;
  boxes : gmap ref AABB
}.

Record Vector : Type := mkVector { vec_x : Qc; vec_y : Qc }.

(** [collisionData]: for each axis, the owners of [thisShape] of the
    entries [0 .. count - 1]. *)
Record CollisionData : Type := mkCollisionData {
  xEntries : list ref;
  yEntries : list ref
}.

Definition set_ents (h : Heap) (m : gmap ref Entity) : Heap :=
  {| ents := m; boxes := boxes h |}.

Definition set_boxes (h : Heap) (m : gmap ref AABB) : Heap :=
  {| ents := ents h; boxes := m |}.

Definition group_of (h : Heap) (owner : ref) : option Group :=
  e ← ents h !! owner; collisionGroup e.

(** [childEntity !== this.owner && childEntity.collisionGroup]. *)
Definition delegates (h : Heap) (owner child : ref) : bool :=
  bool_decide (child <> owner) && bool_decide (is_Some (group_of h child)).

(** [new platypus.AABB()]: a new object at an unused reference. *)
Definition alloc (h : Heap) (b : AABB) : Heap * ref :=
  let r := fresh (dom (boxes h)) in
  (set_boxes h (<[r := b]> (boxes h)), r).

(** [target.include(other)] on the object at [target]. *)
Definition include_at (h : Heap) (target : ref) (other : AABB) : option Heap :=
  this ← boxes h !! target;
  Some (set_boxes h (<[target := include this other]> (boxes h))).

(** A collision type is falsy when it is [undefined] or the empty
    string. *)
Definition no_filter (collisionType : option string) : bool :=
  match collisionType with
  | None => true
  | Some EmptyString => true
  | Some (String _ _) => false
  end.

Section Queries.

(** [cached] picks the cached box ([aabb] or [prevAABB]) and [own] the
    entity's own query, so that one definition gives [getAABB] and
    [getPreviousAABB], whose bodies differ in just these names. *)
Variable cached : Group -> ref.
Variable own : Entity -> option string -> AABB.

(** The body of the loop: [aabb.include(childEntity.getAABB(collisionType))]
    with [childEntity] replaced by its group when it delegates; [nested]
    is the query of a nested group. *)
Definition include_member
    (nested : Heap -> ref -> option string -> option (Heap * ref))
    (owner : ref) (collisionType : option string) (a : ref)
    (acc : option Heap) (childEntity : ref) : option Heap :=
  h1 ← acc;
  if delegates h1 owner childEntity then
    '(h2, b) ← nested h1 childEntity collisionType;
    box ← boxes h2 !! b;
    include_at h2 a box
  else
    e ← ents h1 !! childEntity;
    include_at h1 a (own e collisionType).

Fixpoint query_AABB (fuel : nat) (h : Heap) (owner : ref)
    (collisionType : option string) : option (Heap * ref) :=
  match fuel with
  | O => None
  | S fuel' =>
      g ← group_of h owner;
      if no_filter collisionType then Some (h, cached g)
      else
        let '(h0, a) := alloc h None in
        h' ← foldl (include_member (query_AABB fuel') owner collisionType a)
               (Some h0) (solidEntities g);
        Some (h', a)
  end.

End Queries.

Definition getAABB := query_AABB aabb own_getAABB.
Definition getPreviousAABB := query_AABB prevAABB own_getPreviousAABB.

(** [updateAABB]: reset the cached box and include every member; a
    member other than the owner that has [getCollisionGroupAABB] (that
    is, its own group) contributes its group's cached box. *)
Definition updateAABB (h : Heap) (owner : ref) : option Heap :=
  g ← group_of h owner;
  _ ← boxes h !! aabb g;
  foldl
    (fun acc member =>
       h1 ← acc;
       if delegates h1 owner member then
         gm ← group_of h1 member;
         box ← boxes h1 !! aabb gm;
         include_at h1 (aabb g) box
       else
         e ← ents h1 !! member;
         include_at h1 (aabb g) (own_getAABB e None))
    (Some (set_boxes h (<[aabb g := None]> (boxes h))))
    (solidEntities g).

Definition set_solidEntities (h : Heap) (owner : ref) (l : list ref) : Heap :=
  set_ents h
    (alter (fun e =>
              {| x := x e; y := y e;
                 previousX := previousX e; previousY := previousY e;
                 saveDX := saveDX e; saveDY := saveDY e;
                 saveOX := saveOX e; saveOY := saveOY e;
                 collisionTypes := collisionTypes e;
                 solidCollisions := solidCollisions e;
                 immobile := immobile e;
                 own_getAABB := own_getAABB e;
                 own_getPreviousAABB := own_getPreviousAABB e;
                 collisionGroup :=
                   g ← collisionGroup e;
                   Some {| solidEntities := l; aabb := aabb g;
                           prevAABB := prevAABB g |} |})
           owner (ents h)).

(** The loop of [addCollisionEntity]: the list after one pass over
    [types].  [entity.solidCollisions[t]] is [undefined] for a type
    without an entry, and reading its [length] throws ([None]). *)
Fixpoint add_for_types (e : Entity) (entity : ref) (types : list string)
    (solid : list ref) : option (list ref) :=
  match types with
  | [] => Some solid
  | t :: rest =>
      responses ← solidCollisions e !! t;
      if negb (Nat.eqb (length responses) 0) && negb (immobile e)
      then add_for_types e entity rest (solid ++ [entity])
      else add_for_types e entity rest solid
  end.

(** [addCollisionEntity], the handler of both ['child-entity-added'] and
    ['add-collision-entity']. *)
Definition addCollisionEntity (h : Heap) (owner entity : ref) : option Heap :=
  g ← group_of h owner;
  e ← ents h !! entity;
  match collisionTypes e with
  | None => Some h
  | Some types =>
      solid ← add_for_types e entity types (solidEntities g);
      updateAABB (set_solidEntities h owner solid) owner
  end.

Definition child_entity_added := addCollisionEntity.
Definition add_collision_entity := addCollisionEntity.

(** [for (x in this.solidEntities)] with its [break]: the first entry that
    is the entity is spliced out. *)
Fixpoint remove_first (entity : ref) (solid : list ref) : list ref :=
  match solid with
  | [] => []
  | r :: rest =>
      if decide (r = entity) then rest else r :: remove_first entity rest
  end.

(** The loop of [removeCollisionEntity]: one removal for each type with a
    response; the test does not look at [immobile]. *)
Fixpoint remove_for_types (e : Entity) (entity : ref) (types : list string)
    (solid : list ref) : option (list ref) :=
  match types with
  | [] => Some solid
  | t :: rest =>
      responses ← solidCollisions e !! t;
      if negb (Nat.eqb (length responses) 0)
      then remove_for_types e entity rest (remove_first entity solid)
      else remove_for_types e entity rest solid
  end.

(** [removeCollisionEntity], the handler of both ['child-entity-removed']
    and ['remove-collision-entity']. *)
Definition removeCollisionEntity (h : Heap) (owner entity : ref) : option Heap :=
  g ← group_of h owner;
  e ← ents h !! entity;
  match collisionTypes e with
  | None => Some h
  | Some types =>
      solid ← remove_for_types e entity types (solidEntities g);
      updateAABB (set_solidEntities h owner solid) owner
  end.

(** Field updates on the entity at a reference; a missing entity is a
    [TypeError] ([None]). *)
Definition with_position (e : Entity) (nx ny : Qc) : Entity :=
  {| x := nx; y := ny;
     previousX := previousX e; previousY := previousY e;
     saveDX := saveDX e; saveDY := saveDY e;
     saveOX := saveOX e; saveOY := saveOY e;
     collisionTypes := collisionTypes e;
     solidCollisions := solidCollisions e;
     immobile := immobile e;
     own_getAABB := own_getAABB e;
     own_getPreviousAABB := own_getPreviousAABB e;
     collisionGroup := collisionGroup e |}.

Definition with_saved_delta (e : Entity) (dx dy : Qc) : Entity :=
  {| x := x e; y := y e;
     previousX := previousX e; previousY := previousY e;
     saveDX := dx; saveDY := dy;
     saveOX := saveOX e; saveOY := saveOY e;
     collisionTypes := collisionTypes e;
     solidCollisions := solidCollisions e;
     immobile := immobile e;
     own_getAABB := own_getAABB e;
     own_getPreviousAABB := own_getPreviousAABB e;
     collisionGroup := collisionGroup e |}.

Definition update_entity (h : Heap) (r : ref) (f : Entity -> Entity)
    : option Heap :=
  e ← ents h !! r;
  Some (set_ents h (<[r := f e]> (ents h))).

(** The two loops over [collisionData]: does some entry of the axis have
    the owner as the owner of [thisShape]? *)
Fixpoint owner_collides (owner : ref) (entries : list ref) : bool :=
  match entries with
  | [] => false
  | shapeOwner :: rest =>
      if decide (shapeOwner = owner) then true
      else owner_collides owner rest
  end.

(** Lines 361 to 376: the owner's saved deltas. *)
Definition relocate_owner_deltas (h : Heap) (owner : ref)
    (vector : Vector) (collisionData : CollisionData) : option Heap :=
  h1 ← update_entity h owner (fun o =>
          with_saved_delta o (saveDX o - (vec_x vector - previousX o))
                             (saveDY o));
  h2 ← update_entity h1 owner (fun o =>
          with_saved_delta o (saveDX o)
                             (saveDY o - (vec_y vector - previousY o)));
  h3 ← (if owner_collides owner (xEntries collisionData)
        then update_entity h2 owner (fun o => with_saved_delta o 0 (saveDY o))
        else Some h2);
  if owner_collides owner (yEntries collisionData)
  then update_entity h3 owner (fun o => with_saved_delta o (saveDX o) 0)
  else Some h3.

(** Lines 384 to 389: the member takes its own saved delta and, when it
    is not the owner, the owner's as well.  Each statement reads the
    heap as the one before left it. *)
Definition carry_member (h : Heap) (owner entity : ref) : option Heap :=
  h1 ← update_entity h entity (fun e => with_position e (x e + saveDX e) (y e));
  h2 ← update_entity h1 entity (fun e => with_position e (x e) (y e + saveDY e));
  if decide (entity <> owner) then
    o ← ents h2 !! owner;
    h3 ← update_entity h2 entity (fun e => with_position e (x e + saveDX o) (y e));
    o' ← ents h3 !! owner;
    update_entity h3 entity (fun e => with_position e (x e) (y e + saveDY o'))
  else Some h2.

Section Relocation.

(** [entity.relocateEntity(vector, collisionData)] of a member that is
    addressed directly: the method of the entity's own collision
    component, which is outside this component. *)
Variable entity_relocateEntity :
  Heap -> ref -> Vector -> CollisionData -> Heap.

(** Line 383: the member, or its group when it delegates, is relocated
    to the vector less the member's saved offset; [nested] is the
    relocation of a nested group. *)
Definition relocate_child
    (nested : Heap -> ref -> Vector -> CollisionData -> option Heap)
    (owner : ref) (vector : Vector) (collisionData : CollisionData)
    (h1 : Heap) (entity : ref) : option Heap :=
  e ← ents h1 !! entity;
  let v := {| vec_x := vec_x vector - saveOX e;
              vec_y := vec_y vector - saveOY e |} in
  if delegates h1 owner entity
  then nested h1 entity v collisionData
  else Some (entity_relocateEntity h1 entity v collisionData).

(** The body of the loop over the members. *)
Definition relocate_member
    (nested : Heap -> ref -> Vector -> CollisionData -> option Heap)
    (owner : ref) (vector : Vector) (collisionData : CollisionData)
    (acc : option Heap) (entity : ref) : option Heap :=
  h1 ← acc;
  h2 ← relocate_child nested owner vector collisionData h1 entity;
  carry_member h2 owner entity.

(** [relocateEntity].  The member list is the one found when the loop
    starts: a member's relocation does not change the membership of
    the group it is relocated from. *)
Fixpoint relocateEntity (fuel : nat) (h : Heap) (owner : ref)
    (vector : Vector) (collisionData : CollisionData) : option Heap :=
  match fuel with
  | O => None
  | S fuel' =>
      g ← group_of h owner;
      h0 ← relocate_owner_deltas h owner vector collisionData;
      foldl (relocate_member (relocateEntity fuel') owner vector collisionData)
        (Some h0) (solidEntities g)
  end.

End Relocation.

End CollisionGroup.

(** ** A small scene for the scheduler

    Entities are numbered.  Entity [0] has no position, entity [1] stands
    at [(1000, 0)] and the others at [(50, 50)]; every entity listens for
    ['handle-logic'], which it lists twice, and answers every dispatch;
    no listener sends anything to the scheduler, and the world has no
    state of its own. *)

Module SchedulerScene.

Import JSNumber HandlerLogic.

(** The numbers of the scene, each given by its ordinal
    ([scene_numbers] below): [3], [30], [32], [40], [46], [50], [100],
    [200], [300], [400], [800], [1000], [-30], the largest number there
    is, and the numbers nearest to [0.1], [0.5], [0.7], [-0.6], [46/3]
    and [1000/60]. *)
Definition three : double := Double false 4613937818241073152 eq_refl.
Definition thirty : double := Double false 4629137466983448576 eq_refl.
Definition thirty_two : double := Double false 4629700416936869888 eq_refl.
Definition forty : double := Double false 4630826316843712512 eq_refl.
Definition forty_six : double := Double false 4631670741773844480 eq_refl.
Definition fifty : double := Double false 4632233691727265792 eq_refl.
Definition hundred : double := Double false 4636737291354636288 eq_refl.
Definition two_hundred : double := Double false 4641240890982006784 eq_refl.
Definition three_hundred : double := Double false 4643985272004935680 eq_refl.
Definition four_hundred : double := Double false 4645744490609377280 eq_refl.
Definition eight_hundred : double := Double false 4650248090236747776 eq_refl.
Definition thousand : double := Double false 4652007308841189376 eq_refl.
Definition minus_thirty : double := Double true 4629137466983448576 eq_refl.
Definition largest : double := Double false 9218868437227405311 eq_refl.
Definition tenth : double := Double false 4591870180066957722 eq_refl.
Definition half : double := Double false 4602678819172646912 eq_refl.
Definition seven_tenths : double := Double false 4604480259023595110 eq_refl.
Definition minus_six_tenths : double :=
  Double true 4603579539098121011 eq_refl.
Definition forty_six_thirds : double :=
  Double false 4624821517340551851 eq_refl.
Definition sixtieth_of_thousand : double :=
  Double false 4625384467293973163 eq_refl.

Definition getMessageIds (e : nat) : list string :=
  ["handle-render"; "handle-logic"; "handle-logic"].

Definition entity_x (w : unit) (e : nat) : option double :=
  match e with
  | O => None
  | S O => Some thousand
  | S (S _) => Some fifty
  end.

Definition entity_y (w : unit) (e : nat) : option double :=
  match e with
  | O => None
  | S O => Some zero
  | S (S _) => Some fifty
  end.

Definition trigger_handle_logic (w : unit) (e : nat) (m : Message)
    : unit * bool * list (Delivery nat) := (w, true, []).

Definition trigger_check_collision_group (w : unit) (m : Message)
    : unit * list (Delivery nat) := (w, []).

Definition trigger_time_elapsed (w : unit) (name : string)
    : unit * list (Delivery nat) := (w, []).

(** A scheduler built with an empty definition, and one built with
    [stepLength: 0.1], one with [stepLength: 1000 / 60]. *)
Definition fresh_state : State nat :=
  component nat {| def_stepLength := None; def_buffer := None |}.

Definition fine_state : State nat :=
  component nat {| def_stepLength := Some tenth; def_buffer := None |}.

Definition sixty_hertz : State nat :=
  component nat {| def_stepLength := Some sixtieth_of_thousand;
                   def_buffer := None |}.

Definition tick :=
  HandlerLogic.tick nat unit getMessageIds entity_x entity_y
    trigger_handle_logic trigger_check_collision_group trigger_time_elapsed.

Definition step :=
  HandlerLogic.step nat unit getMessageIds entity_x entity_y
    trigger_handle_logic trigger_check_collision_group trigger_time_elapsed.

Definition viewport (w : double) : CameraUpdate :=
  {| viewportLeft := zero; viewportTop := zero;
     viewportWidth := w; viewportHeight := three_hundred |}.

(** No buffer configured; a ['camera-update'] of width [0], then one of
    width [400]. *)
Definition after_zero_width : State nat :=
  camera_update nat fresh_state (viewport zero).

Definition after_second_update : State nat :=
  camera_update nat after_zero_width (viewport four_hundred).

(** A scheduler configured with [buffer: 0]. *)
Definition configured_zero : State nat :=
  component nat {| def_stepLength := None; def_buffer := Some zero |}.

(** A scheduler under a [400 x 300] window, which gets the default
    buffer of [100], with the given entities registered. *)
Definition watching (l : list nat) : State nat :=
  set_entities nat (camera_update nat fresh_state (viewport four_hundred)) l.

Definition window_message : Message := message_of nat (watching []).

(** A camera at [left = 0.1] with a buffer of [0.7]: the left bound
    [0.1 - 0.7] is the number nearest to [-0.6]. *)
Definition narrow_camera : Camera :=
  {| left := tenth; top := zero; width := hundred; height := hundred;
     buffer := seven_tenths |}.

End SchedulerScene.

(** ** Notions used to state the properties of the collision group *)

Module CollisionGroupSpec.

Import CollisionGroup.

(** The number of [types] that admit the entity: those with at least one
    collision response, for an entity that is not immobile. *)
Fixpoint qualifying (e : Entity) (types : list string) : nat :=
  match types with
  | [] => 0%nat
  | t :: rest =>
      match solidCollisions e !! t with
      | Some (_ :: _) =>
          if immobile e then qualifying e rest else S (qualifying e rest)
      | _ => qualifying e rest
      end
  end.

(** A heap in which what the component reads is there: the cached box of
    every group, and every member of every group. *)
Definition well_formed (h : Heap) : Prop :=
  forall o e g,
    ents h !! o = Some e -> collisionGroup e = Some g ->
    is_Some (boxes h !! aabb g) /\
    forall member, member ∈ solidEntities g -> is_Some (ents h !! member).

(** Where a member ends up once it has been relocated: it takes its own
    saved delta and, unless it is the owner, the owner's too.  [e] is the
    member and [o] the owner, both as the member's relocation left them. *)
Definition carried (owner entity : ref) (e o : Entity) : Entity :=
  if decide (entity = owner)
  then with_position e (x e + saveDX e) (y e + saveDY e)
  else with_position e (x e + saveDX e + saveDX o)
                       (y e + saveDY e + saveDY o).


(** The groups under [owner] nest at most [n] deep: the owner has a
    group, its members exist, and the groups of the members it delegates
    to nest at most [n - 1] deep.  A group that contains itself through
    another entity nests to no depth. *)
Fixpoint nests (h : Heap) (n : nat) (owner : ref) : Prop :=
  match n with
  | O => False
  | S n' =>
      exists g, group_of h owner = Some g /\
        forall child, child ∈ solidEntities g ->
          is_Some (ents h !! child) /\
          (delegates h owner child = true -> nests h n' child)
  end.

Section Union.

Variable own : Entity -> option string -> AABB.

(** The union, for a collision type, of the boxes of the members of the
    group of [owner]: a member's own box, or the union over its group when
    the member is not the owner and has one. *)
Fixpoint union_AABB (h : Heap) (n : nat) (owner : ref)
    (collisionType : option string) : AABB :=
  match n with
  | O => None
  | S n' =>
      match group_of h owner with
      | None => None
      | Some g =>
          foldl
            (fun acc child =>
               include acc
                 (if delegates h owner child
                  then union_AABB h n' child collisionType
                  else match ents h !! child with
                       | Some e => own e collisionType
                       | None => None
                       end))
            None (solidEntities g)
      end
  end.

End Union.

(** [leaf] is an entity whose own box a query on the group of [owner]
    reads, at any level of nesting. *)
Fixpoint leaf_of (h : Heap) (n : nat) (owner leaf : ref) : Prop :=
  match n with
  | O => False
  | S n' =>
      exists g child, group_of h owner = Some g /\
        child ∈ solidEntities g /\
        if delegates h owner child then leaf_of h n' child leaf
        else child = leaf
  end.

(** [result] is a new box holding the union over the group, in a heap
    that differs from [h] in new boxes only: every entity and every box
    of [h], the cached ones among them, is as it was. *)
Definition answers_fresh_union (own : Entity -> option string -> AABB)
    (h : Heap) (n : nat) (owner : ref) (collisionType : option string)
    (result : option (Heap * ref)) : Prop :=
  exists h' a,
    result = Some (h', a) /\
    (a ∉ dom (boxes h)) /\
    ents h' = ents h /\
    boxes h ⊆ boxes h' /\
    boxes h' !! a = Some (union_AABB own h n owner collisionType).

End CollisionGroupSpec.

(** ** A small scene for the collision group

    A platform (entity [0]) that owns a group, a crate (entity [1]) that
    owns a group of its own, and a passenger (entity [2]). *)

Module CollisionScene.

Import CollisionGroup.

Definition square (left top size : Z) : AABB :=
  Some {| box_left := Qc_of_Z left; box_top := Qc_of_Z top;
          box_right := Qc_of_Z (left + size);
          box_bottom := Qc_of_Z (top + size) |}.

(** An entity at [(px, py)] that has one shape, of type ["solid"], and
    lists two collision types with a response each. *)
Definition body (px py : Z) (group : option Group) : Entity :=
  {| x := Qc_of_Z px; y := Qc_of_Z py;
     previousX := Qc_of_Z px; previousY := Qc_of_Z py;
     saveDX := 0; saveDY := 0; saveOX := 0; saveOY := 0;
     collisionTypes := Some ["solid"; "hero"];
     solidCollisions := {[ "solid" := ["tiles"]; "hero" := ["tiles"; "solid"] ]};
     immobile := false;
     own_getAABB := fun t =>
       match t with
       | Some "solid" => square px py 10
       | _ => None
       end;
     own_getPreviousAABB := fun t =>
       match t with
       | Some "solid" => square px py 10
       | _ => None
       end;
     collisionGroup := group |}.

(** The platform owns an empty group; the crate is not yet in it. *)
Definition empty_platform : Heap :=
  {| ents := {[ 0%nat := body 0 0 (Some {| solidEntities := [];
                                           aabb := 0%nat; prevAABB := 1%nat |});
                1%nat := body 20 0 None ]};
     boxes := {[ 0%nat := None; 1%nat := None ]} |}.

(** The platform carries itself and the crate; the crate carries itself
    and the passenger. *)
Definition stacked : Heap :=
  {| ents := {[ 0%nat := body 0 0 (Some {| solidEntities := [0%nat; 1%nat];
                                           aabb := 0%nat; prevAABB := 1%nat |});
                1%nat := body 20 0 (Some {| solidEntities := [1%nat; 2%nat];
                                            aabb := 2%nat; prevAABB := 3%nat |});
                2%nat := body 20 (-10) None ]};
     boxes := {[ 0%nat := square 0 0 30; 1%nat := square 0 0 30;
                 2%nat := square 20 (-10) 20; 3%nat := square 20 (-10) 20 ]} |}.

(** The platform carries itself and a crate that has no group.  The
    platform moved from [(0, 0)] to [(5, 3)] and the crate rests at
    [(20, 0)]; the saved deltas and offsets are those [prepareCollision]
    records. *)
Definition riding_platform : Entity :=
  {| x := Qc_of_Z 5; y := Qc_of_Z 3; previousX := 0; previousY := 0;
     saveDX := Qc_of_Z 5; saveDY := Qc_of_Z 3; saveOX := 0; saveOY := 0;
     collisionTypes := Some ["solid"];
     solidCollisions := {[ "solid" := ["tiles"] ]};
     immobile := false;
     own_getAABB := fun _ => square 5 3 10;
     own_getPreviousAABB := fun _ => square 0 0 10;
     collisionGroup := Some {| solidEntities := [0%nat; 1%nat];
                               aabb := 0%nat; prevAABB := 1%nat |} |}.

Definition riding_crate : Entity :=
  {| x := Qc_of_Z 20; y := 0;
     previousX := Qc_of_Z 20; previousY := 0;
     saveDX := 0; saveDY := 0; saveOX := Qc_of_Z (-20); saveOY := 0;
     collisionTypes := Some ["solid"];
     solidCollisions := {[ "solid" := ["tiles"] ]};
     immobile := false;
     own_getAABB := fun _ => square 20 0 10;
     own_getPreviousAABB := fun _ => square 20 0 10;
     collisionGroup := None |}.

Definition riding : Heap :=
  {| ents := {[ 0%nat := riding_platform; 1%nat := riding_crate ]};
     boxes := {[ 0%nat := square 0 0 30; 1%nat := square 0 0 30 ]} |}.

(** Collision resolution stops the platform along x: it may go to
    [(2, 1)], and it is the colliding shape of the one x-axis entry. *)
Definition resolved : Vector := {| vec_x := Qc_of_Z 2; vec_y := 1 |}.

Definition stopped_along_x : CollisionData :=
  {| xEntries := [0%nat]; yEntries := [] |}.

(** A member's own [relocateEntity] that puts the member at the vector. *)
Definition place (h : Heap) (r : ref) (v : Vector) (cd : CollisionData)
    : Heap :=
  set_ents h (alter (fun e => with_position e (vec_x v) (vec_y v)) r (ents h)).

(** The position of an entity, if it is the given one. *)
Definition stands_at (h : Heap) (r : ref) (px py : Z) : bool :=
  match ents h !! r with
  | Some e => bool_decide (x e = Qc_of_Z px /\ y e = Qc_of_Z py)
  | None => false
  end.

End CollisionScene.

(** ** The messages the scheduler listens for

    The constructor binds ['tick'], ['camera-update'],
    ['child-entity-added'] and ['logic'] on the owner; each listener calls
    the method of that name. *)

Module HandlerLogicBus.

Import JSNumber HandlerLogic.

Section Bus.

Variable Entity : Type.
Variable World : Type.
Variable getMessageIds : Entity -> list string.
Variable entity_x : World -> Entity -> option double.
Variable entity_y : World -> Entity -> option double.
Variable trigger_handle_logic :
  World -> Entity -> Message -> World * bool * list (Delivery Entity).
Variable trigger_check_collision_group :
  World -> Message -> World * list (Delivery Entity).
Variable trigger_time_elapsed :
  World -> string -> World * list (Delivery Entity).

(** A message on the owner's bus, with its payload; ['tick'] and
    ['logic'] run the same function. *)
Inductive Incoming : Type :=
| Tick (resp_deltaT : double)
| Logic (resp_deltaT : double)
| CameraUpdated (camera : CameraUpdate)
| ChildEntityAdded (entity : Entity).

(** One delivery: the state of the component, the world and everything
    sent out so far. *)
Definition deliver (st : State Entity * World * list (Event Entity))
    (msg : Incoming) : State Entity * World * list (Event Entity) :=
  let '(s, w, out) := st in
  match msg with
  | Tick dt | Logic dt =>
      let '(s', w', sent) :=
        tick Entity World getMessageIds entity_x entity_y trigger_handle_logic
          trigger_check_collision_group trigger_time_elapsed s dt w in
      (s', w', out ++ sent)
  | CameraUpdated u => (camera_update Entity s u, w, out)
  | ChildEntityAdded e => (child_entity_added Entity getMessageIds s e, w, out)
  end.

Definition deliver_all (st : State Entity * World * list (Event Entity))
    (msgs : list Incoming) : State Entity * World * list (Event Entity) :=
  foldl deliver st msgs.

(** The ['time-elapsed'] events among what was sent. *)
Definition is_time_elapsed (ev : Event Entity) : bool :=
  match ev with
  | TimeElapsed _ => true
  | _ => false
  end.

Definition time_elapsed_count (out : list (Event Entity)) : nat :=
  length (filter (fun ev => is_time_elapsed ev = true) out).

End Bus.

Arguments Tick {Entity} resp_deltaT.
Arguments Logic {Entity} resp_deltaT.
Arguments CameraUpdated {Entity} camera.
Arguments ChildEntityAdded {Entity} entity.

End HandlerLogicBus.

(** ** The other methods of the collision group *)

Module CollisionGroupMethods.

Import CollisionGroup.

(** [appendUniqueItems]: an item of [insertArray] is pushed unless it is
    found among the first [length] items of [hostArray], where [length]
    is the length [hostArray] had on entry; items pushed by this call are
    not compared with. *)
Definition found_in (item : string) (hostArray : list string) (length : nat)
    : bool :=
  existsb (String.eqb item) (take length hostArray).

Definition appendUniqueItems (hostArray insertArray : list string)
    : list string :=
  let length := length hostArray in
  foldl (fun host item =>
           if found_in item host length then host else host ++ [item])
    hostArray insertArray.

(** [collisionGroup.getSize]. *)
Definition getSize (h : Heap) (owner : ref) : option nat :=
  g ← group_of h owner; Some (length (solidEntities g)).

(** [destroy]: [this.solidEntities.length = 0]. *)
Definition destroy (h : Heap) (owner : ref) : Heap :=
  set_solidEntities h owner [].

Section Members.

(** What a member that is addressed directly answers: its own
    [getCollisionTypes()], [getSolidCollisions()], [getShapes(type)] and
    [getPrevShapes(type)], the last two [None] when it has no shapes of
    the type.  Shapes are opaque here. *)
Variable Shape : Type.
Variable own_getCollisionTypes : ref -> list string.
Variable own_getSolidCollisions : ref -> gmap string (list string).
Variable own_getShapes : ref -> option string -> option (list Shape).

(** [collisionGroup.getAllEntities]: a member that delegates counts for
    what its group counts, any other member for one. *)
Fixpoint getAllEntities (fuel : nat) (h : Heap) (owner : ref) : option nat :=
  match fuel with
  | O => None
  | S fuel' =>
      g ← group_of h owner;
      foldl (fun acc childEntity =>
               count ← acc;
               if delegates h owner childEntity then
                 n ← getAllEntities fuel' h childEntity; Some (count + n)%nat
               else Some (count + 1)%nat)
        (Some 0%nat) (solidEntities g)
  end.

(** [getCollisionTypes]. *)
Fixpoint getCollisionTypes (fuel : nat) (h : Heap) (owner : ref)
    : option (list string) :=
  match fuel with
  | O => None
  | S fuel' =>
      g ← group_of h owner;
      foldl (fun acc childEntity =>
               compiledList ← acc;
               types ← (if delegates h owner childEntity
                        then getCollisionTypes fuel' h childEntity
                        else Some (own_getCollisionTypes childEntity));
               Some (appendUniqueItems compiledList types))
        (Some []) (solidEntities g)
  end.

(** The loop [for (key in entityList)] of [getSolidCollisions]. *)
Definition compile_collisions (compiledList entityList : gmap string (list string))
    : gmap string (list string) :=
  map_fold (fun key items compiled =>
              <[key := appendUniqueItems (default [] (compiled !! key)) items]>
                compiled)
    compiledList entityList.

(** [getSolidCollisions]. *)
Fixpoint getSolidCollisions (fuel : nat) (h : Heap) (owner : ref)
    : option (gmap string (list string)) :=
  match fuel with
  | O => None
  | S fuel' =>
      g ← group_of h owner;
      foldl (fun acc childEntity =>
               compiledList ← acc;
               entityList ← (if delegates h owner childEntity
                             then getSolidCollisions fuel' h childEntity
                             else Some (own_getSolidCollisions childEntity));
               Some (compile_collisions compiledList entityList))
        (Some ∅) (solidEntities g)
  end.

(** [getShapes] and, with the members' [getPrevShapes] for [own_getShapes],
    [getPrevShapes]: the two bodies differ in that name only.  The array a
    group answers is truthy even when empty. *)
Fixpoint getShapes (fuel : nat) (h : Heap) (owner : ref)
    (collisionType : option string) : option (list Shape) :=
  match fuel with
  | O => None
  | S fuel' =>
      g ← group_of h owner;
      foldl (fun acc childEntity =>
               shapes ← acc;
               if delegates h owner childEntity then
                 newShapes ← getShapes fuel' h childEntity collisionType;
                 Some (shapes ++ newShapes)
               else
                 match own_getShapes childEntity collisionType with
                 | Some newShapes => Some (shapes ++ newShapes)
                 | None => Some shapes
                 end)
        (Some []) (solidEntities g)
  end.

End Members.

Definition with_saved (e : Entity) (dx dy ox oy : Qc) : Entity :=
  {| x := x e; y := y e;
     previousX := previousX e; previousY := previousY e;
     saveDX := dx; saveDY := dy; saveOX := ox; saveOY := oy;
     collisionTypes := collisionTypes e;
     solidCollisions := solidCollisions e;
     immobile := immobile e;
     own_getAABB := own_getAABB e;
     own_getPreviousAABB := own_getPreviousAABB e;
     collisionGroup := collisionGroup e |}.

Definition with_previous (e : Entity) (px py : Qc) : Entity :=
  {| x := x e; y := y e;
     previousX := px; previousY := py;
     saveDX := saveDX e; saveDY := saveDY e;
     saveOX := saveOX e; saveOY := saveOY e;
     collisionTypes := collisionTypes e;
     solidCollisions := solidCollisions e;
     immobile := immobile e;
     own_getAABB := own_getAABB e;
     own_getPreviousAABB := own_getPreviousAABB e;
     collisionGroup := collisionGroup e |}.

(** Lines 330 to 333: the member's displacement since the last frame and
    the offset of the owner's previous position from the member's.  The
    four assignments read [x], [y], [previousX] and [previousY] only, which
    none of them writes. *)
Definition save_member (h : Heap) (owner childEntity : ref) : option Heap :=
  c ← ents h !! childEntity;
  o ← ents h !! owner;
  Some (set_ents h
          (<[childEntity :=
               with_saved c (x c - previousX c) (y c - previousY c)
                            (previousX o - previousX c)
                            (previousY o - previousY c)]> (ents h))).

(** The handler of ['relocate-entity']: the owner's previous position
    becomes its position, and the cached box is rebuilt.  ([position] and
    [previousPosition] are the vectors bound to [x], [y] and to
    [previousX], [previousY] by the constructor; [z] is left out.) *)
Definition relocate_entity (h : Heap) (owner : ref) : option Heap :=
  h1 ← update_entity h owner (fun o => with_previous o (x o) (y o));
  updateAABB h1 owner.

Section Preparation.

(** [childEntity.prepareCollision(x, y)] of a member that is addressed
    directly. *)
Variable entity_prepareCollision : Heap -> ref -> Qc -> Qc -> Heap.

(** The body of the loop of [prepareCollision]; [nested] prepares a nested
    group. *)
Definition prepare_member
    (nested : Heap -> ref -> Qc -> Qc -> option Heap)
    (owner : ref) (px py : Qc) (acc : option Heap) (childEntity : ref)
    : option Heap :=
  h1 ← acc;
  h2 ← save_member h1 owner childEntity;
  c ← ents h2 !! childEntity;
  if delegates h2 owner childEntity
  then nested h2 childEntity (px - saveOX c) (py - saveOY c)
  else Some (entity_prepareCollision h2 childEntity
               (px - saveOX c) (py - saveOY c)).

(** [prepareCollision].  As in [relocateEntity], the member list is the
    one found when the loop starts. *)
Fixpoint prepareCollision (fuel : nat) (h : Heap) (owner : ref) (px py : Qc)
    : option Heap :=
  match fuel with
  | O => None
  | S fuel' =>
      g ← group_of h owner;
      foldl (prepare_member (prepareCollision fuel') owner px py)
        (Some h) (solidEntities g)
  end.

End Preparation.

End CollisionGroupMethods.

(** ** Notions used to state the properties of the other methods *)

Module CollisionGroupMethodsSpec.

Import CollisionGroup.

(** The entities a query on the group of [owner] ends up asking, in the
    order it asks them and as often as it asks them: the members, with a
    member that delegates replaced by the leaves of its group. *)
Fixpoint leaves (h : Heap) (n : nat) (owner : ref) : list ref :=
  match n with
  | O => []
  | S n' =>
      match group_of h owner with
      | None => []
      | Some g =>
          concat ((fun child =>
                     if delegates h owner child then leaves h n' child
                     else [child]) <$> solidEntities g)
      end
  end.

(** The number of [types] for which [removeCollisionEntity] takes an entry
    out: those with at least one collision response. *)
Fixpoint responding (e : Entity) (types : list string) : nat :=
  match types with
  | [] => 0%nat
  | t :: rest =>
      match solidCollisions e !! t with
      | Some (_ :: _) => S (responding e rest)
      | _ => responding e rest
      end
  end.

(** How often an entity is listed. *)
Definition occurrences (entity : ref) (solid : list ref) : nat :=
  length (filter (fun r => r = entity) solid).

(** What [relocateEntity] makes of the entity at [r], found as [e], in a
    group none of whose members delegates, when a member's own
    [relocateEntity] puts it at the vector: the owner gets its new saved
    deltas, and a member is put at the vector less its saved offset and
    carried from there.  [o] is the owner as found. *)
Definition relocated (owner : ref) (o : Entity) (vector : Vector)
    (collisionData : CollisionData) (members : list ref) (r : ref)
    (e : Entity) : Entity :=
  let dx := if owner_collides owner (xEntries collisionData) then 0
            else saveDX o - (vec_x vector - previousX o) in
  let dy := if owner_collides owner (yEntries collisionData) then 0
            else saveDY o - (vec_y vector - previousY o) in
  let e1 := if decide (r = owner) then with_saved_delta e dx dy else e in
  if decide (r ∈ members)
  then CollisionGroupSpec.carried owner r
         (with_position e1 (vec_x vector - saveOX e) (vec_y vector - saveOY e))
         (with_saved_delta o dx dy)
  else e1.

End CollisionGroupMethodsSpec.

(** ** The state map

    [platypus.StateMap] extends [platypus.DataMap], of which its methods
    use [get], [set] and the [keys] array; these, the constructor of an
    empty map and [String.prototype.greenSplit] are taken as given.  A
    state is [true] or [false], and [get] answers [undefined] ([None]) for
    a key that holds nothing. *)

Module StateMap.

Definition value : Type := option bool.

Section Methods.

Variable DataMap : Type.
Variable DataMap_new : DataMap.
Variable DataMap_get : DataMap -> string -> value.
Variable DataMap_set : DataMap -> string -> value -> DataMap.
Variable DataMap_keys : DataMap -> list string.

(** [states.greenSplit(',')]. *)
Variable greenSplit : string -> list string.

(** The body of the loop of [updateFromString]: an empty entry is skipped,
    an entry that starts with ['!'] clears the state named by the rest of
    it, any other entry sets the state it names. *)
Definition update_entry (this : DataMap) (str : string) : DataMap :=
  match str with
  | EmptyString => this
  | String c rest =>
      if Ascii.eqb c "!"%char then DataMap_set this rest (Some false)
      else DataMap_set this str (Some true)
  end.

(** [updateFromString]: [while (i--)] takes the entries from the last to
    the first. *)
Definition updateFromString (this : DataMap) (states : string) : DataMap :=
  foldl update_entry this (reverse (greenSplit states)).

(** The constructor called with one string. *)
Definition StateMap (first : string) : DataMap :=
  updateFromString DataMap_new first.

(** The body of the loop of [update], on the map and [changed]. *)
Definition update_key (newState : DataMap) (acc : DataMap * bool)
    (state : string) : DataMap * bool :=
  let value := DataMap_get newState state in
  if decide (DataMap_get acc.1 state <> value)
  then (DataMap_set acc.1 state value, true)
  else acc.

(** [update]: the map afterwards, and the value returned. *)
Definition update (this newState : DataMap) : DataMap * bool :=
  foldl (update_key newState) (this, false) (reverse (DataMap_keys newState)).

(** The loop of [includes] over the keys still to visit. *)
Fixpoint includes_from (this otherState : DataMap) (keys : list string)
    : bool :=
  match keys with
  | [] => true
  | state :: rest =>
      if decide (DataMap_get this state <> DataMap_get otherState state)
      then false
      else includes_from this otherState rest
  end.

Definition includes (this otherState : DataMap) : bool :=
  includes_from this otherState (reverse (DataMap_keys otherState)).

(** The loop of [intersects]. *)
Fixpoint intersects_from (this otherState : DataMap) (keys : list string)
    : bool :=
  match keys with
  | [] => false
  | state :: rest =>
      if decide (DataMap_get this state = DataMap_get otherState state)
      then true
      else intersects_from this otherState rest
  end.

Definition intersects (this otherState : DataMap) : bool :=
  intersects_from this otherState (reverse (DataMap_keys otherState)).

End Methods.

End StateMap.

(** ** Notions used to state the properties of the state map *)

Module StateMapSpec.

(** What an entry of the list says of the state [key]: nothing, or the
    value it gives it. *)
Definition says (key : string) (str : string) : option bool :=
  match str with
  | EmptyString => None
  | String c rest =>
      if Ascii.eqb c "!"%char
      then (if String.eqb rest key then Some false else None)
      else (if String.eqb str key then Some true else None)
  end.

(** The values the entries give to [key], from the first entry to the
    last. *)
Definition stated (key : string) (arr : list string) : list bool :=
  omap (says key) arr.

End StateMapSpec.

(** ** A data map to try the state map on

    A map with the behaviour the state map relies on: [set] stores the
    value, and lists the key if it was not listed. *)

Module DataMapScene.

Record DataMap : Type := mkDataMap {
  keys : list string;
  map : string -> StateMap.value
}.

Definition new : DataMap := {| keys := []; map := fun _ => None |}.

Definition get (m : DataMap) (key : string) : StateMap.value := map m key.

Definition set (m : DataMap) (key : string) (v : StateMap.value) : DataMap :=
  {| keys := if bool_decide (key ∈ keys m) then keys m else keys m ++ [key];
     map := fun k => if String.eqb k key then v else map m k |}.

(** Splitting at the commas. *)
Fixpoint greenSplit (states : string) : list string :=
  match states with
  | EmptyString => [EmptyString]
  | String c rest =>
      if Ascii.eqb c ","%char
      then EmptyString :: greenSplit rest
      else match greenSplit rest with
           | word :: words => String c word :: words
           | [] => [String c EmptyString]
           end
  end.

Definition updateFromString := StateMap.updateFromString DataMap set greenSplit.
Definition update := StateMap.update DataMap get set keys.
Definition includes := StateMap.includes DataMap get keys.
Definition intersects := StateMap.intersects DataMap get keys.

(** [new StateMap("blue,red,!green")] and three more. *)
Definition colours : DataMap := updateFromString new "blue,red,!green".
Definition blue_red : DataMap := updateFromString new "blue,red".
Definition blue_only : DataMap := updateFromString new "blue".
Definition not_blue : DataMap := updateFromString new "!blue".

End DataMapScene.

(** ** More of the two scenes *)

Module BusScene.

Import JSNumber HandlerLogic HandlerLogicBus SchedulerScene.

(** Entities without a position, of which the odd ones have a listener
    for ['handle-logic']. *)
Definition unplaced (w : unit) (e : nat) : option double := None.

Definition has_listener (e : nat) : bool := Nat.odd e.

Definition trigger_odd (w : unit) (e : nat) (m : Message)
    : unit * bool * list (Delivery nat) :=
  (w, has_listener e, []).

(** What a scheduler is sent before the ticks: an entity, a viewport and
    a tick of [40]. *)
Definition started : list (Incoming nat) :=
  [ChildEntityAdded 1%nat; CameraUpdated (viewport four_hundred); Tick forty].

Definition deliver_all :=
  HandlerLogicBus.deliver_all nat unit getMessageIds entity_x entity_y
    trigger_handle_logic trigger_check_collision_group trigger_time_elapsed.

(** A listener that spawns: the ['handle-logic'] listener of entity [0]
    adds entity [9] to the owner, which sends ['child-entity-added'] to
    the scheduler before the dispatch returns. *)
Definition trigger_spawning (w : unit) (e : nat) (m : Message)
    : unit * bool * list (Delivery nat) :=
  (w, true,
   match e with
   | O => [DeliverChildEntityAdded 9%nat]
   | S _ => []
   end).

Definition spawning_pass :=
  HandlerLogic.logic_pass nat unit getMessageIds unplaced unplaced
    trigger_spawning.

Definition spawning_tick :=
  HandlerLogic.tick nat unit getMessageIds unplaced unplaced
    trigger_spawning trigger_check_collision_group trigger_time_elapsed.

End BusScene.

Module MembersScene.

Import CollisionGroup CollisionGroupMethods CollisionScene.

(** What the three entities of the stacked scene answer: a shape each
    (the passenger none), their collision types and their responses. *)
Definition own_getShapes (r : ref) (collisionType : option string)
    : option (list nat) :=
  match r with
  | 2%nat => None
  | _ => Some [r]
  end.

Definition own_getCollisionTypes (r : ref) : list string :=
  match r with
  | 0%nat => ["solid"]
  | _ => ["solid"; "hero"]
  end.

Definition own_getSolidCollisions (r : ref) : gmap string (list string) :=
  match r with
  | 0%nat => {[ "solid" := ["tiles"] ]}
  | _ => {[ "solid" := ["tiles"]; "hero" := ["tiles"; "solid"] ]}
  end.

(** A member's own [prepareCollision] that changes no entity. *)
Definition keep (h : Heap) (r : ref) (px py : Qc) : Heap := h.

Definition riding_group : Group :=
  {| solidEntities := [0%nat; 1%nat]; aabb := 0%nat; prevAABB := 1%nat |}.

Definition platform_group : Group :=
  {| solidEntities := [0%nat; 1%nat]; aabb := 0%nat; prevAABB := 1%nat |}.

Definition crate_group : Group :=
  {| solidEntities := [1%nat; 2%nat]; aabb := 2%nat; prevAABB := 3%nat |}.

End MembersScene.

(** * Properties *)

(** ** Numbers *)

Section NumberFacts.

Import JSNumber JSNumberSpec.

Local Open Scope Z_scope.

Lemma pow2_pos (s : Z) : 0 <= s -> 0 < 2 ^ s.
Proof. intros. by apply Z.pow_pos_nonneg. Qed.

Lemma pow2_succ (s : Z) : 0 <= s -> 2 ^ (s + 1) = 2 * 2 ^ s.
Proof. intros. rewrite Z.add_1_r. by apply Z.pow_succ_r. Qed.

(** *** Ordinals and magnitudes *)

Lemma shift_of_nonneg (k : Z) : 0 <= shift_of k.
Proof. unfold shift_of. lia. Qed.

Lemma mantissa_bounds (k : Z) :
  0 <= k ->
  0 <= k - shift_of k * P < 2 * P /\
  (1 <= shift_of k -> P <= k - shift_of k * P).
Proof.
  intros Hk. unfold shift_of.
  pose proof (Z.div_mod k P ltac:(unfold P; lia)) as Hdm.
  pose proof (Z.mod_pos_bound k P ltac:(unfold P; lia)) as Hm.
  assert (0 <= k / P) by (apply Z.div_pos; unfold P; lia).
  unfold P in *. lia.
Qed.

Lemma shift_of_low (k : Z) : 0 <= k < 2 * P -> shift_of k = 0.
Proof.
  intros Hk. unfold shift_of.
  assert (k / P < 2) by (apply Z.div_lt_upper_bound; unfold P in *; lia).
  lia.
Qed.

Lemma magnitude_low (k : Z) : 0 <= k < 2 * P -> magnitude k = k.
Proof.
  intros Hk. unfold magnitude. rewrite shift_of_low by exact Hk.
  change (2 ^ 0) with 1. lia.
Qed.

Lemma magnitude_bounds (k : Z) :
  0 <= k ->
  0 <= magnitude k < 2 * P * 2 ^ shift_of k /\
  (1 <= shift_of k -> P * 2 ^ shift_of k <= magnitude k).
Proof.
  intros Hk. destruct (mantissa_bounds k Hk) as [Hm Hn].
  pose proof (pow2_pos (shift_of k) (shift_of_nonneg k)) as Hp.
  unfold magnitude. split; [split|]; [nia|nia|]. intros Hs. specialize (Hn Hs). nia.
Qed.

(** From one ordinal to the next the magnitude grows by one step of the
    binade. *)
Lemma magnitude_succ (k : Z) :
  0 <= k -> magnitude (k + 1) = magnitude k + 2 ^ shift_of k.
Proof.
  intros Hk. unfold magnitude.
  pose proof (Z.div_mod k P ltac:(unfold P; lia)) as Hdm.
  pose proof (Z.mod_pos_bound k P ltac:(unfold P; lia)) as Hm.
  assert (0 <= k / P) as Hq by (apply Z.div_pos; unfold P; lia).
  destruct (decide (k mod P = P - 1)) as [Hlast|Hnot].
  - assert ((k + 1) / P = k / P + 1) as Hq'.
    { symmetry. apply (Z.div_unique (k + 1) P (k / P + 1) 0); unfold P in *; lia. }
    unfold shift_of. rewrite Hq'.
    destruct (decide (k / P = 0)) as [H0|H0].
    + rewrite H0. change (Z.max 0 (0 + 1 - 1)) with 0.
      change (Z.max 0 (0 - 1)) with 0. change (2 ^ 0) with 1. lia.
    + replace (Z.max 0 (k / P + 1 - 1)) with (k / P - 1 + 1) by lia.
      replace (Z.max 0 (k / P - 1)) with (k / P - 1) by lia.
      rewrite pow2_succ by lia.
      pose proof (pow2_pos (k / P - 1) ltac:(lia)). unfold P in *. nia.
  - assert ((k + 1) / P = k / P) as Hq'.
    { symmetry. apply (Z.div_unique (k + 1) P (k / P) (k mod P + 1));
        unfold P in *; lia. }
    unfold shift_of. rewrite Hq'. lia.
Qed.

Lemma shift_of_mono (k k' : Z) : k <= k' -> shift_of k <= shift_of k'.
Proof.
  intros H. unfold shift_of.
  pose proof (Z.div_le_mono k k' P ltac:(unfold P; lia) H). lia.
Qed.

Lemma magnitude_mono (k k' : Z) :
  0 <= k -> k <= k' -> magnitude k <= magnitude k'.
Proof.
  intros Hk Hle.
  replace k' with (k + (k' - k)) by lia.
  assert (0 <= k' - k) as Hd by lia. revert Hd.
  generalize (k' - k). intros d Hd. revert d Hd.
  apply (natlike_ind (fun d => magnitude k <= magnitude (k + d))).
  - replace (k + 0) with k by lia. lia.
  - intros d Hd IH. replace (k + Z.succ d) with (k + d + 1) by lia.
    rewrite magnitude_succ by lia.
    pose proof (pow2_pos (shift_of (k + d)) (shift_of_nonneg _)). lia.
Qed.

Lemma magnitude_lt (k k' : Z) :
  0 <= k -> k < k' -> magnitude k < magnitude k'.
Proof.
  intros Hk Hlt.
  pose proof (magnitude_mono (k + 1) k' ltac:(lia) ltac:(lia)) as H.
  rewrite magnitude_succ in H by lia.
  pose proof (pow2_pos (shift_of k) (shift_of_nonneg _)). lia.
Qed.

Lemma magnitude_lt_inv (k k' : Z) :
  0 <= k -> 0 <= k' -> magnitude k < magnitude k' -> k < k'.
Proof.
  intros Hk Hk' H. destruct (decide (k < k')) as [|Hn]; [done|].
  pose proof (magnitude_mono k' k Hk' ltac:(lia)). lia.
Qed.

Lemma magnitude_inj (k k' : Z) :
  0 <= k -> 0 <= k' -> magnitude k = magnitude k' -> k = k'.
Proof.
  intros Hk Hk' H.
  destruct (Z.lt_trichotomy k k') as [Hlt|[Heq|Hgt]]; [|done|].
  - pose proof (magnitude_lt k k' Hk Hlt). lia.
  - pose proof (magnitude_lt k' k Hk' Hgt). lia.
Qed.

Lemma magnitude_0 : magnitude 0 = 0.
Proof. reflexivity. Qed.

Lemma magnitude_pos (k : Z) : 0 < k -> 0 < magnitude k.
Proof.
  intros H. pose proof (magnitude_lt 0 k ltac:(lia) H).
  rewrite magnitude_0 in *. lia.
Qed.


(** *** Rounding *)

Lemma rne_bounds (n d : Z) : 0 < d -> n / d <= rne n d <= n / d + 1.
Proof.
  intros Hd. unfold rne.
  destruct (2 * (n mod d) ?= d); [destruct (Z.even _)|..]; lia.
Qed.

Lemma rne_exact (m d : Z) : 0 < d -> rne (m * d) d = m.
Proof.
  intros Hd. unfold rne. rewrite Z.mod_mul, Z.div_mul by lia.
  replace (2 * 0) with 0 by lia.
  destruct (Z.compare_spec 0 d); lia.
Qed.

Lemma div_cross_mono (n1 d1 n2 d2 : Z) :
  0 < d1 -> 0 < d2 -> n1 * d2 <= n2 * d1 -> n1 / d1 <= n2 / d2.
Proof.
  intros H1 H2 H. apply Z.div_le_lower_bound; [exact H2|].
  pose proof (Z.mul_div_le n1 d1 H1). nia.
Qed.

Lemma rne_mono (n1 d1 n2 d2 : Z) :
  0 < d1 -> 0 < d2 -> n1 * d2 <= n2 * d1 -> rne n1 d1 <= rne n2 d2.
Proof.
  intros H1 H2 H.
  pose proof (div_cross_mono n1 d1 n2 d2 H1 H2 H) as Hf.
  pose proof (rne_bounds n1 d1 H1) as B1.
  pose proof (rne_bounds n2 d2 H2) as B2.
  destruct (decide (n1 / d1 < n2 / d2)) as [Hlt|Hge]; [lia|].
  assert (n1 / d1 = n2 / d2) as Hfe by lia.
  pose proof (Z.div_mod n1 d1 ltac:(lia)) as E1.
  pose proof (Z.div_mod n2 d2 ltac:(lia)) as E2.
  pose proof (Z.mod_pos_bound n1 d1 H1) as M1.
  pose proof (Z.mod_pos_bound n2 d2 H2) as M2.
  assert (n1 mod d1 * d2 <= n2 mod d2 * d1) as Hr by nia.
  unfold rne. rewrite Hfe.
  destruct (Z.compare_spec (2 * (n1 mod d1)) d1) as [Ha|Ha|Ha];
    destruct (Z.compare_spec (2 * (n2 mod d2)) d2) as [Hb|Hb|Hb];
    try destruct (Z.even (n2 / d2)); try lia; nia.
Qed.

Lemma nearest_nonneg (n d : Z) : 0 <= n -> 0 < d -> 0 <= nearest n d.
Proof.
  intros Hn Hd. unfold nearest. cbv zeta.
  set (s := Z.max 0 (Z.log2 (n / d) - 52)).
  assert (0 <= s) by (unfold s; lia).
  pose proof (pow2_pos s ltac:(lia)).
  pose proof (rne_bounds n (d * 2 ^ s) ltac:(nia)).
  assert (0 <= n / (d * 2 ^ s)) by (apply Z.div_pos; nia).
  unfold P. nia.
Qed.

(** The fraction kept by [nearest] is below [2^53], and at least [2^52]
    beyond the first binade. *)
Lemma nearest_fraction (n d : Z) :
  0 <= n -> 0 < d ->
  let s := Z.max 0 (Z.log2 (n / d) - 52) in
  n / (d * 2 ^ s) < 2 * P /\ (1 <= s -> P <= n / (d * 2 ^ s)).
Proof.
  intros Hn Hd s.
  assert (0 <= s) as Hs by (unfold s; lia).
  pose proof (pow2_pos s Hs) as Hp.
  assert (0 <= n / d) as Hq by (apply Z.div_pos; lia).
  rewrite <- Z.div_div by lia.
  split.
  - apply Z.div_lt_upper_bound; [lia|].
    destruct (decide (n / d = 0)) as [H0|H0]; [rewrite H0; unfold P; nia|].
    pose proof (Z.log2_spec (n / d) ltac:(lia)) as [_ Hup].
    assert (Z.log2 (n / d) + 1 <= s + 53) as Hle by (unfold s; lia).
    pose proof (Z.pow_le_mono_r 2 _ _ ltac:(lia) Hle) as Hpow.
    replace (s + 53) with (53 + s) in Hpow by lia.
    rewrite (Z.pow_add_r 2 53 s) in Hpow by lia.
    change (2 ^ 53) with (2 * P) in Hpow. lia.
  - intros H1.
    assert (s = Z.log2 (n / d) - 52) as Es by (unfold s in *; lia).
    assert (0 < n / d) as Hpos.
    { destruct (decide (n / d = 0)) as [H0|]; [|lia].
      rewrite H0 in Es. change (Z.log2 0) with 0 in Es. lia. }
    pose proof (Z.log2_spec (n / d) Hpos) as [Hlow _].
    replace (Z.log2 (n / d)) with (52 + s) in Hlow by lia.
    rewrite (Z.pow_add_r 2 52 s) in Hlow by lia.
    change (2 ^ 52) with P in Hlow.
    apply Z.div_le_lower_bound; lia.
Qed.

Lemma nearest_mono (n1 d1 n2 d2 : Z) :
  0 <= n1 -> 0 < d1 -> 0 < d2 -> n1 * d2 <= n2 * d1 ->
  nearest n1 d1 <= nearest n2 d2.
Proof.
  intros Hn1 H1 H2 H.
  assert (0 <= n2) as Hn2 by nia.
  pose proof (div_cross_mono n1 d1 n2 d2 H1 H2 H) as Hf.
  pose proof (Z.log2_le_mono _ _ Hf) as Hl.
  destruct (nearest_fraction n1 d1 Hn1 H1) as [U1 L1].
  destruct (nearest_fraction n2 d2 Hn2 H2) as [U2 L2].
  unfold nearest. cbv zeta in *.
  set (s1 := Z.max 0 (Z.log2 (n1 / d1) - 52)) in *.
  set (s2 := Z.max 0 (Z.log2 (n2 / d2) - 52)) in *.
  assert (0 <= s1) as Hs1 by (unfold s1; lia).
  assert (s1 <= s2) as Hs by (unfold s1, s2; lia).
  pose proof (pow2_pos s1 Hs1) as Hp1.
  pose proof (pow2_pos s2 ltac:(lia)) as Hp2.
  destruct (decide (s1 = s2)) as [E|Hne].
  - rewrite <- E.
    assert (rne n1 (d1 * 2 ^ s1) <= rne n2 (d2 * 2 ^ s1)); [|lia].
    apply rne_mono; nia.
  - pose proof (rne_bounds n1 (d1 * 2 ^ s1) ltac:(nia)) as B1.
    pose proof (rne_bounds n2 (d2 * 2 ^ s2) ltac:(nia)) as B2.
    specialize (L2 ltac:(lia)). unfold P in *. nia.
Qed.

(** An ordinal's magnitude rounds to the ordinal. *)
Lemma nearest_magnitude (k : Z) : 0 <= k -> nearest (magnitude k) 1 = k.
Proof.
  intros Hk. unfold nearest. cbv zeta. rewrite Z.div_1_r, Z.mul_1_l.
  destruct (mantissa_bounds k Hk) as [Hm Hn].
  destruct (magnitude_bounds k Hk) as [Hb Hl].
  pose proof (shift_of_nonneg k) as Hs.
  pose proof (pow2_pos (shift_of k) Hs) as Hp.
  assert (Z.max 0 (Z.log2 (magnitude k) - 52) = shift_of k) as ->.
  { destruct (decide (shift_of k = 0)) as [E0|E0].
    - rewrite E0 in *. change (2 ^ 0) with 1 in Hb.
      destruct (decide (magnitude k = 0)) as [Ez|Ez];
        [rewrite Ez; reflexivity|].
      assert (Z.log2 (magnitude k) < 53); [|lia].
      apply Z.log2_lt_pow2; [lia|]. change (2 ^ 53) with (2 * P). lia.
    - specialize (Hl ltac:(lia)).
      assert (Z.log2 (magnitude k) = 52 + shift_of k) as ->; [|lia].
      apply Z.log2_unique; [lia|].
      rewrite (Z.pow_add_r 2 52 (shift_of k)) by lia.
      replace (Z.succ (52 + shift_of k)) with (53 + shift_of k) by lia.
      rewrite (Z.pow_add_r 2 53 (shift_of k)) by lia.
      change (2 ^ 52) with P. change (2 ^ 53) with (2 * P). lia. }
  unfold magnitude. rewrite rne_exact by lia. lia.
Qed.

(** *** Numbers *)

Lemma U_pos : 0 < U.
Proof. by vm_compute. Qed.

Lemma U_split : U = 2 * P * 2 ^ 1021.
Proof. by vm_compute. Qed.

Lemma ord_range (x : double) : 0 <= ord x < INF.
Proof.
  destruct x as [s k H]. simpl. unfold in_range in H.
  apply andb_true_iff in H as [H1 H2].
  apply Z.leb_le in H1. apply Z.ltb_lt in H2. lia.
Qed.

Lemma double_eq (a b : double) :
  negative a = negative b -> ord a = ord b -> a = b.
Proof.
  destruct a as [s k H], b as [s' k' H']. simpl. intros -> ->.
  f_equal. apply proof_irrel.
Qed.

Lemma round_cases (neg : bool) (n d : Z) :
  (exists x, round neg n d = Fin x /\ negative x = neg /\
             ord x = nearest n d) \/
  (in_range (nearest n d) = false /\
   round neg n d = if neg then NegInf else PosInf).
Proof.
  unfold round. cbv zeta.
  destruct (Bool.bool_dec (in_range (nearest n d)) true) as [H|H].
  - left. eexists. by repeat split.
  - right. split; [by destruct (in_range _)|done].
Qed.

Lemma round_finite (neg : bool) (n d : Z) :
  0 <= nearest n d < INF ->
  exists x, round neg n d = Fin x /\ negative x = neg /\ ord x = nearest n d.
Proof.
  intros Hr. destruct (round_cases neg n d) as [H|[H _]]; [exact H|].
  unfold in_range in H. apply andb_false_iff in H as [H|H].
  - apply Z.leb_gt in H. lia.
  - apply Z.ltb_ge in H. lia.
Qed.

(** A finite number is the rounding of its own magnitude. *)
Lemma round_exact (x : double) :
  round (negative x) (magnitude (ord x)) 1 = Fin x.
Proof.
  pose proof (ord_range x) as Hr.
  destruct (round_finite (negative x) (magnitude (ord x)) 1)
    as (y & -> & Hs & Ho).
  - rewrite nearest_magnitude by lia. exact Hr.
  - f_equal. apply double_eq; [done|]. rewrite Ho.
    apply nearest_magnitude. lia.
Qed.

Lemma scaled_nonneg (x : double) : negative x = false -> 0 <= scaled x.
Proof.
  intros H. unfold scaled. rewrite H.
  pose proof (ord_range x).
  destruct (magnitude_bounds (ord x)); lia.
Qed.

Lemma scaled_pos_inv (x : double) :
  0 < scaled x -> negative x = false /\ 0 < ord x.
Proof.
  intros H. unfold scaled in H. pose proof (ord_range x) as Hr.
  destruct (magnitude_bounds (ord x) ltac:(lia)) as [Hb _].
  destruct (negative x); [lia|]. split; [done|].
  destruct (decide (ord x = 0)) as [E|]; [|lia].
  rewrite E, magnitude_0 in H. lia.
Qed.

Lemma scaled_lt_INF (x : double) : - magnitude INF < scaled x < magnitude INF.
Proof.
  pose proof (ord_range x) as Hr.
  pose proof (magnitude_lt (ord x) INF ltac:(lia) ltac:(lia)).
  destruct (magnitude_bounds (ord x) ltac:(lia)) as [Hb _].
  unfold scaled. destruct (negative x); lia.
Qed.

Lemma place_round (neg : bool) (n d : Z) :
  0 <= n -> 0 < d ->
  place (round neg n d) =
  Some (if neg then - magnitude (Z.min (nearest n d) INF)
        else magnitude (Z.min (nearest n d) INF)).
Proof.
  intros Hn Hd. pose proof (nearest_nonneg n d Hn Hd) as H0.
  destruct (round_cases neg n d) as [(x & -> & Hs & Ho)|[Hr ->]].
  - pose proof (ord_range x) as Hx. simpl. unfold scaled.
    rewrite Hs, <- Ho. by replace (Z.min (ord x) INF) with (ord x) by lia.
  - unfold in_range in Hr. apply andb_false_iff in Hr as [Hr|Hr];
      [apply Z.leb_gt in Hr; lia|]. apply Z.ltb_ge in Hr.
    replace (Z.min (nearest n d) INF) with INF by lia.
    by destruct neg.
Qed.

Lemma place_round_int (z : bool) (n : Z) :
  place (round (if n =? 0 then z else n <? 0) (Z.abs n) 1) =
  Some (landing n).
Proof.
  rewrite place_round by lia. unfold landing.
  destruct (Z.eqb_spec n 0) as [->|Hne].
  - change (Z.abs 0) with 0. change (nearest 0 1) with 0.
    change (Z.min 0 INF) with 0. rewrite magnitude_0. by destruct z.
  - destruct (Z.ltb_spec n 0).
    + by replace (Z.abs n) with (- n) by lia.
    + by replace (Z.abs n) with n by lia.
Qed.

Lemma landing_mono (n m : Z) : n <= m -> landing n <= landing m.
Proof.
  intros H. unfold landing.
  assert (forall a b, 0 <= a -> a <= b ->
            magnitude (Z.min (nearest a 1) INF) <=
            magnitude (Z.min (nearest b 1) INF)) as Hm.
  { intros a b Ha Hab.
    pose proof (nearest_nonneg a 1 Ha ltac:(lia)).
    pose proof (nearest_mono a 1 b 1 Ha ltac:(lia) ltac:(lia) ltac:(lia)).
    apply magnitude_mono; unfold INF, P in *; lia. }
  assert (forall a, 0 <= a -> 0 <= magnitude (Z.min (nearest a 1) INF)) as Hp.
  { intros a Ha. pose proof (nearest_nonneg a 1 Ha ltac:(lia)).
    apply magnitude_bounds. unfold INF, P. lia. }
  destruct (Z.ltb_spec n 0), (Z.ltb_spec m 0).
  - pose proof (Hm (- m) (- n) ltac:(lia) ltac:(lia)). lia.
  - pose proof (Hp (- n) ltac:(lia)). pose proof (Hp m ltac:(lia)). lia.
  - lia.
  - by apply Hm.
Qed.

Lemma landing_scaled (x : double) : landing (scaled x) = scaled x.
Proof.
  pose proof (ord_range x) as Hr.
  destruct (magnitude_bounds (ord x) ltac:(lia)) as [Hb _].
  unfold landing, scaled. destruct (negative x).
  - destruct (Z.ltb_spec (- magnitude (ord x)) 0).
    + rewrite Z.opp_involutive, nearest_magnitude by lia.
      by replace (Z.min (ord x) INF) with (ord x) by lia.
    + assert (magnitude (ord x) = 0) as E by lia. rewrite E.
      change (- 0) with 0. change (nearest 0 1) with 0.
      change (Z.min 0 INF) with 0. by rewrite magnitude_0.
  - destruct (Z.ltb_spec (magnitude (ord x)) 0); [lia|].
    rewrite nearest_magnitude by lia.
    by replace (Z.min (ord x) INF) with (ord x) by lia.
Qed.

Lemma place_add (x y : double) :
  place (add (Fin x) (Fin y)) = Some (landing (scaled x + scaled y)).
Proof. simpl. apply place_round_int. Qed.

Lemma scaled_opp (x : double) :
  scaled (Double (negb (negative x)) (ord x) (ord_in_range x)) = - scaled x.
Proof. unfold scaled. simpl. destruct (negative x); simpl; lia. Qed.

Lemma place_sub (x y : double) :
  place (sub (Fin x) (Fin y)) = Some (landing (scaled x - scaled y)).
Proof.
  unfold sub. cbn [opp]. rewrite place_add, scaled_opp.
  by replace (scaled x + - scaled y) with (scaled x - scaled y) by lia.
Qed.

(** *** Order *)

Lemma Le_trans (a b c : number) : (a <= b -> b <= c -> a <= c)%num.
Proof.
  unfold Le, leb. destruct (place a), (place b), (place c); try done.
  rewrite !Z.leb_le. lia.
Qed.

Lemma sub_le_self (a b : double) :
  0 <= scaled b -> (Fin a - Fin b <= Fin a)%num.
Proof.
  intros Hb. unfold Le, leb. rewrite place_sub. cbn [place].
  apply Z.leb_le. rewrite <- (landing_scaled a) at 2.
  apply landing_mono. lia.
Qed.

Lemma add_ge_self (a : number) (b : double) :
  is_Some (place a) -> 0 <= scaled b -> (a <= a + Fin b)%num.
Proof.
  intros [u Hu] Hb. unfold Le, leb. destruct a as [x| | |]; try done.
  rewrite place_add. cbn [place]. apply Z.leb_le.
  rewrite <- (landing_scaled x) at 1. apply landing_mono. lia.
Qed.

Lemma Le_is_Some (a b : number) :
  (a <= b)%num -> is_Some (place a) /\ is_Some (place b).
Proof.
  unfold Le, leb. destruct (place a), (place b); intros H; try done.
Qed.

Lemma Le_scaled (a b : double) : (Fin a <= Fin b)%num <-> scaled a <= scaled b.
Proof. unfold Le, leb. simpl. apply Z.leb_le. Qed.

Lemma Lt_scaled (a b : double) : (Fin a < Fin b)%num <-> scaled a < scaled b.
Proof. unfold Lt, ltb. simpl. apply Z.ltb_lt. Qed.

Lemma Lt_finite_r (a : number) (b : double) :
  (0 < a)%num -> (a < Fin b)%num -> exists x, a = Fin x /\ 0 < scaled x < scaled b.
Proof.
  intros H0 Hb. destruct a as [x| | |].
  - exists x. split; [done|]. apply Lt_scaled in H0, Hb.
    change (scaled zero) with 0 in H0. lia.
  - unfold Lt, ltb in Hb. simpl in Hb. apply Z.ltb_lt in Hb.
    pose proof (scaled_lt_INF b). lia.
  - unfold Lt, ltb in H0. simpl in H0. apply Z.ltb_lt in H0.
    change (scaled zero) with 0 in H0.
    pose proof (magnitude_pos INF ltac:(by vm_compute)). lia.
  - done.
Qed.

(** *** Division and the floor *)

Lemma magnitude_gap_below (ka kb : Z) :
  0 <= ka -> ka < kb ->
  magnitude kb <= 2 * P * (magnitude kb - magnitude ka).
Proof.
  intros Ha Hlt.
  pose proof (magnitude_mono ka (kb - 1) Ha ltac:(lia)) as Hm.
  pose proof (magnitude_succ (kb - 1) ltac:(lia)) as Hs.
  replace (kb - 1 + 1) with kb in Hs by lia.
  destruct (mantissa_bounds (kb - 1) ltac:(lia)) as [Hb _].
  pose proof (pow2_pos _ (shift_of_nonneg (kb - 1))) as Hp.
  assert (magnitude (kb - 1) <= (2 * P - 1) * 2 ^ shift_of (kb - 1)) as Hu.
  { unfold magnitude. apply Z.mul_le_mono_nonneg_r; lia. }
  set (T := 2 ^ shift_of (kb - 1)) in *.
  unfold P in *. nia.
Qed.

Lemma magnitude_below_one : magnitude (1023 * P - 1) = U - 2 ^ 1021.
Proof. by vm_compute. Qed.

(** A quotient of two finite numbers, the smaller over the larger, is
    below one also after rounding. *)
Lemma div_below_one (a b : double) :
  negative a = false -> scaled a < scaled b ->
  exists q, div (Fin a) (Fin b) = Fin q /\ negative q = false /\
            scaled q < U.
Proof.
  intros Ha Hlt. pose proof (scaled_nonneg a Ha) as Ha0.
  destruct (scaled_pos_inv b ltac:(lia)) as [Hb Hbo].
  pose proof (ord_range a) as Ra. pose proof (ord_range b) as Rb.
  assert (scaled a = magnitude (ord a)) as Ea by (unfold scaled; by rewrite Ha).
  assert (scaled b = magnitude (ord b)) as Eb by (unfold scaled; by rewrite Hb).
  cbn [div]. destruct (Z.eqb_spec (ord b) 0) as [|_]; [lia|].
  rewrite Ha, Hb. cbn [xorb].
  assert (ord a < ord b) as Hk.
  { apply magnitude_lt_inv; lia. }
  pose proof (magnitude_gap_below (ord a) (ord b) ltac:(lia) Hk) as Hgap.
  pose proof (pow2_pos 1021 ltac:(lia)) as HT.
  pose proof U_split as HU.
  assert (nearest (magnitude (ord a) * U) (magnitude (ord b)) <= 1023 * P - 1)
    as Hn.
  { rewrite <- (nearest_magnitude (1023 * P - 1)) by (unfold P; lia).
    apply nearest_mono; [nia|lia|lia|].
    rewrite magnitude_below_one, HU.
    set (T := 2 ^ 1021) in *. unfold P in *. nia. }
  pose proof (nearest_nonneg (magnitude (ord a) * U) (magnitude (ord b))
                ltac:(pose proof U_pos; nia) ltac:(lia)) as Hn0.
  destruct (round_finite false (magnitude (ord a) * U) (magnitude (ord b)))
    as (q & -> & Hs & Ho); [unfold INF, P in *; lia|].
  exists q. split; [done|]. split; [done|].
  unfold scaled. rewrite Hs, Ho.
  pose proof (magnitude_mono _ _ Hn0 Hn) as Hm.
  rewrite magnitude_below_one in Hm. lia.
Qed.

Lemma round_zero : round false 0 1 = Fin zero.
Proof. vm_compute. reflexivity. Qed.

Lemma floor_below_one (q : double) :
  negative q = false -> scaled q < U -> floor (Fin q) = Fin zero.
Proof.
  intros Hs Hq. pose proof (scaled_nonneg q Hs).
  cbn [floor]. cbv zeta. rewrite Z.div_small by lia.
  change (0 =? 0) with true. cbv iota. rewrite Hs.
  change (Z.abs 0 * U) with (0 * U). rewrite Z.mul_0_l. apply round_zero.
Qed.

Lemma div_by_zero (a : double) : 0 < scaled a -> div (Fin a) (Fin zero) = PosInf.
Proof.
  intros Ha. destruct (scaled_pos_inv a Ha) as [Hs Ho].
  cbn [div]. change (ord zero =? 0) with true. cbv iota.
  destruct (Z.eqb_spec (ord a) 0); [lia|]. by rewrite Hs.
Qed.

(** Adding to zero gives back the number, the zero without its sign. *)
Lemma place_add_zero (x : double) :
  place (add (Fin zero) (Fin x)) = Some (scaled x).
Proof.
  rewrite place_add. change (scaled zero) with 0. rewrite Z.add_0_l.
  by rewrite landing_scaled.
Qed.

Lemma add_zero_l (x : double) :
  exists a, add (Fin zero) (Fin x) = Fin a /\ scaled a = scaled x /\
            (scaled x = 0 -> negative a = false).
Proof.
  cbn [add]. change (scaled zero) with 0. rewrite Z.add_0_l.
  change (negative zero) with false. cbn [andb].
  pose proof (ord_range x) as Rx.
  destruct (magnitude_bounds (ord x) ltac:(lia)) as [Hb _].
  assert (Z.abs (scaled x) = magnitude (ord x)) as ->.
  { unfold scaled. destruct (negative x); lia. }
  destruct (round_finite (if scaled x =? 0 then false else scaled x <? 0)
              (magnitude (ord x)) 1) as (a & -> & Hs & Ho).
  { rewrite nearest_magnitude by lia. exact Rx. }
  rewrite nearest_magnitude in Ho by lia.
  exists a. split; [done|]. split.
  - unfold scaled in *. rewrite Hs, Ho.
    destruct (negative x).
    + destruct (Z.eqb_spec (- magnitude (ord x)) 0) as [E|E]; [lia|].
      by destruct (Z.ltb_spec (- magnitude (ord x)) 0); [|lia].
    + destruct (Z.eqb_spec (magnitude (ord x)) 0) as [E|E]; [done|].
      by destruct (Z.ltb_spec (magnitude (ord x)) 0); [lia|].
  - intros E. rewrite Hs. by destruct (Z.eqb_spec (scaled x) 0).
Qed.

(** *** A quarter *)

Lemma magnitude_four : magnitude (ord four) = 4 * U.
Proof. by vm_compute. Qed.

Lemma quarter_finite (w : double) :
  exists d, div (Fin w) (Fin four) = Fin d /\
            negative d = negative w /\ ord d <= ord w.
Proof.
  pose proof (ord_range w) as Rw.
  destruct (magnitude_bounds (ord w) ltac:(lia)) as [Hb _].
  pose proof U_pos as HU.
  cbn [div]. change (ord four =? 0) with false. cbv iota.
  change (negative four) with false. rewrite xorb_false_r.
  rewrite magnitude_four.
  assert (nearest (magnitude (ord w) * U) (4 * U) <= ord w) as Hn.
  { pose proof (nearest_mono (magnitude (ord w) * U) (4 * U)
                  (magnitude (ord w)) 1 ltac:(nia) ltac:(lia) ltac:(lia)
                  ltac:(nia)) as H.
    by rewrite nearest_magnitude in H by lia. }
  pose proof (nearest_nonneg (magnitude (ord w) * U) (4 * U)
                ltac:(nia) ltac:(lia)) as Hn0.
  destruct (round_finite (negative w) (magnitude (ord w) * U) (4 * U))
    as (d & -> & Hs & Ho); [lia|].
  exists d. split; [done|]. split; [done|]. by rewrite Ho.
Qed.

Lemma quarter_nonneg (w d : double) :
  0 <= scaled w -> div (Fin w) (Fin four) = Fin d -> 0 <= scaled d.
Proof.
  intros Hw Hd. destruct (quarter_finite w) as (d' & Hd' & Hs & Ho).
  rewrite Hd in Hd'. injection Hd' as <-.
  pose proof (ord_range w) as Rw. pose proof (ord_range d) as Rd.
  destruct (magnitude_bounds (ord d) ltac:(lia)) as [Hbd _].
  unfold scaled in *. rewrite Hs. destruct (negative w); [|lia].
  assert (magnitude (ord w) = 0) as E.
  { destruct (magnitude_bounds (ord w) ltac:(lia)) as [Hb _]. lia. }
  assert (ord w = 0) as E0.
  { apply magnitude_inj; [lia|lia|]. by rewrite magnitude_0. }
  assert (ord d = 0) as -> by lia. rewrite magnitude_0. lia.
Qed.

(** *** The loop bound *)

Lemma iterations_whole (x : double) (z : Z) :
  scaled x = z * U -> iterations (Fin x) = Z.to_nat z.
Proof.
  intros E. cbn [iterations]. rewrite E. f_equal.
  pose proof U_pos.
  replace (z * U + U - 1) with (U - 1 + z * U) by lia.
  rewrite Z.div_add by lia. rewrite Z.div_small by lia. lia.
Qed.

Lemma whole_inv (a : number) (z : Z) :
  whole a = Some z -> exists x, a = Fin x /\ scaled x = z * U.
Proof.
  destruct a as [x| | |]; try done. cbn [whole].
  destruct (Z.eqb_spec (scaled x mod U) 0) as [E|]; [|done].
  intros [= <-]. exists x. split; [done|].
  pose proof (Z.div_mod (scaled x) U ltac:(pose proof U_pos; lia)). lia.
Qed.

Lemma iterations_le (x : double) (z : Z) :
  scaled x <= z * U -> (iterations (Fin x) <= Z.to_nat z)%nat.
Proof.
  intros H. cbn [iterations]. pose proof U_pos.
  assert ((scaled x + U - 1) / U <= z); [|lia].
  assert ((U - 1 + z * U) / U = z) as E.
  { rewrite Z.div_add by lia. rewrite Z.div_small by lia. lia. }
  etransitivity; [|apply Z.eq_le_incl, E]. apply Z.div_le_mono; lia.
Qed.

Lemma min_cases (a b : number) :
  min a b = NaN \/
  (min a b = a /\ (a <= b)%num) \/
  (min a b = b /\ (b <= a)%num).
Proof.
  unfold min, Le, leb, ltb.
  destruct a as [x| | |], b as [y| | |]; try (by left); cbn [place is_negative];
    repeat (match goal with
            | |- context [?u <? ?v] => destruct (Z.ltb_spec u v)
            end);
    try destruct (negative x);
    try (right; left; split; [done|apply Z.leb_le; lia]);
    try (right; right; split; [done|apply Z.leb_le; lia]).
Qed.

(** The step count when both the cycle count and the cap are whole. *)
Lemma iterations_min_whole (c cap : number) (zc M : Z) :
  whole c = Some zc -> whole cap = Some M ->
  iterations (min c cap) = Z.to_nat (Z.min zc M).
Proof.
  intros Hc Hm.
  apply whole_inv in Hc as (x & -> & Ex).
  apply whole_inv in Hm as (y & -> & Ey).
  pose proof U_pos as HU.
  destruct (min_cases (Fin x) (Fin y)) as [H|[[-> H]|[-> H]]].
  - unfold min in H. cbn [place] in H.
    repeat destruct (ltb _ _) in H; try done; by destruct (is_negative _).
  - apply Le_scaled in H. rewrite (iterations_whole x zc Ex).
    f_equal. nia.
  - apply Le_scaled in H. rewrite (iterations_whole y M Ey).
    f_equal. nia.
Qed.

Lemma iterations_min_le (c cap : number) (M : Z) :
  whole cap = Some M -> (iterations (min c cap) <= Z.to_nat M)%nat.
Proof.
  intros Hm. apply whole_inv in Hm as (y & -> & Ey).
  destruct (min_cases c (Fin y)) as [->|[[-> H]|[-> H]]].
  - simpl. lia.
  - destruct c as [x| | |]; try (simpl; lia).
    apply Le_scaled in H. apply iterations_le. lia.
  - rewrite (iterations_whole y M Ey). lia.
Qed.

Lemma whole_ten : whole (Fin ten) = Some 10.
Proof. by vm_compute. Qed.

Lemma whole_zero : whole (Fin zero) = Some 0.
Proof. by vm_compute. Qed.

Lemma iterations_min_inf (cap : number) :
  iterations (min PosInf cap) = iterations cap.
Proof.
  destruct cap as [y| | |]; try done.
  unfold min, ltb. cbn [place].
  pose proof (scaled_lt_INF y).
  destruct (Z.ltb_spec (scaled y) (magnitude INF)); [done|lia].
Qed.

Lemma scaled_one : scaled one = U.
Proof. by vm_compute. Qed.

Lemma iterations_ge_one (x : double) :
  U <= scaled x -> (1 <= iterations (Fin x))%nat.
Proof.
  intros H. cbn [iterations]. pose proof U_pos.
  assert (1 <= (scaled x + U - 1) / U); [|lia].
  apply Z.div_le_lower_bound; lia.
Qed.

(** At least one cycle and a cap of at least one give at least one
    step. *)
Lemma iterations_min_ge_one (c cap : number) (M : Z) :
  (Fin one <= c)%num -> whole cap = Some M -> 1 <= M ->
  (1 <= iterations (min c cap))%nat.
Proof.
  intros Hc Hm HM. apply whole_inv in Hm as (y & -> & Ey).
  pose proof U_pos as HU.
  assert (1 <= iterations (Fin y))%nat as Hy.
  { apply iterations_ge_one. nia. }
  destruct c as [x| | |]; try done.
  - apply Le_scaled in Hc. rewrite scaled_one in Hc.
    destruct (min_cases (Fin x) (Fin y)) as [H|[[-> _]|[-> _]]];
      [|by apply iterations_ge_one|exact Hy].
    unfold min in H. cbn [place] in H.
    repeat destruct (ltb _ _) in H; try done; by destruct (is_negative _).
  - by rewrite iterations_min_inf.
Qed.

Lemma iterations_zero : iterations (Fin zero) = 0%nat.
Proof. apply (iterations_whole zero 0). by vm_compute. Qed.

Lemma iterations_min_zero (cap : number) :
  iterations (min (Fin zero) cap) = 0%nat.
Proof.
  destruct (min_cases (Fin zero) cap) as [->|[[-> _]|[-> H]]];
    [done|apply iterations_zero|].
  destruct cap as [y| | |]; try done.
  apply Le_scaled in H. change (scaled zero) with 0 in H.
  pose proof (iterations_le y 0 ltac:(lia)). simpl in *. lia.
Qed.

Lemma Fin_ne (a b : double) : scaled a <> scaled b -> Fin a <> Fin b.
Proof. intros H [= ->]. by apply H. Qed.

Lemma nonzero_dec (x : double) : nonzero x \/ ~ nonzero x.
Proof. unfold nonzero. destruct (truthy x); [by left|by right]. Qed.

Lemma Lt_not_leb (a b : number) : (a < b)%num -> leb b a = false.
Proof.
  unfold Lt, ltb, leb. destruct (place a), (place b); try done.
  intros H. apply Z.ltb_lt in H. apply Z.leb_gt. lia.
Qed.

End NumberFacts.

(** ** The logic scheduler *)

Section SchedulerFacts.

Import JSNumber JSNumberSpec HandlerLogic.

Context {Entity World : Type}.
Variable getMessageIds : Entity -> list string.
Variable entity_x entity_y : World -> Entity -> option double.
Variable trigger_handle_logic :
  World -> Entity -> Message -> World * bool * list (Delivery Entity).
Variable trigger_check_collision_group :
  World -> Message -> World * list (Delivery Entity).
Variable trigger_time_elapsed : World -> string -> World * list (Delivery Entity).

Local Abbreviation logic_pass :=
  (logic_pass Entity World getMessageIds entity_x entity_y
     trigger_handle_logic).
Local Abbreviation step :=
  (step Entity World getMessageIds entity_x entity_y trigger_handle_logic
     trigger_check_collision_group trigger_time_elapsed).
Local Abbreviation steps :=
  (steps Entity World getMessageIds entity_x entity_y trigger_handle_logic
     trigger_check_collision_group trigger_time_elapsed).
Local Abbreviation tick :=
  (tick Entity World getMessageIds entity_x entity_y trigger_handle_logic
     trigger_check_collision_group trigger_time_elapsed).
Local Abbreviation steps_run := (steps_run Entity).
Local Abbreviation dispatched_to := (dispatched_to Entity).
Local Abbreviation child_entity_added := (child_entity_added Entity getMessageIds).
Local Abbreviation receive := (receive Entity getMessageIds).
Local Abbreviation receive_all := (receive_all Entity getMessageIds).
Local Abbreviation registrations := (registrations Entity getMessageIds).
Local Abbreviation State := (State Entity).
Local Abbreviation settings := (settings Entity).
Local Abbreviation message_of := (message_of Entity).

Lemma steps_run_app (a b : list (Event Entity)) :
  steps_run (a ++ b) = (steps_run a + steps_run b)%nat.
Proof. unfold HandlerLogic.steps_run. by rewrite filter_app, length_app. Qed.

Lemma dispatched_to_app (a b : list (Event Entity)) :
  dispatched_to (a ++ b) = dispatched_to a ++ dispatched_to b.
Proof.
  induction a as [|ev a IH]; [done|].
  destruct ev; simpl; by rewrite IH.
Qed.

(** *** What a delivery changes *)

Lemma receive_settings (s : State) (d : Delivery Entity) :
  settings (receive s d) = settings s.
Proof.
  destruct d as [e|u]; simpl; [|done].
  unfold HandlerLogic.child_entity_added. by destruct (listens_handle_logic _).
Qed.

Lemma receive_all_settings (s : State) (ds : list (Delivery Entity)) :
  settings (receive_all s ds) = settings s.
Proof.
  revert s. induction ds as [|d ds IH]; intros s; [done|].
  change (receive_all s (d :: ds)) with (receive_all (receive s d) ds).
  by rewrite IH, receive_settings.
Qed.

Lemma receive_all_camera (s : State) (ds : list (Delivery Entity)) :
  camera Entity (receive_all s ds) = receive_camera Entity (camera Entity s) ds.
Proof.
  revert s. induction ds as [|d ds IH]; intros s; [done|].
  change (receive_all s (d :: ds)) with (receive_all (receive s d) ds).
  rewrite IH. destruct d as [e|u]; simpl; [|done].
  unfold HandlerLogic.child_entity_added. by destruct (listens_handle_logic _).
Qed.

Lemma receive_all_entities (s : State) (ds : list (Delivery Entity)) :
  entities Entity (receive_all s ds) = entities Entity s ++ registrations ds.
Proof.
  revert s. induction ds as [|d ds IH]; intros s.
  - simpl. by rewrite app_nil_r.
  - change (receive_all s (d :: ds)) with (receive_all (receive s d) ds).
    rewrite IH. destruct d as [e|u]; simpl; [|done].
    unfold HandlerLogic.child_entity_added.
    destruct (listens_handle_logic _); simpl; [|done].
    by rewrite <- app_assoc.
Qed.

Lemma settings_set_entities (s : State) (l : list Entity) :
  settings (set_entities Entity s l) = settings s.
Proof. done. Qed.

Lemma settings_message (s s' : State) :
  settings s' = settings s -> message_deltaT Entity s' = message_deltaT Entity s.
Proof. unfold HandlerLogic.settings. by intros [= _ _ _ ->]. Qed.

Lemma settings_inv (s : State) (a b c : double) (d : number) :
  settings s = (a, b, c, d) ->
  leftoverTime Entity s = b /\ message_deltaT Entity s = d /\
  stepLength Entity s = a /\ maximumStepsPerTick Entity s = c.
Proof. unfold HandlerLogic.settings. by intros [= -> -> -> ->]. Qed.

(** *** What a tick sends *)

(** A pass sends ['handle-logic'] only, with the [deltaT] of the tick,
    and writes none of the fields that only a tick writes. *)
Lemma logic_pass_out n w (s : State) out :
  exists sent,
    (logic_pass n w s out).2 = out ++ sent /\
    steps_run sent = 0%nat /\
    Forall (fun d => deltaT d.2 = message_deltaT Entity s) (dispatched_to sent) /\
    settings (logic_pass n w s out).1.2 = settings s.
Proof.
  revert w s out. induction n as [|x IH]; intros w s out; simpl.
  - exists []. by rewrite app_nil_r.
  - destruct (entities Entity s !! x) as [child|]; [|apply IH].
    destruct (in_window _ _ _); [|apply IH].
    destruct (trigger_handle_logic w child (message_of s))
      as [[w' listened] delivered].
    set (s2 := if listened then _ else _).
    assert (settings s2 = settings s) as Hs2.
    { unfold s2. destruct listened;
        [|rewrite settings_set_entities]; apply receive_all_settings. }
    destruct (IH w' s2 (out ++ [HandleLogic child (message_of s)]))
      as (sent & E & Hs & Hd & Hf).
    exists (HandleLogic child (message_of s) :: sent).
    split; [|split; [|split]].
    + rewrite E. by rewrite <- app_assoc.
    + exact Hs.
    + simpl. constructor; [done|].
      eapply Forall_impl; [exact Hd|]. intros d ->.
      by apply settings_message.
    + by rewrite Hf.
Qed.

Lemma step_out w (s : State) out :
  exists sent,
    (step (w, s, out)).2 = out ++ sent /\
    steps_run sent = 1%nat /\
    Forall (fun d => deltaT d.2 = message_deltaT Entity s) (dispatched_to sent) /\
    settings (step (w, s, out)).1.2 = settings s.
Proof.
  unfold HandlerLogic.step.
  destruct (logic_pass_out (length (entities Entity s)) w s out)
    as (sent & E & Hs & Hd & Hf).
  destruct (logic_pass (length (entities Entity s)) w s out)
    as [[w1 s1] out1].
  simpl in E, Hf. subst out1.
  destruct (trigger_time_elapsed w1 "Logic") as [w2 d2].
  destruct (trigger_check_collision_group w2 _) as [w3 d3] eqn:E3.
  destruct (trigger_time_elapsed w3 "Collision") as [w4 d4].
  eexists (sent ++ [TimeElapsed "Logic"; CheckCollisionGroup _;
                    TimeElapsed "Collision"]).
  split; [|split; [|split]].
  - simpl. by rewrite <- app_assoc.
  - rewrite steps_run_app, Hs. reflexivity.
  - rewrite dispatched_to_app. simpl. by rewrite app_nil_r.
  - simpl. by rewrite !receive_all_settings.
Qed.

Lemma steps_out n st :
  exists sent,
    (steps n st).2 = st.2 ++ sent /\
    steps_run sent = n /\
    Forall (fun d => deltaT d.2 = message_deltaT Entity st.1.2)
           (dispatched_to sent) /\
    settings (steps n st).1.2 = settings st.1.2.
Proof.
  revert st. induction n as [|k IH]; intros st; simpl.
  - exists []. by rewrite app_nil_r.
  - destruct st as [[w s] out].
    destruct (step_out w s out) as (s1 & E1 & H1 & D1 & F1).
    destruct (IH (step (w, s, out))) as (s2 & E2 & H2 & D2 & F2).
    exists (s1 ++ s2). split; [|split; [|split]].
    + rewrite E2, E1. simpl. by rewrite <- app_assoc.
    + rewrite steps_run_app, H1, H2. reflexivity.
    + rewrite dispatched_to_app. apply Forall_app. split; [exact D1|].
      eapply Forall_impl; [exact D2|]. intros d ->.
      by apply settings_message.
    + by rewrite F2, F1.
Qed.

(** What a tick sends out and leaves: as many steps as the clamped cycle
    count says, every dispatch with the adjusted delta, and the fields it
    has written before the loop. *)
Lemma tick_out (s : State) (dt : double) (w : World) :
  steps_run (tick s dt w).2 = iterations (clamped_cycles Entity s dt) /\
  Forall (fun d => deltaT d.2 =
                   ((Fin (leftoverTime Entity s) + Fin dt)
                    / cycles_of Entity s dt)%num)
         (dispatched_to (tick s dt w).2) /\
  settings (tick s dt w).1.1 =
    (stepLength Entity s, zero, maximumStepsPerTick Entity s,
     ((Fin (leftoverTime Entity s) + Fin dt) / cycles_of Entity s dt)%num).
Proof.
  unfold HandlerLogic.tick. cbv zeta.
  set (s0 := {| entities := _; leftoverTime := zero |}).
  set (n := iterations _).
  destruct (steps_out n (w, s0, [])) as (sent & E & Hs & Hd & Hf).
  destruct (steps n (w, s0, [])) as [[w' s'] out].
  simpl in E, Hf, Hd. subst out.
  destruct (trigger_time_elapsed w' _) as [w'' delivered].
  cbn [fst snd]. split; [|split].
  - rewrite steps_run_app, Hs. unfold HandlerLogic.steps_run. simpl. lia.
  - rewrite dispatched_to_app. simpl. by rewrite app_nil_r.
  - rewrite receive_all_settings. exact Hf.
Qed.

Lemma tick_fields (s : State) (dt : double) (w : World) :
  leftoverTime Entity (tick s dt w).1.1 = zero /\
  message_deltaT Entity (tick s dt w).1.1 =
    ((Fin (leftoverTime Entity s) + Fin dt) / cycles_of Entity s dt)%num /\
  stepLength Entity (tick s dt w).1.1 = stepLength Entity s /\
  maximumStepsPerTick Entity (tick s dt w).1.1 = maximumStepsPerTick Entity s.
Proof.
  destruct (tick_out s dt w) as (_ & _ & H).
  by apply settings_inv in H as (-> & -> & -> & ->).
Qed.

(** C3.  The number of steps a tick runs is the number of times the loop
    [for (i = 0; i < cycles; i++)] goes round for
    [cycles = min(floor((leftoverTime + deltaT) / stepLength),
    maximumStepsPerTick)], all computed as the source computes them: that
    minimum itself when it is not negative, none when it is negative,
    and the cap when the quotient overflows to [Infinity].  It is never
    more than [maximumStepsPerTick], whatever [deltaT] is. *)
Theorem tick_step_count (s : State) (dt : double) (w : World) :
  steps_run (tick s dt w).2 =
    iterations
      (min (floor ((Fin (leftoverTime Entity s) + Fin dt)
                   / Fin (stepLength Entity s))%num)
           (Fin (maximumStepsPerTick Entity s)))
  /\ (forall c M : Z,
        whole (floor ((Fin (leftoverTime Entity s) + Fin dt)
                      / Fin (stepLength Entity s))%num) = Some c ->
        whole (Fin (maximumStepsPerTick Entity s)) = Some M ->
        steps_run (tick s dt w).2 = Z.to_nat (Z.min c M) /\
        ((0 <= Z.min c M)%Z ->
         Z.of_nat (steps_run (tick s dt w).2) = Z.min c M))
  /\ (forall M : Z,
        floor ((Fin (leftoverTime Entity s) + Fin dt)
               / Fin (stepLength Entity s))%num = PosInf ->
        whole (Fin (maximumStepsPerTick Entity s)) = Some M ->
        steps_run (tick s dt w).2 = Z.to_nat M)
  /\ (forall M : Z,
        whole (Fin (maximumStepsPerTick Entity s)) = Some M ->
        (steps_run (tick s dt w).2 <= Z.to_nat M)%nat).
Proof.
  destruct (tick_out s dt w) as [Hrun _].
  split; [exact Hrun|]. split; [|split].
  - intros c M Hc HM. rewrite Hrun. unfold clamped_cycles, cycles_of.
    rewrite (iterations_min_whole _ _ c M Hc HM). split; [done|]. lia.
  - intros M Hc HM. rewrite Hrun. unfold clamped_cycles, cycles_of.
    rewrite Hc, iterations_min_inf.
    apply whole_inv in HM as (y & [= <-] & Ey). by apply iterations_whole.
  - intros M HM. rewrite Hrun. by apply iterations_min_le.
Qed.

(** What a pass sends does not depend on what was sent before it. *)
Lemma logic_pass_app n w (s : State) out :
  logic_pass n w s out =
  ((logic_pass n w s []).1, out ++ (logic_pass n w s []).2).
Proof.
  revert w s out. induction n as [|x IH]; intros w s out; simpl.
  - by rewrite app_nil_r.
  - destruct (entities Entity s !! x) as [child|]; [|apply IH].
    destruct (in_window _ _ _); [|apply IH].
    destruct (trigger_handle_logic w child (message_of s))
      as [[w' listened] delivered].
    rewrite (IH _ _ (out ++ _)), (IH _ _ [_]). simpl.
    by rewrite <- app_assoc.
Qed.

(** A pass starts with the entity registered last, if that one passes
    the camera test. *)
Lemma logic_pass_first w (s : State) (l : list Entity) (e : Entity) :
  entities Entity s = l ++ [e] ->
  in_window (camera Entity s) (entity_x w e) (entity_y w e) = true ->
  exists rest,
    dispatched_to (logic_pass (length (entities Entity s)) w s []).2 =
    (e, message_of s) :: rest.
Proof.
  intros El Hin. rewrite El, length_app. simpl.
  replace (length l + 1)%nat with (S (length l)) by lia. simpl.
  rewrite El, lookup_app_r, Nat.sub_diag by lia. simpl. rewrite Hin.
  destruct (trigger_handle_logic w e (message_of s))
    as [[w' listened] delivered].
  rewrite logic_pass_app. simpl. by eexists.
Qed.

Lemma steps_first n w (s : State) (l : list Entity) (e : Entity) :
  entities Entity s = l ++ [e] ->
  in_window (camera Entity s) (entity_x w e) (entity_y w e) = true ->
  exists rest,
    dispatched_to (steps (S n) (w, s, [])).2 = (e, message_of s) :: rest.
Proof.
  intros El Hin.
  change (steps (S n) (w, s, [])) with (steps n (step (w, s, []))).
  destruct (steps_out n (step (w, s, []))) as (sent & E & _).
  rewrite E, dispatched_to_app.
  destruct (logic_pass_first w s l e El Hin) as (rest & Hr).
  unfold HandlerLogic.step.
  destruct (logic_pass (length (entities Entity s)) w s [])
    as [[w1 s1] out1].
  destruct (trigger_time_elapsed w1 "Logic") as [w2 d2].
  destruct (trigger_check_collision_group w2 _) as [w3 d3].
  destruct (trigger_time_elapsed w3 "Collision") as [w4 d4].
  simpl in *. rewrite dispatched_to_app, Hr. simpl. by eexists.
Qed.

(** C4.  When at least one cycle is due, every ['handle-logic'] of the
    tick carries [deltaT = accumulated / cycles], with [cycles] the count
    before the clamp, and the shared message keeps that value; and such
    messages are sent: the first goes to the entity registered last, if
    it passes the camera test, with the camera as the tick found it. *)
Theorem tick_adjusted_delta (s : State) (dt : double) (w : World) :
  (Fin one <= cycles_of Entity s dt)%num ->
  Forall (fun d => deltaT d.2 =
                   ((Fin (leftoverTime Entity s) + Fin dt)
                    / cycles_of Entity s dt)%num)
         (dispatched_to (tick s dt w).2)
  /\ message_deltaT Entity (tick s dt w).1.1 =
     ((Fin (leftoverTime Entity s) + Fin dt) / cycles_of Entity s dt)%num
  /\ (forall (l : list Entity) (e : Entity) (M : Z),
        entities Entity s = l ++ [e] ->
        in_window (camera Entity s) (entity_x w e) (entity_y w e) = true ->
        whole (Fin (maximumStepsPerTick Entity s)) = Some M -> (1 <= M)%Z ->
        exists rest,
          dispatched_to (tick s dt w).2 =
          (e, {| deltaT := ((Fin (leftoverTime Entity s) + Fin dt)
                            / cycles_of Entity s dt)%num;
                 msg_camera := camera Entity s |}) :: rest).
Proof.
  intros Hc. destruct (tick_out s dt w) as (_ & Hd & _).
  split; [exact Hd|]. split; [apply tick_fields|].
  intros l e M El Hin HM HM1.
  pose proof (iterations_min_ge_one _ _ M Hc HM HM1) as Hn.
  unfold HandlerLogic.tick. cbv zeta.
  set (s0 := {| entities := _; leftoverTime := zero |}).
  fold (clamped_cycles Entity s dt) in Hn.
  destruct (iterations (clamped_cycles Entity s dt)) as [|n]; [lia|].
  destruct (steps_first n w s0 l e El Hin) as (rest & Hr).
  destruct (steps (S n) (w, s0, [])) as [[w' s'] out].
  destruct (trigger_time_elapsed w' _) as [w'' delivered].
  cbn [fst snd] in *. rewrite dispatched_to_app, Hr. simpl. by eexists.
Qed.

(** C5.  After a tick, [leftoverTime] is zero. *)
Theorem tick_resets_leftover (s : State) (dt : double) (w : World) :
  leftoverTime Entity (tick s dt w).1.1 = zero.
Proof. apply tick_fields. Qed.

(** C1.  What the code does when the accumulated time is positive and
    below the step length: no step runs, but the accumulated time is
    thrown away and the division by the zero cycle count is carried out,
    which leaves [Infinity] in the shared message. *)
Theorem tick_below_step_length (s : State) (dt : double) (w : World) :
  (0 < Fin (leftoverTime Entity s) + Fin dt)%num ->
  (Fin (leftoverTime Entity s) + Fin dt < Fin (stepLength Entity s))%num ->
  steps_run (tick s dt w).2 = 0%nat /\
  leftoverTime Entity (tick s dt w).1.1 = zero /\
  Fin (leftoverTime Entity (tick s dt w).1.1) <>
    (Fin (leftoverTime Entity s) + Fin dt)%num /\
  message_deltaT Entity (tick s dt w).1.1 = PosInf.
Proof.
  intros Hpos Hlt.
  destruct (Lt_finite_r _ _ Hpos Hlt) as (a & Ea & Ha0 & Hab).
  destruct (scaled_pos_inv a Ha0) as [Hs _].
  destruct (div_below_one a (stepLength Entity s) Hs Hab)
    as (q & Eq & Hq & Hq1).
  assert (cycles_of Entity s dt = Fin zero) as Hc.
  { unfold cycles_of. rewrite Ea, Eq. by apply floor_below_one. }
  destruct (tick_out s dt w) as (Hrun & _ & _).
  destruct (tick_fields s dt w) as (Hl & Hm & _).
  split; [|split; [|split]].
  - rewrite Hrun. unfold clamped_cycles. rewrite Hc.
    apply iterations_min_zero.
  - exact Hl.
  - rewrite Hl, Ea. apply Fin_ne. change (scaled zero) with 0%Z. lia.
  - rewrite Hm, Hc, Ea. by apply div_by_zero.
Qed.

(** *** The camera buffer *)

Lemma camera_update_buffer_zero (s : State) (u : CameraUpdate) :
  ~ nonzero (buffer (camera Entity s)) ->
  Fin (buffer (camera Entity (camera_update Entity s u))) =
  (Fin (viewportWidth u) / Fin four)%num.
Proof.
  intros Hb. unfold camera_update, camera_update_camera, nonzero in *.
  cbn [camera buffer]. destruct (truthy (buffer (camera Entity s))); [done|].
  cbn [negb camera buffer width].
  by destruct (quarter_finite (viewportWidth u)) as (d & -> & _).
Qed.

Lemma camera_update_buffer_nonzero (s : State) (u : CameraUpdate) :
  nonzero (buffer (camera Entity s)) ->
  buffer (camera Entity (camera_update Entity s u)) = buffer (camera Entity s).
Proof.
  intros Hb. unfold camera_update, camera_update_camera, nonzero in *.
  cbn [camera buffer]. by rewrite Hb.
Qed.

Lemma camera_updates_buffer_nonzero (us : list CameraUpdate) (s : State) :
  nonzero (buffer (camera Entity s)) ->
  buffer (camera Entity (camera_updates Entity s us)) =
  buffer (camera Entity s).
Proof.
  revert s. induction us as [|u us IH]; intros s Hb; [reflexivity|].
  unfold camera_updates in *. simpl.
  rewrite IH; rewrite camera_update_buffer_nonzero; done.
Qed.

(** C6, as the code has it.  The buffer doubles as its own "not set"
    mark: a ['camera-update'] that finds it zero sets it to a quarter of
    the new width, and one that finds it non-zero leaves it alone.  So a
    buffer configured non-zero is never overwritten, and a defaulted one
    is final as soon as it is non-zero. *)
Theorem camera_buffer_default (def : Definition_) (us : list CameraUpdate) :
  (forall q, def_buffer def = Some q -> nonzero q ->
     buffer (camera Entity (camera_updates Entity (component Entity def) us)) = q)
  /\ (forall (s : State) u, ~ nonzero (buffer (camera Entity s)) ->
        Fin (buffer (camera Entity (camera_update Entity s u))) =
        (Fin (viewportWidth u) / Fin four)%num)
  /\ (forall (s : State) us', nonzero (buffer (camera Entity s)) ->
        buffer (camera Entity (camera_updates Entity s us')) =
        buffer (camera Entity s)).
Proof.
  split; [|split].
  - intros q Hq Hnz.
    assert (buffer (camera Entity (component Entity def)) = q) as Hc.
    { simpl. rewrite Hq. simpl. unfold nonzero in Hnz. by rewrite Hnz. }
    rewrite camera_updates_buffer_nonzero; [exact Hc|].
    by rewrite Hc.
  - apply camera_update_buffer_zero.
  - intros s us'. apply camera_updates_buffer_nonzero.
Qed.

(** *** Culling *)

Lemma outside_not_in_window (c : Camera) (x y : option double) :
  outside_window c x y -> in_window c x y = false.
Proof.
  intros (vx & -> & Hc). unfold in_window.
  destruct Hc as [H|[H|(vy & -> & [H|H])]];
    rewrite (Lt_not_leb _ _ H); by rewrite ?andb_false_r.
Qed.

Lemma elem_of_delete_other (l : list Entity) (x : nat) (child e : Entity) :
  l !! x = Some child -> child <> e -> e ∈ l -> e ∈ delete x l.
Proof.
  intros Hx Hne He. apply list_elem_of_lookup in He as [i Hi].
  apply list_elem_of_lookup. destruct (decide (i < x)%nat).
  - exists i. by rewrite list_lookup_delete_lt.
  - assert (i <> x) by congruence.
    exists (pred i). rewrite list_lookup_delete_ge by lia.
    by replace (S (pred i)) with i by lia.
Qed.

(** The state after one dispatch of a pass: what was delivered is taken,
    and the entry is spliced out if no listener answered. *)
Lemma after_dispatch_camera (s : State) (x : nat) (listened : bool)
    (delivered : list (Delivery Entity)) :
  camera Entity
    (if listened then receive_all s delivered
     else set_entities Entity (receive_all s delivered)
            (delete x (entities Entity (receive_all s delivered)))) =
  receive_camera Entity (camera Entity s) delivered.
Proof. destruct listened; simpl; apply receive_all_camera. Qed.

Lemma after_dispatch_message (s : State) (x : nat) (listened : bool)
    (delivered : list (Delivery Entity)) :
  message_deltaT Entity
    (if listened then receive_all s delivered
     else set_entities Entity (receive_all s delivered)
            (delete x (entities Entity (receive_all s delivered)))) =
  message_deltaT Entity s.
Proof.
  apply settings_message.
  destruct listened; [|rewrite settings_set_entities];
    apply receive_all_settings.
Qed.

Section Culling.

(** [inv] relates the world and the camera; the listeners keep it, with
    what they do to the world and what they have delivered to the
    component.  [e] is an entity whose position is described under it. *)
Variable inv : World -> Camera -> Prop.
Variable e : Entity.
Hypothesis inv_kept :
  forall w c child m,
    inv w c ->
    inv (trigger_handle_logic w child m).1.1
        (receive_camera Entity c (trigger_handle_logic w child m).2).

Lemma logic_pass_skips_outside n w (s : State) :
  inv w (camera Entity s) ->
  (forall w' c, inv w' c ->
     outside_window c (entity_x w' e) (entity_y w' e)) ->
  (forall m', (e, m') ∉ dispatched_to (logic_pass n w s []).2) /\
  (e ∈ entities Entity s -> e ∈ entities Entity (logic_pass n w s []).1.2).
Proof.
  intros Hw Hout. revert w s Hw.
  induction n as [|x IH]; intros w s Hw; simpl.
  - split; [|done]. intros m' H. by apply elem_of_nil in H.
  - destruct (entities Entity s !! x) as [child|] eqn:Hchild; [|by apply IH].
    destruct (in_window _ _ _) eqn:Hwin; [|by apply IH].
    assert (child <> e) as Hce.
    { intros ->. rewrite outside_not_in_window in Hwin; [done|by apply Hout]. }
    pose proof (inv_kept w _ child (message_of s) Hw) as Hw'.
    destruct (trigger_handle_logic w child (message_of s))
      as [[w' listened] delivered].
    cbn [fst snd] in Hw'.
    rewrite logic_pass_app. cbn [fst snd].
    rewrite <- (after_dispatch_camera s x listened) in Hw'.
    destruct (IH w' _ Hw') as [Hno Hin].
    split.
    + intros m' H. simpl in H. apply elem_of_cons in H.
      destruct H as [H|H]; [congruence|by apply (Hno m')].
    + intros He. apply Hin.
      assert (e ∈ entities Entity (receive_all s delivered)) as He'.
      { rewrite receive_all_entities. apply elem_of_app. by left. }
      destruct listened; [exact He'|]. simpl.
      apply (elem_of_delete_other _ _ child); [|done|done].
      rewrite receive_all_entities.
      by apply lookup_app_l_Some.
Qed.

Lemma logic_pass_reaches_inside n w (s : State) i :
  inv w (camera Entity s) ->
  (forall w' c, inv w' c ->
     in_window c (entity_x w' e) (entity_y w' e) = true) ->
  (i < n)%nat -> entities Entity s !! i = Some e ->
  exists m', (e, m') ∈ dispatched_to (logic_pass n w s []).2 /\
             deltaT m' = message_deltaT Entity s.
Proof.
  intros Hw Hins. revert w s Hw.
  induction n as [|x IH]; intros w s Hw Hi Hlook; [lia|]. simpl.
  destruct (decide (i = x)) as [->|Hne].
  - rewrite Hlook, (Hins w _ Hw).
    destruct (trigger_handle_logic w e (message_of s))
      as [[w' listened] delivered].
    rewrite logic_pass_app. exists (message_of s). split; [|done].
    simpl. apply elem_of_cons. by left.
  - assert (i < x)%nat as Hix by lia.
    destruct (entities Entity s !! x) as [child|] eqn:Hchild; [|by apply IH].
    destruct (in_window _ _ _); [|by apply IH].
    pose proof (inv_kept w _ child (message_of s) Hw) as Hw'.
    destruct (trigger_handle_logic w child (message_of s))
      as [[w' listened] delivered].
    cbn [fst snd] in Hw'.
    rewrite logic_pass_app. cbn [fst snd].
    rewrite <- (after_dispatch_camera s x listened) in Hw'.
    destruct (IH w' _ Hw' Hix) as (m' & Hm' & Hd).
    + assert (entities Entity (receive_all s delivered) !! i = Some e) as He'.
      { rewrite receive_all_entities. by apply lookup_app_l_Some. }
      destruct listened; [exact He'|]. simpl.
      by rewrite list_lookup_delete_lt.
    + exists m'. split.
      * simpl. apply elem_of_cons. by right.
      * by rewrite Hd, after_dispatch_message.
Qed.

(** C7.  In a step, an entity that has a position off the buffered
    camera window along x or y, the bounds taken as line 74 computes
    them, is sent no ['handle-logic'] and stays in the list; an entity
    without [x] is sent one, and so is every entity that passes the
    test. *)
Theorem step_culls_by_camera w (s : State) out :
  inv w (camera Entity s) ->
  e ∈ entities Entity s ->
  let r := step (w, s, out) in
  let sent := (step (w, s, [])).2 in
  r.2 = out ++ sent /\
  ((forall w' c, inv w' c ->
      outside_window c (entity_x w' e) (entity_y w' e)) ->
   (forall m', (e, m') ∉ dispatched_to sent) /\ e ∈ entities Entity r.1.2) /\
  ((forall w' c, inv w' c -> entity_x w' e = None) ->
   exists m', (e, m') ∈ dispatched_to sent /\
              deltaT m' = message_deltaT Entity s) /\
  ((forall w' c, inv w' c ->
      in_window c (entity_x w' e) (entity_y w' e) = true) ->
   exists m', (e, m') ∈ dispatched_to sent /\
              deltaT m' = message_deltaT Entity s).
Proof.
  intros Hw He. unfold HandlerLogic.step. cbn zeta.
  rewrite (logic_pass_app _ w s out).
  pose proof (logic_pass_skips_outside (length (entities Entity s)) w s Hw)
    as Hskip.
  pose proof (fun i => logic_pass_reaches_inside
                         (length (entities Entity s)) w s i Hw) as Hreach.
  destruct (logic_pass (length (entities Entity s)) w s [])
    as [[w1 s1] out1].
  cbn [fst snd] in *.
  destruct (trigger_time_elapsed w1 "Logic") as [w2 d2].
  destruct (trigger_check_collision_group w2 _) as [w3 d3].
  destruct (trigger_time_elapsed w3 "Collision") as [w4 d4].
  cbn [fst snd].
  assert (forall m0,
            dispatched_to
              (out1 ++
               [TimeElapsed "Logic"; CheckCollisionGroup m0;
                TimeElapsed "Collision"]) = dispatched_to out1) as Hd.
  { intros m0. rewrite dispatched_to_app. simpl. apply app_nil_r. }
  split; [by rewrite <- app_assoc|].
  apply list_elem_of_lookup in He as Hlook. destruct Hlook as [i Hi].
  pose proof (lookup_lt_Some _ _ _ Hi) as Hlt.
  split; [|split].
  - intros Hout. destruct (Hskip Hout) as [Hno Hin]. split.
    + intros m' H. rewrite Hd in H. by apply (Hno m').
    + rewrite !receive_all_entities.
      apply elem_of_app. left. apply elem_of_app. left.
      apply elem_of_app. left. by apply Hin.
  - intros Hnone. rewrite Hd. apply (Hreach i); [|done|done].
    intros w' c Hc. by rewrite (Hnone w' c Hc).
  - intros Hins. rewrite Hd. by apply (Hreach i).
Qed.

End Culling.

(** *** Registration *)

Lemma listens_handle_logic_In (ids : list string) :
  listens_handle_logic ids = true <-> "handle-logic" ∈ ids.
Proof.
  induction ids as [|id ids IH]; simpl.
  - split; [done|]. intros H. by apply elem_of_nil in H.
  - destruct (String.eqb id "handle-logic") eqn:E.
    + apply String.eqb_eq in E. subst. split; [|done].
      intros _. apply elem_of_cons. by left.
    + apply String.eqb_neq in E. rewrite IH, elem_of_cons.
      split; [by right|]. intros [H|H]; [congruence|done].
Qed.

(** One round of the inner loop on an entry that passes the test. *)
Lemma logic_pass_dispatch x w (s : State) (child : Entity) :
  entities Entity s !! x = Some child ->
  in_window (camera Entity s) (entity_x w child) (entity_y w child) = true ->
  exists w' listened delivered rest,
    trigger_handle_logic w child (message_of s) = (w', listened, delivered) /\
    dispatched_to (logic_pass (S x) w s []).2 =
      (child, message_of s) :: rest /\
    rest =
      dispatched_to
        (logic_pass x w'
           (if listened then receive_all s delivered
            else set_entities Entity (receive_all s delivered)
                   (delete x (entities Entity (receive_all s delivered))))
           []).2.
Proof.
  intros Hx Hin. cbn [HandlerLogic.logic_pass]. rewrite Hx, Hin.
  destruct (trigger_handle_logic w child (message_of s))
    as [[w' listened] delivered].
  rewrite logic_pass_app. by eexists w', listened, delivered, _.
Qed.

(** The dispatches of a step are those of its pass. *)
Lemma step_dispatched w (s : State) :
  dispatched_to (step (w, s, [])).2 =
  dispatched_to (logic_pass (length (entities Entity s)) w s []).2.
Proof.
  unfold HandlerLogic.step.
  destruct (logic_pass (length (entities Entity s)) w s [])
    as [[w1 s1] out1].
  destruct (trigger_time_elapsed w1 "Logic") as [w2 d2].
  destruct (trigger_check_collision_group w2 _) as [w3 d3].
  destruct (trigger_time_elapsed w3 "Collision") as [w4 d4].
  cbn [fst snd]. rewrite dispatched_to_app. simpl. apply app_nil_r.
Qed.

(** C10.  One notification appends the entity at most once, and exactly
    once when ['handle-logic'] is among its message ids, however often it
    is listed there; a second notification appends it again, and a step
    then dispatches to it twice, whenever it passes the camera test: for
    an entity without a position always, for one with a position as long
    as its own listeners leave it inside the window. *)
Theorem child_entity_added_once_per_notification (s : State) (e : Entity) :
  (entities Entity (child_entity_added s e) = entities Entity s \/
   entities Entity (child_entity_added s e) = entities Entity s ++ [e])
  /\ ("handle-logic" ∈ getMessageIds e ->
      entities Entity (child_entity_added s e) = entities Entity s ++ [e] /\
      entities Entity (child_entity_added (child_entity_added s e) e) =
        entities Entity s ++ [e; e] /\
      forall (inv : World -> Camera -> Prop) (w : World),
        inv w (camera Entity s) ->
        (forall w' c m, inv w' c ->
           in_window c (entity_x w' e) (entity_y w' e) = true /\
           inv (trigger_handle_logic w' e m).1.1
               (receive_camera Entity c (trigger_handle_logic w' e m).2)) ->
        exists m' others,
          dispatched_to
            (step (w, child_entity_added (child_entity_added s e) e, [])).2
          = (e, message_of s) :: (e, m') :: others /\
          deltaT m' = message_deltaT Entity s).
Proof.
  split.
  - unfold HandlerLogic.child_entity_added.
    destruct (listens_handle_logic _); [by right|by left].
  - intros Hin. apply listens_handle_logic_In in Hin.
    assert (forall s', child_entity_added s' e =
                       set_entities Entity s' (entities Entity s' ++ [e]))
      as Hadd.
    { intros s'. unfold HandlerLogic.child_entity_added. by rewrite Hin. }
    split; [by rewrite Hadd|]. split.
    { rewrite !Hadd. simpl. by rewrite <- app_assoc. }
    intros inv w Hw Hinv. rewrite step_dispatched, !Hadd.
    set (l := entities Entity s).
    set (s2 := set_entities Entity _ _).
    assert (entities Entity s2 = l ++ [e; e]) as E2.
    { unfold s2. simpl. by rewrite <- app_assoc. }
    assert (message_of s2 = message_of s) as Em by done.
    assert (length (entities Entity s2) = S (S (length l))) as ->.
    { rewrite E2, length_app. simpl. lia. }
    destruct (logic_pass_dispatch (S (length l)) w s2 e)
      as (w1 & l1 & d1 & rest1 & T1 & D1 & R1).
    { rewrite E2, lookup_app_r by lia.
      by replace (S (length l) - length l)%nat with 1%nat by lia. }
    { by apply (Hinv w _ (message_of s)). }
    rewrite D1, Em. set (s3 := if l1 then _ else _) in R1.
    assert (entities Entity s3 !! length l = Some e) as E3.
    { assert (entities Entity (receive_all s2 d1) !! length l = Some e) as H.
      { rewrite receive_all_entities, E2. apply lookup_app_l_Some.
        rewrite lookup_app_r by lia. by rewrite Nat.sub_diag. }
      unfold s3. destruct l1; [exact H|]. simpl.
      by rewrite list_lookup_delete_lt by lia. }
    destruct (Hinv w _ (message_of s2) Hw) as [_ Hw1].
    rewrite T1 in Hw1. cbn [fst snd] in Hw1.
    assert (camera Entity s3 = receive_camera Entity (camera Entity s) d1)
      as Ec by apply (after_dispatch_camera s2).
    rewrite <- Ec in Hw1.
    destruct (logic_pass_dispatch (length l) w1 s3 e E3)
      as (w2 & l2 & d2 & rest2 & T2 & D2 & R2).
    { by apply (Hinv w1 _ (message_of s)). }
    rewrite R1, D2. exists (message_of s3), rest2. split; [done|].
    apply (after_dispatch_message s2).
Qed.

End SchedulerFacts.

(** *** The scheduler on a small scene *)

Section SchedulerExamples.

Import JSNumber HandlerLogic SchedulerScene.

(** The numbers of the scene are the numbers they are named after. *)
Lemma scene_numbers :
  of_Z 1 = Fin one /\ of_Z 3 = Fin three /\ of_Z 4 = Fin four /\
  of_Z 10 = Fin ten /\ of_Z 15 = Fin fifteen /\ of_Z 30 = Fin thirty /\
  of_Z 32 = Fin thirty_two /\ of_Z 40 = Fin forty /\
  of_Z 46 = Fin forty_six /\ of_Z 50 = Fin fifty /\
  of_Z 100 = Fin hundred /\ of_Z 200 = Fin two_hundred /\
  of_Z 300 = Fin three_hundred /\ of_Z 400 = Fin four_hundred /\
  of_Z 800 = Fin eight_hundred /\ of_Z 1000 = Fin thousand /\
  of_Z (-30) = Fin minus_thirty /\
  of_Q (1 # 10) = Fin tenth /\ of_Q (1 # 2) = Fin half /\
  of_Q (7 # 10) = Fin seven_tenths /\
  of_Q (-6 # 10) = Fin minus_six_tenths /\
  (of_Z 46 / of_Z 3)%num = Fin forty_six_thirds /\
  (of_Z 1000 / of_Z 60)%num = Fin sixtieth_of_thousand /\
  ord largest = (INF - 1)%Z.
Proof. repeat apply conj; by vm_compute. Qed.

(** A tick of [1000] on a new scheduler runs the ten steps of the cap,
    of the [66] that are due; with [stepLength = 0.1] a tick of [0.5]
    runs five steps, [0.5 / 0.1] being [5] as the source computes it,
    and a tick of the largest number there is runs the ten steps of the
    cap, the quotient being [Infinity]. *)
Lemma tick_step_count_witness :
  steps_run nat (tick fresh_state thousand tt).2 = 10%nat /\
  steps_run nat (tick fine_state half tt).2 = 5%nat /\
  steps_run nat (tick fine_state largest tt).2 = 10%nat /\
  (steps_run nat (tick fresh_state thousand tt).2 <= 10)%nat.
Proof.
  destruct (tick_step_count getMessageIds entity_x entity_y
              trigger_handle_logic trigger_check_collision_group
              trigger_time_elapsed fresh_state thousand tt)
    as (_ & H2 & _ & H4).
  destruct (tick_step_count getMessageIds entity_x entity_y
              trigger_handle_logic trigger_check_collision_group
              trigger_time_elapsed fine_state half tt)
    as (_ & H2' & _).
  destruct (tick_step_count getMessageIds entity_x entity_y
              trigger_handle_logic trigger_check_collision_group
              trigger_time_elapsed fine_state largest tt)
    as (_ & _ & H3' & _).
  split; [|split; [|split]].
  - destruct (H2 66%Z 10%Z) as [H _]; [by vm_compute|by vm_compute|exact H].
  - destruct (H2' 5%Z 10%Z) as [H _]; [by vm_compute|by vm_compute|exact H].
  - apply (H3' 10%Z); by vm_compute.
  - apply (H4 10%Z). by vm_compute.
Defined.

(** C3, as stated, fails when the time accumulated is negative: a tick
    of [-30] on a new scheduler makes the formula [-2], and no step
    runs. *)
Lemma tick_negative_delta :
  whole (min (floor ((Fin (leftoverTime nat fresh_state) + Fin minus_thirty)
                     / Fin (stepLength nat fresh_state))%num)
             (Fin (maximumStepsPerTick nat fresh_state))) = Some (-2)%Z /\
  steps_run nat (tick fresh_state minus_thirty tt).2 = 0%nat /\
  Z.of_nat (steps_run nat (tick fresh_state minus_thirty tt).2) <> (-2)%Z.
Proof. apply conj; [by vm_compute|]. apply conj; [by vm_compute|lia]. Qed.

(** A scheduler with entity [0] registered. *)
Lemma tick_adjusted_delta_witness :
  cycles_of nat (child_entity_added nat getMessageIds fresh_state 0%nat)
    forty_six = Fin three /\
  Forall (fun d => deltaT d.2 = Fin forty_six_thirds)
         (dispatched_to nat
            (tick (child_entity_added nat getMessageIds fresh_state 0%nat)
                  forty_six tt).2)
  /\ message_deltaT nat
       (tick (child_entity_added nat getMessageIds fresh_state 0%nat)
             forty_six tt).1.1 = Fin forty_six_thirds
  /\ (exists rest,
        dispatched_to nat
          (tick (child_entity_added nat getMessageIds fresh_state 0%nat)
                forty_six tt).2 =
        (0%nat, {| deltaT := Fin forty_six_thirds;
                   msg_camera := camera nat fresh_state |}) :: rest)
  /\ dispatched_to nat
       (tick (child_entity_added nat getMessageIds fresh_state 0%nat)
             forty_six tt).2 =
     [(0%nat, {| deltaT := Fin forty_six_thirds;
                 msg_camera := camera nat fresh_state |});
      (0%nat, {| deltaT := Fin forty_six_thirds;
                 msg_camera := camera nat fresh_state |});
      (0%nat, {| deltaT := Fin forty_six_thirds;
                 msg_camera := camera nat fresh_state |})].
Proof.
  assert (((Fin (leftoverTime nat
                  (child_entity_added nat getMessageIds fresh_state 0%nat))
            + Fin forty_six)
           / cycles_of nat
               (child_entity_added nat getMessageIds fresh_state 0%nat)
               forty_six)%num = Fin forty_six_thirds) as E by (by vm_compute).
  destruct (tick_adjusted_delta getMessageIds entity_x entity_y
              trigger_handle_logic trigger_check_collision_group
              trigger_time_elapsed
              (child_entity_added nat getMessageIds fresh_state 0%nat)
              forty_six tt) as (H1 & H2 & H3); [by vm_compute|].
  rewrite E in H1, H2, H3.
  split; [by vm_compute|]. split; [exact H1|]. split; [exact H2|].
  split; [|by vm_compute].
  apply (H3 [] 0%nat 10%Z); [by vm_compute|by vm_compute|by vm_compute|lia].
Defined.

(** A tick of [1] on a new scheduler: no step, the millisecond is lost
    and the message holds [Infinity]. *)
Lemma tick_below_step_length_witness :
  steps_run nat (tick fresh_state one tt).2 = 0%nat /\
  leftoverTime nat (tick fresh_state one tt).1.1 = zero /\
  Fin (leftoverTime nat (tick fresh_state one tt).1.1) <>
    (Fin (leftoverTime nat fresh_state) + Fin one)%num /\
  message_deltaT nat (tick fresh_state one tt).1.1 = PosInf.
Proof.
  apply (tick_below_step_length getMessageIds entity_x entity_y
           trigger_handle_logic trigger_check_collision_group
           trigger_time_elapsed fresh_state one tt); by vm_compute.
Defined.

(** C6, as stated, fails.  With no buffer configured, a first
    ['camera-update'] of width [0] leaves the buffer at [0] and the next
    one, of width [400], sets the default again; and a buffer configured
    as [0] is overwritten. *)
Lemma camera_buffer_redefaulted :
  Fin (buffer (camera nat after_zero_width)) = (Fin zero / Fin four)%num /\
  buffer (camera nat after_second_update) = hundred /\
  buffer (camera nat after_second_update) <>
    buffer (camera nat after_zero_width) /\
  buffer (camera nat (camera_update nat configured_zero
                        (viewport four_hundred))) <> zero.
Proof.
  split; [by vm_compute|]. split; [by vm_compute|].
  split; intros H; vm_compute in H; discriminate H.
Qed.

Lemma camera_buffer_default_witness :
  buffer (camera nat
    (camera_updates nat
       (component nat {| def_stepLength := None;
                         def_buffer := Some thirty_two |})
       [viewport zero; viewport four_hundred])) = thirty_two
  /\ Fin (buffer (camera nat (camera_update nat fresh_state
                                (viewport four_hundred)))) =
     (Fin four_hundred / Fin four)%num
  /\ buffer (camera nat
       (camera_updates nat (camera_update nat fresh_state
                              (viewport four_hundred))
          [viewport zero; viewport eight_hundred])) =
     buffer (camera nat (camera_update nat fresh_state
                           (viewport four_hundred))).
Proof.
  pose proof (camera_buffer_default (Entity := nat)
                {| def_stepLength := None; def_buffer := Some thirty_two |}
                [viewport zero; viewport four_hundred]) as (H1 & H2 & H3).
  split; [|split].
  - apply H1; [reflexivity|by vm_compute].
  - apply (H2 fresh_state (viewport four_hundred)).
    intros H. vm_compute in H. discriminate H.
  - apply H3. by vm_compute.
Defined.

(** Entity [2] stands inside the window and lists ['handle-logic']
    twice: one notification registers it once, two register it twice,
    and a step then sends to it twice. *)
Lemma child_entity_added_once_per_notification_witness :
  entities nat (child_entity_added nat getMessageIds (watching []) 2%nat) =
    [2%nat]
  /\ entities nat
       (child_entity_added nat getMessageIds
          (child_entity_added nat getMessageIds (watching []) 2%nat) 2%nat) =
     [2%nat; 2%nat]
  /\ exists m' others,
       dispatched_to nat
         (step (tt, child_entity_added nat getMessageIds
                      (child_entity_added nat getMessageIds (watching [])
                         2%nat) 2%nat, [])).2
       = (2%nat, window_message) :: (2%nat, m') :: others /\
       deltaT m' = Fin fifteen.
Proof.
  pose proof (child_entity_added_once_per_notification getMessageIds
                entity_x entity_y trigger_handle_logic
                trigger_check_collision_group trigger_time_elapsed
                (watching []) 2%nat)
    as [_ H0].
  destruct H0 as (H1 & H2 & H3).
  - apply elem_of_cons. right. apply elem_of_cons. by left.
  - split; [exact H1|]. split; [exact H2|].
    apply (H3 (fun _ c => c = camera nat (watching [])) tt eq_refl).
    intros w' c m ->. split; [by vm_compute|reflexivity].
Defined.

Lemma watching_camera (l : list nat) :
  camera nat (watching l) = camera nat (watching []).
Proof. by vm_compute. Qed.

(** Entity [1] stands at [(1000, 0)], off a camera window of
    [400 x 300] with buffer [100]; entity [0] has no position, and
    entity [2] stands at [(50, 50)], inside the window. *)
Lemma step_culls_by_camera_witness :
  ((forall m', (1%nat, m') ∉
      dispatched_to nat (step (tt, watching [0%nat; 1%nat; 2%nat], [])).2) /\
   1%nat ∈ entities nat
             (step (tt, watching [0%nat; 1%nat; 2%nat], [])).1.2) /\
  (exists m', (0%nat, m') ∈
      dispatched_to nat (step (tt, watching [0%nat; 1%nat; 2%nat], [])).2 /\
      deltaT m' = Fin fifteen) /\
  (exists m', (2%nat, m') ∈
      dispatched_to nat (step (tt, watching [0%nat; 1%nat; 2%nat], [])).2 /\
      deltaT m' = Fin fifteen).
Proof.
  pose (inv := fun (_ : unit) (c : Camera) => c = camera nat (watching [])).
  assert (forall w c child m, inv w c ->
            inv (trigger_handle_logic w child m).1.1
                (receive_camera nat c (trigger_handle_logic w child m).2))
    as Hkept by done.
  assert (forall e, e ∈ [0%nat; 1%nat; 2%nat] ->
            e ∈ entities nat (watching [0%nat; 1%nat; 2%nat])) as Hin by done.
  split; [|split].
  - destruct (step_culls_by_camera getMessageIds entity_x entity_y
                trigger_handle_logic trigger_check_collision_group
                trigger_time_elapsed inv 1%nat Hkept tt
                (watching [0%nat; 1%nat; 2%nat]) [] (watching_camera _))
      as (_ & Hout & _).
    { apply Hin, elem_of_cons. right. apply elem_of_cons. by left. }
    apply Hout. intros w' c ->. exists thousand. split; [reflexivity|].
    right. left. by vm_compute.
  - destruct (step_culls_by_camera getMessageIds entity_x entity_y
                trigger_handle_logic trigger_check_collision_group
                trigger_time_elapsed inv 0%nat Hkept tt
                (watching [0%nat; 1%nat; 2%nat]) [] (watching_camera _))
      as (_ & _ & Hnone & _).
    { apply Hin, elem_of_cons. by left. }
    by apply Hnone.
  - destruct (step_culls_by_camera getMessageIds entity_x entity_y
                trigger_handle_logic trigger_check_collision_group
                trigger_time_elapsed inv 2%nat Hkept tt
                (watching [0%nat; 1%nat; 2%nat]) [] (watching_camera _))
      as (_ & _ & _ & Hins).
    { apply Hin, elem_of_cons. right. apply elem_of_cons. right.
      apply elem_of_cons. by left. }
    apply Hins. intros w' c ->. by vm_compute.
Defined.

(** The bounds of the window are the numbers the source computes: with
    [left = 0.1] and a buffer of [0.7] the left bound is the number
    nearest to [-0.6], and an entity standing there passes the test. *)
Example window_bound_is_rounded :
  (Fin tenth - Fin seven_tenths)%num = Fin minus_six_tenths /\
  in_window narrow_camera (Some minus_six_tenths) (Some zero) = true.
Proof. apply conj; by vm_compute. Qed.

(** With [stepLength = 1000 / 60] a tick of [50] runs three steps, each
    with [deltaT = 50 / 3], the quotient [50 / (1000 / 60)] being [3] as
    the source computes it. *)
Example tick_sixty_hertz :
  cycles_of nat sixty_hertz fifty = Fin three /\
  steps_run nat (tick sixty_hertz fifty tt).2 = 3%nat /\
  message_deltaT nat (tick sixty_hertz fifty tt).1.1 =
    (Fin fifty / Fin three)%num.
Proof. repeat apply conj; by vm_compute. Qed.

End SchedulerExamples.

(** ** The collision group *)

Section CollisionGroupFacts.

Import CollisionGroup CollisionGroupSpec.

Lemma include_at_Some (h h' : Heap) (target : ref) (other : AABB) :
  include_at h target other = Some h' ->
  ents h' = ents h /\ dom (boxes h') = dom (boxes h) /\
  exists this, boxes h !! target = Some this /\
    boxes h' = <[target := include this other]> (boxes h).
Proof.
  unfold include_at. intros H.
  destruct (boxes h !! target) as [this|] eqn:E; [|discriminate].
  simpl in H. destruct h' as [E' B']. injection H as <- <-.
  simpl. split; [done|]. split.
  - by apply dom_insert_lookup_L.
  - by exists this.
Qed.

Lemma include_at_is_Some (h : Heap) (target : ref) (other : AABB) :
  is_Some (boxes h !! target) -> is_Some (include_at h target other).
Proof. intros [this E]. unfold include_at. rewrite E. by eexists. Qed.

Lemma add_for_types_appends (e : Entity) (entity : ref) (types : list string)
    (solid : list ref) :
  (forall t, t ∈ types -> is_Some (solidCollisions e !! t)) ->
  add_for_types e entity types solid =
  Some (solid ++ replicate (qualifying e types) entity).
Proof.
  revert solid. induction types as [|t types IH]; intros solid Hall; simpl.
  - by rewrite app_nil_r.
  - destruct (Hall t) as [responses Hr]; [apply elem_of_cons; by left|].
    rewrite Hr. simpl.
    assert (forall t', t' ∈ types -> is_Some (solidCollisions e !! t')) as Hall'.
    { intros t' Ht'. apply Hall, elem_of_cons. by right. }
    destruct responses as [|r responses]; simpl; [by apply IH|].
    destruct (immobile e); simpl; [by apply IH|].
    rewrite IH by exact Hall'. by rewrite <- app_assoc.
Qed.

(** Whichever branch a loop body takes, [include_at] is what writes. *)
Lemma include_at_Some_dom (h h' : Heap) (owner member : ref) (target : ref) :
  (if delegates h owner member
   then gm ← group_of h member;
        box ← boxes h !! aabb gm;
        include_at h target box
   else e ← ents h !! member;
        include_at h target (own_getAABB e None)) = Some h' ->
  ents h' = ents h /\ dom (boxes h') = dom (boxes h).
Proof.
  intros H. destruct (delegates h owner member).
  - destruct (group_of h member) as [gm|]; [|discriminate]. simpl in H.
    destruct (boxes h !! aabb gm) as [box|]; [|discriminate]. simpl in H.
    apply include_at_Some in H as (? & ? & _). done.
  - destruct (ents h !! member) as [e|]; [|discriminate]. simpl in H.
    apply include_at_Some in H as (? & ? & _). done.
Qed.

Lemma group_of_ents (h1 h2 : Heap) (r : ref) :
  ents h1 = ents h2 -> group_of h1 r = group_of h2 r.
Proof. unfold group_of. by intros ->. Qed.

Lemma delegates_ents (h1 h2 : Heap) (owner child : ref) :
  ents h1 = ents h2 -> delegates h1 owner child = delegates h2 owner child.
Proof. intros H. unfold delegates. by rewrite (group_of_ents h1 h2). Qed.

(** [updateAABB] returns on a heap that holds the group's cached box, its
    members and the members' cached boxes; it writes boxes only. *)
Lemma updateAABB_total (h : Heap) (owner : ref) (g : Group) :
  group_of h owner = Some g ->
  is_Some (boxes h !! aabb g) ->
  (forall member, member ∈ solidEntities g -> is_Some (ents h !! member)) ->
  (forall member gm, member ∈ solidEntities g ->
     group_of h member = Some gm -> is_Some (boxes h !! aabb gm)) ->
  exists h', updateAABB h owner = Some h' /\ ents h' = ents h /\
             dom (boxes h') = dom (boxes h).
Proof.
  intros Hg [cached Hc] Hmem Hbox. unfold updateAABB. rewrite Hg. simpl.
  rewrite Hc. simpl.
  set (h0 := set_boxes h (<[aabb g:=None]> (boxes h))).
  assert (ents h0 = ents h) as He0 by done.
  assert (dom (boxes h0) = dom (boxes h)) as Hd0.
  { simpl. by apply dom_insert_lookup_L. }
  clearbody h0. revert h0 He0 Hd0.
  induction (solidEntities g) as [|member l IH]; intros h0 He0 Hd0; simpl.
  - by exists h0.
  - assert (exists h1, (if delegates h0 owner member
                        then gm ← group_of h0 member;
                             box ← boxes h0 !! aabb gm;
                             include_at h0 (aabb g) box
                        else e ← ents h0 !! member;
                             include_at h0 (aabb g) (own_getAABB e None))
                       = Some h1) as [h1 Hstep].
    { assert (is_Some (boxes h0 !! aabb g)) as Hcached.
      { apply elem_of_dom. rewrite Hd0. apply elem_of_dom. by eexists. }
      destruct (delegates h0 owner member) eqn:Hdel.
      - unfold delegates in Hdel. apply andb_true_iff in Hdel as [_ Hgm].
        apply bool_decide_eq_true in Hgm as [gm Hgm]. rewrite Hgm. simpl.
        assert (is_Some (boxes h0 !! aabb gm)) as [box Hb].
        { apply elem_of_dom. rewrite Hd0. apply elem_of_dom.
          apply (Hbox member); [apply elem_of_cons; by left|].
          by rewrite <- (group_of_ents h0 h). }
        rewrite Hb. simpl. by apply include_at_is_Some.
      - destruct (Hmem member) as [e He]; [apply elem_of_cons; by left|].
        rewrite He0, He. simpl. by apply include_at_is_Some. }
    rewrite Hstep. apply include_at_Some_dom in Hstep as [He1 Hd1].
    apply IH.
    + intros m Hm. apply Hmem, elem_of_cons. by right.
    + intros m gm Hm. apply Hbox, elem_of_cons. by right.
    + by rewrite He1.
    + by rewrite Hd1.
Qed.

Lemma group_of_set_solidEntities (h : Heap) (owner : ref) (g : Group)
    (l : list ref) :
  group_of h owner = Some g ->
  group_of (set_solidEntities h owner l) owner =
  Some {| solidEntities := l; aabb := aabb g; prevAABB := prevAABB g |}.
Proof.
  unfold group_of, set_solidEntities. simpl. intros H.
  rewrite lookup_alter_eq.
  destruct (ents h !! owner) as [e|]; [|discriminate]. simpl in *.
  by rewrite H.
Qed.

Lemma group_of_set_solidEntities_ne (h : Heap) (owner other : ref)
    (l : list ref) :
  other <> owner ->
  group_of (set_solidEntities h owner l) other = group_of h other.
Proof.
  intros Hne. unfold group_of, set_solidEntities. simpl.
  by rewrite lookup_alter_ne.
Qed.

Lemma set_solidEntities_is_Some (h : Heap) (owner r : ref) (l : list ref) :
  is_Some (ents h !! r) -> is_Some (ents (set_solidEntities h owner l) !! r).
Proof.
  intros [e He]. unfold set_solidEntities. simpl.
  destruct (decide (r = owner)) as [->|Hne].
  - rewrite lookup_alter_eq, He. by eexists.
  - rewrite lookup_alter_ne by done. by eexists.
Qed.

(** C2, as the code has it.  On a well-formed heap, one delivery of
    ['child-entity-added'] or ['add-collision-entity'] for an entity whose
    collision types all have an entry in [solidCollisions] returns, and
    appends the entity to [solidEntities] once for each qualifying type:
    nothing is appended for an entity with no qualifying type, and two
    entries for one with two. *)
Theorem addCollisionEntity_appends_per_type (h : Heap) (owner entity : ref)
    (g : Group) (e : Entity) (types : list string) :
  well_formed h ->
  group_of h owner = Some g ->
  ents h !! entity = Some e ->
  collisionTypes e = Some types ->
  (forall t, t ∈ types -> is_Some (solidCollisions e !! t)) ->
  exists h' g',
    child_entity_added h owner entity = Some h' /\
    add_collision_entity h owner entity = Some h' /\
    group_of h' owner = Some g' /\
    solidEntities g' =
      solidEntities g ++ replicate (qualifying e types) entity.
Proof.
  intros Hwf Hg He Ht Hall.
  unfold child_entity_added, add_collision_entity, addCollisionEntity.
  rewrite Hg. simpl. rewrite He. simpl. rewrite Ht.
  rewrite add_for_types_appends by exact Hall. simpl.
  set (solid := solidEntities g ++ replicate (qualifying e types) entity).
  set (g1 := {| solidEntities := solid; aabb := aabb g; prevAABB := prevAABB g |}).
  assert (group_of (set_solidEntities h owner solid) owner = Some g1) as Hg1.
  { by apply group_of_set_solidEntities. }
  unfold group_of in Hg.
  destruct (ents h !! owner) as [o|] eqn:Ho; [|discriminate]. simpl in Hg.
  destruct (Hwf owner o g Ho Hg) as [Hcached Hmembers].
  destruct (updateAABB_total (set_solidEntities h owner solid) owner g1 Hg1)
    as (h' & Hup & Hents & _).
  - exact Hcached.
  - intros member Hm. apply set_solidEntities_is_Some.
    unfold solid in Hm. simpl in Hm. apply elem_of_app in Hm as [Hm|Hm].
    + by apply Hmembers.
    + apply elem_of_replicate in Hm as [-> _]. by eexists.
  - intros member gm _ Hgm. simpl.
    destruct (decide (member = owner)) as [->|Hne].
    + rewrite Hg1 in Hgm. injection Hgm as <-. exact Hcached.
    + rewrite group_of_set_solidEntities_ne in Hgm by exact Hne.
      unfold group_of in Hgm.
      destruct (ents h !! member) as [em|] eqn:Hem; [|discriminate].
      simpl in Hgm. by destruct (Hwf member em gm Hem Hgm).
  - exists h', g1. repeat split; try exact Hup.
    by rewrite (group_of_ents h' (set_solidEntities h owner solid)).
Qed.

(** Removal mirrors admission: it takes out one entry for each type with a
    response, so it undoes what one admission appended for an entity that
    was not yet a member. *)
Lemma remove_first_absent (entity : ref) (solid : list ref) :
  entity ∉ solid -> remove_first entity solid = solid.
Proof.
  induction solid as [|r solid IH]; [done|]. simpl. intros H.
  apply not_elem_of_cons in H as [Hne Hin].
  rewrite decide_False by done. by rewrite IH.
Qed.

Lemma remove_first_app (entity : ref) (solid rest : list ref) :
  entity ∉ solid ->
  remove_first entity (solid ++ entity :: rest) = solid ++ rest.
Proof.
  induction solid as [|r solid IH]; simpl; intros H.
  - by rewrite decide_True.
  - apply not_elem_of_cons in H as [Hne Hin].
    rewrite decide_False by done. by rewrite IH.
Qed.

Lemma qualifying_immobile (e : Entity) (types : list string) :
  immobile e = true -> qualifying e types = 0%nat.
Proof.
  intros Hi. induction types as [|t types IH]; [done|]. simpl.
  destruct (solidCollisions e !! t) as [[|r l]|]; try done. by rewrite Hi.
Qed.

Lemma remove_for_types_undoes_add (e : Entity) (entity : ref)
    (types : list string) (solid : list ref) :
  entity ∉ solid ->
  (forall t, t ∈ types -> is_Some (solidCollisions e !! t)) ->
  remove_for_types e entity types
    (solid ++ replicate (qualifying e types) entity) = Some solid.
Proof.
  intros Hin. induction types as [|t types IH]; intros Hall; simpl.
  - by rewrite app_nil_r.
  - destruct (Hall t) as [responses Hr]; [apply elem_of_cons; by left|].
    assert (forall t', t' ∈ types -> is_Some (solidCollisions e !! t')) as Hall'.
    { intros t' Ht'. apply Hall, elem_of_cons. by right. }
    rewrite Hr. simpl. destruct responses as [|r responses]; simpl; [by apply IH|].
    destruct (immobile e) eqn:Hi.
    + rewrite qualifying_immobile in * by exact Hi. simpl in *.
      rewrite app_nil_r in *. rewrite remove_first_absent by exact Hin.
      by apply IH.
    + simpl. rewrite remove_first_app by exact Hin. by apply IH.
Qed.

(** *** Relocation *)

Lemma update_entity_Some (h : Heap) (r : ref) (f : Entity -> Entity) (e : Entity) :
  ents h !! r = Some e ->
  update_entity h r f = Some (set_ents h (<[r := f e]> (ents h))).
Proof. intros H. unfold update_entity. by rewrite H. Qed.




(** What the four statements after a member's relocation come to. *)
Lemma carry_member_carried (h2 : Heap) (owner entity : ref) (e o : Entity) :
  ents h2 !! entity = Some e ->
  ents h2 !! owner = Some o ->
  carry_member h2 owner entity =
  Some (set_ents h2 (<[entity := CollisionGroupSpec.carried owner entity e o]>
                       (ents h2))).
Proof.
  intros He Ho. unfold carry_member, CollisionGroupSpec.carried.
  rewrite (update_entity_Some h2 entity _ e He). simpl.
  erewrite update_entity_Some by (simpl; apply lookup_insert_eq). simpl.
  destruct (decide (entity <> owner)) as [Hne|Heq].
  - rewrite decide_False by exact Hne.
    rewrite lookup_insert_ne, lookup_insert_ne, Ho by done. simpl.
    erewrite update_entity_Some by (simpl; apply lookup_insert_eq). simpl.
    rewrite !lookup_insert_ne, Ho by done. simpl.
    erewrite update_entity_Some by (simpl; apply lookup_insert_eq). simpl.
    unfold set_ents. simpl. by rewrite !insert_insert_eq.
  - rewrite decide_True by (by destruct (decide (entity = owner))).
    unfold set_ents. simpl. by rewrite !insert_insert_eq.
Qed.


Section RelocationFacts.

Variable entity_relocateEntity : Heap -> ref -> Vector -> CollisionData -> Heap.
Variable nested : Heap -> ref -> Vector -> CollisionData -> option Heap.
Variable owner : ref.
Variable vector : Vector.
Variable collisionData : CollisionData.

Local Abbreviation relocate_child :=
  (relocate_child entity_relocateEntity nested owner vector collisionData).
Local Abbreviation relocate_member :=
  (relocate_member entity_relocateEntity nested owner vector collisionData).



End RelocationFacts.


(** *** Boxes *)

Lemma qmin_le_l (a b : Qc) : qmin a b <= a.
Proof.
  unfold qmin. destruct (decide (a <= b)) as [H|H]; [apply Qcle_refl|].
  apply Qclt_le_weak, Qclt_nge, H.
Qed.

Lemma qmin_le_r (a b : Qc) : qmin a b <= b.
Proof. unfold qmin. destruct (decide (a <= b)); [done|apply Qcle_refl]. Qed.

Lemma qmax_ge_l (a b : Qc) : a <= qmax a b.
Proof. unfold qmax. destruct (decide (a <= b)); [done|apply Qcle_refl]. Qed.

Lemma qmax_ge_r (a b : Qc) : b <= qmax a b.
Proof.
  unfold qmax. destruct (decide (a <= b)) as [H|H]; [apply Qcle_refl|].
  apply Qclt_le_weak, Qclt_nge, H.
Qed.

Lemma encloses_refl (a : AABB) : encloses a a.
Proof. destruct a as [a|]; simpl; [|done]. repeat split; apply Qcle_refl. Qed.

Lemma encloses_trans (a b c : AABB) :
  encloses a b -> encloses b c -> encloses a c.
Proof.
  destruct a as [a|], b as [b|], c as [c|]; simpl; try done.
  intros (H1 & H2 & H3 & H4) (K1 & K2 & K3 & K4).
  repeat split; eapply Qcle_trans; eauto.
Qed.

Lemma encloses_include_l (a b : AABB) : encloses (include a b) a.
Proof.
  destruct a as [a|], b as [b|]; simpl; try done;
    repeat split; auto using qmin_le_l, qmax_ge_l, Qcle_refl.
Qed.

Lemma encloses_include_r (a b : AABB) : encloses (include a b) b.
Proof.
  destruct a as [a|], b as [b|]; simpl; try done;
    repeat split; auto using qmin_le_r, qmax_ge_r, Qcle_refl.
Qed.

(** A box that has taken in a list of boxes holds each of them, and
    what it held before. *)
Lemma foldl_include_encloses {A : Type} (f : A -> AABB) (l : list A)
    (acc : AABB) :
  encloses (foldl (fun b c => include b (f c)) acc l) acc /\
  forall c, c ∈ l -> encloses (foldl (fun b c => include b (f c)) acc l) (f c).
Proof.
  revert acc. induction l as [|c0 l IH]; intros acc; simpl.
  - split; [apply encloses_refl|]. intros c H. by apply elem_of_nil in H.
  - destruct (IH (include acc (f c0))) as [Hacc Hall]. split.
    + eapply encloses_trans; [exact Hacc|apply encloses_include_l].
    + intros c Hc. apply elem_of_cons in Hc as [->|Hc]; [|by apply Hall].
      eapply encloses_trans; [exact Hacc|apply encloses_include_r].
Qed.

(** The union over a group holds the own box of every leaf under it. *)
Lemma union_AABB_encloses_leaf (own : Entity -> option string -> AABB)
    (h : Heap) (collisionType : option string) (n : nat) :
  forall owner leaf e,
    leaf_of h n owner leaf -> ents h !! leaf = Some e ->
    encloses (union_AABB own h n owner collisionType) (own e collisionType).
Proof.
  induction n as [|n IH]; intros owner leaf e Hleaf He; [done|].
  destruct Hleaf as (g & child & Hg & Hin & Hchild). simpl. rewrite Hg.
  set (f := fun child =>
              if delegates h owner child
              then union_AABB own h n child collisionType
              else match ents h !! child with
                   | Some e => own e collisionType
                   | None => None
                   end).
  destruct (foldl_include_encloses f (solidEntities g) None) as [_ Hall].
  eapply encloses_trans; [apply (Hall child Hin)|].
  unfold f. destruct (delegates h owner child).
  - by apply (IH child leaf e).
  - subst child. rewrite He. apply encloses_refl.
Qed.

(** *** Bounding-box queries *)

Lemma foldl_agree {A B : Type} (f g : A -> B -> A) (l : list B) (a : A) :
  (forall a b, b ∈ l -> f a b = g a b) -> foldl f a l = foldl g a l.
Proof.
  revert a. induction l as [|b l IH]; intros a H; [done|]. simpl.
  rewrite H by (apply elem_of_cons; by left).
  apply IH. intros a' b' Hb'. apply H, elem_of_cons. by right.
Qed.

Lemma nests_ents (h1 h2 : Heap) (n : nat) :
  ents h1 = ents h2 -> forall owner, nests h1 n owner -> nests h2 n owner.
Proof.
  intros He. induction n as [|n IH]; intros owner; [done|]. simpl.
  intros (g & Hg & Hall). exists g. split.
  - by rewrite <- (group_of_ents h1 h2).
  - intros child Hc. destruct (Hall child Hc) as [Hex Hnest]. split.
    + by rewrite <- He.
    + rewrite <- (delegates_ents h1 h2) by exact He. intros Hd. by apply IH, Hnest.
Qed.

Lemma union_AABB_ents (own : Entity -> option string -> AABB) (h1 h2 : Heap)
    (collisionType : option string) (n : nat) :
  ents h1 = ents h2 ->
  forall owner, union_AABB own h1 n owner collisionType =
                union_AABB own h2 n owner collisionType.
Proof.
  intros He. induction n as [|n IH]; intros owner; [done|]. simpl.
  rewrite (group_of_ents h1 h2) by exact He.
  destruct (group_of h2 owner) as [g|]; [|done].
  apply foldl_agree. intros acc child _.
  by rewrite (delegates_ents h1 h2), IH, He.
Qed.

Section QueryFacts.

Variable cached : Group -> ref.
Variable own : Entity -> option string -> AABB.
Variable collisionType : option string.

Local Abbreviation query_ok n :=
  (forall h owner, nests h n owner ->
     exists h' a,
       query_AABB cached own n h owner collisionType = Some (h', a) /\
       ents h' = ents h /\
       (a ∉ dom (boxes h)) /\
       boxes h ⊆ boxes h' /\
       boxes h' !! a = Some (union_AABB own h n owner collisionType)).

Lemma foldl_include_member (n : nat) (h : Heap) (owner a : ref) :
  query_ok n ->
  boxes h !! a = None ->
  forall l h1 acc,
    ents h1 = ents h ->
    boxes h ⊆ boxes h1 ->
    boxes h1 !! a = Some acc ->
    (forall child, child ∈ l ->
       is_Some (ents h !! child) /\
       (delegates h owner child = true -> nests h n child)) ->
    exists h',
      foldl (include_member own (query_AABB cached own n) owner collisionType a)
        (Some h1) l = Some h' /\
      ents h' = ents h /\
      boxes h ⊆ boxes h' /\
      boxes h' !! a =
        Some (foldl
                (fun acc child =>
                   include acc
                     (if delegates h owner child
                      then union_AABB own h n child collisionType
                      else match ents h !! child with
                           | Some e => own e collisionType
                           | None => None
                           end))
                acc l).
Proof.
  intros IH Ha. induction l as [|child l IHl]; intros h1 acc He Hsub Hacc Hall.
  - exists h1. by repeat split.
  - destruct (Hall child) as [[e Hchild] Hnest]; [apply elem_of_cons; by left|].
    assert (forall c, c ∈ l ->
              is_Some (ents h !! c) /\
              (delegates h owner c = true -> nests h n c)) as Hall'.
    { intros c Hc. apply Hall, elem_of_cons. by right. }
    change (foldl ?f (Some h1) (child :: l))
      with (foldl f (f (Some h1) child) l).
    unfold include_member at 2. simpl.
    rewrite (delegates_ents h1 h owner child He).
    destruct (delegates h owner child) eqn:Hd.
    + destruct (IH h1 child) as (h2 & b & Hq & He2 & Hb & Hsub2 & Hbox).
      { apply (nests_ents h h1); [done|by apply Hnest]. }
      rewrite Hq. simpl. rewrite Hbox. simpl.
      assert (boxes h2 !! a = Some acc) as Hacc2.
      { by apply (lookup_weaken (boxes h1)). }
      unfold include_at. rewrite Hacc2. simpl.
      rewrite (union_AABB_ents own h1 h) by exact He.
      apply IHl; simpl; try done.
      * congruence.
      * apply insert_subseteq_r; [exact Ha|]. by etrans.
      * apply lookup_insert_eq.
    + rewrite He, Hchild. simpl.
      unfold include_at. rewrite Hacc. simpl.
      apply IHl; simpl; try done.
      * by apply insert_subseteq_r.
      * apply lookup_insert_eq.
Qed.

Lemma query_AABB_filtered (n : nat) :
  no_filter collisionType = false -> query_ok n.
Proof.
  intros Hf. induction n as [|n IH]; intros h owner Hn; [done|].
  destruct Hn as (g & Hg & Hall). simpl. rewrite Hg. simpl. rewrite Hf.
  set (a := fresh (dom (boxes h))).
  assert (a ∉ dom (boxes h)) as Hfresh by apply is_fresh.
  assert (boxes h !! a = None) as Ha by by apply not_elem_of_dom.
  destruct (foldl_include_member n h owner a IH Ha (solidEntities g)
              (set_boxes h (<[a:=None]> (boxes h))) None)
    as (h' & Hfold & He & Hsub & Hbox); simpl; try done.
  - by apply insert_subseteq.
  - apply lookup_insert_eq.
  - exists h', a. split; [|by repeat split].
    change (foldl
              (include_member own (query_AABB cached own n) owner collisionType a)
              (Some (set_boxes h (<[a:=None]> (boxes h)))) (solidEntities g)
            ≫= (fun h1 => Some (h1, a)) = Some (h', a)).
    by rewrite Hfold.
Qed.

Lemma query_AABB_unfiltered (n : nat) (h : Heap) (owner : ref) (g : Group) :
  no_filter collisionType = true ->
  group_of h owner = Some g ->
  query_AABB cached own (S n) h owner collisionType = Some (h, cached g).
Proof. intros Hf Hg. simpl. rewrite Hg. simpl. by rewrite Hf. Qed.

End QueryFacts.

(** C9.  On a group whose nesting is at most [n] deep, [getAABB] and
    [getPreviousAABB] with [n] levels of calls return.  With no collision
    type they hand back the cached box and leave the heap as it is.  With
    one, they hand back a box that did not exist before, holding the
    union over the members (through the group of a member that is not
    the owner and has one), in a heap where every entity and every earlier
    box is unchanged; that union holds the own box of every leaf. *)
Theorem getAABB_fresh_union (h : Heap) (n : nat) (owner : ref) (g : Group)
    (collisionType : option string) :
  nests h n owner ->
  group_of h owner = Some g ->
  (no_filter collisionType = true ->
     getAABB n h owner collisionType = Some (h, aabb g) /\
     getPreviousAABB n h owner collisionType = Some (h, prevAABB g))
  /\
  (no_filter collisionType = false ->
     answers_fresh_union own_getAABB h n owner collisionType
       (getAABB n h owner collisionType) /\
     answers_fresh_union own_getPreviousAABB h n owner collisionType
       (getPreviousAABB n h owner collisionType) /\
     forall leaf e,
       leaf_of h n owner leaf -> ents h !! leaf = Some e ->
       encloses (union_AABB own_getAABB h n owner collisionType)
                (own_getAABB e collisionType) /\
       encloses (union_AABB own_getPreviousAABB h n owner collisionType)
                (own_getPreviousAABB e collisionType)).
Proof.
  intros Hn Hg. split.
  - intros Hf. destruct n as [|n]; [done|].
    split; by apply query_AABB_unfiltered.
  - intros Hf. split; [|split].
    + destruct (query_AABB_filtered aabb own_getAABB collisionType n Hf
                  h owner Hn) as (h' & a & Hq & He & Ha & Hsub & Hbox).
      by exists h', a.
    + destruct (query_AABB_filtered prevAABB own_getPreviousAABB collisionType
                  n Hf h owner Hn) as (h' & a & Hq & He & Ha & Hsub & Hbox).
      by exists h', a.
    + intros leaf e Hleaf He. split; by apply (union_AABB_encloses_leaf _ _ _ _ _ leaf).
Qed.

End CollisionGroupFacts.

(** *** The collision group on a small scene *)

Section CollisionGroupExamples.

Import CollisionGroup CollisionGroupSpec CollisionScene.

Lemma empty_platform_well_formed : well_formed empty_platform.
Proof.
  intros o e g Ho Hg. unfold empty_platform in Ho. simpl in Ho.
  destruct (decide (o = 0%nat)) as [->|H0].
  - rewrite lookup_insert_eq in Ho. injection Ho as <-.
    injection Hg as <-. simpl. split; [by eexists|].
    intros member H. by apply elem_of_nil in H.
  - rewrite lookup_insert_ne in Ho by done.
    destruct (decide (o = 1%nat)) as [->|H1].
    + rewrite lookup_singleton_eq in Ho. injection Ho as <-. discriminate.
    + by rewrite lookup_singleton_ne in Ho.
Qed.

(** C2, as stated, fails.  One ['child-entity-added'] for the crate,
    which lists two collision types with a response each, puts the crate
    in [solidEntities] twice. *)
Lemma child_entity_added_duplicates :
  (h' ← child_entity_added empty_platform 0%nat 1%nat;
   g' ← group_of h' 0%nat;
   Some (solidEntities g')) = Some [1%nat; 1%nat]
  /\ ~ NoDup [1%nat; 1%nat].
Proof.
  split; [by vm_compute|].
  intros H. apply NoDup_cons in H as [H _]. apply H, elem_of_cons. by left.
Qed.

Lemma addCollisionEntity_appends_per_type_witness :
  exists h' g',
    child_entity_added empty_platform 0%nat 1%nat = Some h' /\
    add_collision_entity empty_platform 0%nat 1%nat = Some h' /\
    group_of h' 0%nat = Some g' /\
    solidEntities g' =
      [] ++ replicate (qualifying (body 20 0 None) ["solid"; "hero"]) 1%nat.
Proof.
  apply (addCollisionEntity_appends_per_type empty_platform 0%nat 1%nat
           {| solidEntities := []; aabb := 0%nat; prevAABB := 1%nat |}
           (body 20 0 None) ["solid"; "hero"]).
  - exact empty_platform_well_formed.
  - reflexivity.
  - reflexivity.
  - reflexivity.
  - intros t Ht. apply elem_of_cons in Ht as [->|Ht]; [by eexists|].
    apply elem_of_cons in Ht as [->|Ht]; [by eexists|].
    by apply elem_of_nil in Ht.
Defined.


Lemma stacked_nests : nests stacked 2 0%nat.
Proof.
  exists {| solidEntities := [0%nat; 1%nat]; aabb := 0%nat; prevAABB := 1%nat |}.
  split; [reflexivity|]. intros child Hc.
  apply elem_of_cons in Hc as [->|Hc]; [split; [by eexists|discriminate]|].
  apply elem_of_cons in Hc as [->|Hc]; [|by apply elem_of_nil in Hc].
  split; [by eexists|]. intros _.
  exists {| solidEntities := [1%nat; 2%nat]; aabb := 2%nat; prevAABB := 3%nat |}.
  split; [reflexivity|]. intros child Hc.
  apply elem_of_cons in Hc as [->|Hc]; [split; [by eexists|discriminate]|].
  apply elem_of_cons in Hc as [->|Hc]; [|by apply elem_of_nil in Hc].
  split; [by eexists|discriminate].
Qed.

Lemma passenger_is_leaf : leaf_of stacked 2 0%nat 2%nat.
Proof.
  exists {| solidEntities := [0%nat; 1%nat]; aabb := 0%nat; prevAABB := 1%nat |},
         1%nat.
  split; [reflexivity|]. split; [apply elem_of_cons; right; apply elem_of_cons; by left|].
  change (leaf_of stacked 1 1%nat 2%nat).
  exists {| solidEntities := [1%nat; 2%nat]; aabb := 2%nat; prevAABB := 3%nat |},
         2%nat.
  split; [reflexivity|]. split; [apply elem_of_cons; right; apply elem_of_cons; by left|].
  reflexivity.
Qed.

(** The platform carries a crate that carries a passenger.  Without a
    collision type the query hands back the platform's cached box; for
    ["solid"] it builds a new box, which holds the passenger's. *)
Lemma getAABB_fresh_union_witness :
  (getAABB 2 stacked 0%nat None = Some (stacked, 0%nat) /\
   getPreviousAABB 2 stacked 0%nat None = Some (stacked, 1%nat)) /\
  answers_fresh_union own_getAABB stacked 2 0%nat (Some "solid")
    (getAABB 2 stacked 0%nat (Some "solid")) /\
  answers_fresh_union own_getPreviousAABB stacked 2 0%nat (Some "solid")
    (getPreviousAABB 2 stacked 0%nat (Some "solid")) /\
  encloses (union_AABB own_getAABB stacked 2 0%nat (Some "solid"))
           (square 20 (-10) 10).
Proof.
  pose proof (getAABB_fresh_union stacked 2 0%nat
                {| solidEntities := [0%nat; 1%nat]; aabb := 0%nat;
                   prevAABB := 1%nat |}) as H.
  split.
  - apply (H None stacked_nests); reflexivity.
  - destruct (H (Some "solid") stacked_nests) as [_ Hf]; [reflexivity|].
    destruct Hf as (H1 & H2 & H3); [reflexivity|].
    split; [exact H1|]. split; [exact H2|].
    apply (H3 2%nat (body 20 (-10) None) passenger_is_leaf). reflexivity.
Defined.

Example stacked_solid_box :
  ('(h', a) ← getAABB 2 stacked 0%nat (Some "solid"); boxes h' !! a) =
  Some (Some {| box_left := Qc_of_Z 0; box_top := Qc_of_Z (-10);
                box_right := Qc_of_Z 30; box_bottom := Qc_of_Z 10 |}).
Proof. by vm_compute. Qed.

End CollisionGroupExamples.

(** ** More on the logic scheduler *)

Section SchedulerMore.

Import JSNumber HandlerLogic HandlerLogicBus.

Context {Entity World : Type}.
Variable getMessageIds : Entity -> list string.
Variable entity_x entity_y : World -> Entity -> option double.
Variable trigger_handle_logic :
  World -> Entity -> Message -> World * bool * list (Delivery Entity).
Variable trigger_check_collision_group :
  World -> Message -> World * list (Delivery Entity).
Variable trigger_time_elapsed : World -> string -> World * list (Delivery Entity).

Local Abbreviation logic_pass :=
  (logic_pass Entity World getMessageIds entity_x entity_y
     trigger_handle_logic).
Local Abbreviation step :=
  (step Entity World getMessageIds entity_x entity_y trigger_handle_logic
     trigger_check_collision_group trigger_time_elapsed).
Local Abbreviation steps :=
  (steps Entity World getMessageIds entity_x entity_y trigger_handle_logic
     trigger_check_collision_group trigger_time_elapsed).
Local Abbreviation tick :=
  (tick Entity World getMessageIds entity_x entity_y trigger_handle_logic
     trigger_check_collision_group trigger_time_elapsed).
Local Abbreviation deliver :=
  (deliver Entity World getMessageIds entity_x entity_y trigger_handle_logic
     trigger_check_collision_group trigger_time_elapsed).
Local Abbreviation deliver_all :=
  (deliver_all Entity World getMessageIds entity_x entity_y
     trigger_handle_logic trigger_check_collision_group trigger_time_elapsed).
Local Abbreviation steps_run := (steps_run Entity).
Local Abbreviation dispatched_to := (dispatched_to Entity).
Local Abbreviation receive_all := (receive_all Entity getMessageIds).
Local Abbreviation registrations := (registrations Entity getMessageIds).
Local Abbreviation message_of := (message_of Entity).
Local Abbreviation State := (State Entity).
Local Abbreviation Incoming := (Incoming Entity).
Local Abbreviation quiet_children :=
  (quiet_children Entity World trigger_handle_logic).
Local Abbreviation quiet_owner :=
  (quiet_owner Entity World trigger_check_collision_group
     trigger_time_elapsed).
Local Abbreviation listening :=
  (fun e : Entity => listens_handle_logic (getMessageIds e) = true).

(** *** One pass over the registered entities *)

Lemma take_delete_same {A : Type} (l : list A) (x : nat) :
  (x < length l)%nat -> take x (delete x l) = take x l.
Proof.
  intros Hx. rewrite delete_take_drop.
  apply take_app_length'. rewrite length_take_le; lia.
Qed.

Lemma drop_delete_same {A : Type} (l : list A) (x : nat) :
  (x < length l)%nat -> drop x (delete x l) = drop (S x) l.
Proof.
  intros Hx. rewrite delete_take_drop.
  rewrite <- (length_take_le l x) at 1 by lia. apply drop_app_length.
Qed.

Lemma registrations_listen (ds : list (Delivery Entity)) :
  Forall listening (registrations ds).
Proof.
  induction ds as [|d ds IH]; [constructor|].
  destruct d as [e|u]; [|exact IH].
  unfold HandlerLogic.registrations. simpl.
  destruct (listens_handle_logic (getMessageIds e)) eqn:E; [|exact IH].
  by constructor.
Qed.

(** The list after one dispatch at index [x]: the entries below [x] are
    as before, and above them come the entry itself if it answered, the
    entries that were above it, and what the listeners registered. *)
Lemma after_dispatch_entities (s : State) (x : nat) (child : Entity)
    (listened : bool) (delivered : list (Delivery Entity)) :
  entities Entity s !! x = Some child ->
  let s2 := if listened then receive_all s delivered
            else set_entities Entity (receive_all s delivered)
                   (delete x (entities Entity (receive_all s delivered))) in
  take x (entities Entity s2) = take x (entities Entity s) /\
  drop x (entities Entity s2) =
    (if listened then [child] else []) ++
    drop (S x) (entities Entity s) ++ registrations delivered /\
  (x <= length (entities Entity s2))%nat.
Proof.
  intros Hx. pose proof (lookup_lt_Some _ _ _ Hx) as Hlt.
  pose proof (receive_all_entities getMessageIds s delivered) as E.
  destruct listened; cbn zeta; cbn [entities set_entities]; rewrite E.
  - rewrite take_app_le, drop_app_le by lia.
    rewrite (drop_S _ _ _ Hx). split; [done|]. split; [done|].
    rewrite length_app. lia.
  - assert (x < length (entities Entity s ++ registrations delivered))%nat
      as Hlt' by (rewrite length_app; lia).
    rewrite take_delete_same, drop_delete_same by done.
    rewrite take_app_le, drop_app_le by lia.
    split; [done|]. split; [done|].
    rewrite length_delete by (apply lookup_lt_is_Some; lia). lia.
Qed.

(** A pass over the first [n] entries keeps a sublist of them, in order,
    leaves the entries above untouched, appends what the listeners have
    registered, and sends to the entries from the last to the first, to
    each at most once. *)
Lemma logic_pass_shape n : forall w (s : State),
  (n <= length (entities Entity s))%nat ->
  exists kept added,
    entities Entity (logic_pass n w s []).1.2 =
      kept ++ drop n (entities Entity s) ++ added /\
    kept `sublist_of` take n (entities Entity s) /\
    Forall listening added /\
    (dispatched_to (logic_pass n w s []).2).*1
      `sublist_of` reverse (take n (entities Entity s)) /\
    (quiet_children ->
     added = [] /\
     camera Entity (logic_pass n w s []).1.2 = camera Entity s /\
     Forall (fun d => d.2 = message_of s)
       (dispatched_to (logic_pass n w s []).2)).
Proof.
  induction n as [|x IH]; intros w s Hn.
  - exists [], []. simpl. rewrite drop_0, app_nil_r.
    split; [done|]. split; [done|]. split; [done|]. split; [done|].
    by intros _.
  - destruct (lookup_lt_is_Some_2 (entities Entity s) x) as [child Hchild];
      [lia|].
    assert (forall w1,
              exists kept added,
                entities Entity (logic_pass x w1 s []).1.2 =
                  kept ++ drop (S x) (entities Entity s) ++ added /\
                kept `sublist_of` take (S x) (entities Entity s) /\
                Forall listening added /\
                (dispatched_to (logic_pass x w1 s []).2).*1
                  `sublist_of` reverse (take x (entities Entity s)) /\
                (quiet_children ->
                 added = [] /\
                 camera Entity (logic_pass x w1 s []).1.2 = camera Entity s /\
                 Forall (fun d => d.2 = message_of s)
                   (dispatched_to (logic_pass x w1 s []).2))) as Hsame.
    { intros w1.
      destruct (IH w1 s) as (kept & added & E & Hk & Ha & Hd & Hq); [lia|].
      exists (kept ++ [child]), added.
      rewrite E, (drop_S _ _ _ Hchild), (take_S_r _ _ _ Hchild).
      rewrite <- app_assoc.
      split; [done|]. split; [by apply sublist_app|]. done. }
    cbn [HandlerLogic.logic_pass].
    rewrite Hchild, (take_S_r _ _ _ Hchild), reverse_snoc.
    destruct (in_window _ _ _).
    + pose proof (fun H : quiet_children => H w child (message_of s)) as Hquiet.
      destruct (trigger_handle_logic w child (message_of s))
        as [[w' listened] delivered].
      cbn [snd] in Hquiet.
      rewrite logic_pass_app. cbn [fst snd].
      destruct (after_dispatch_entities s x child listened delivered Hchild)
        as (Et & Ed & Hlen).
      set (s2 := if listened then _ else _) in *.
      destruct (IH w' s2 Hlen) as (kept & added & E & Hk & Ha & Hd & Hq).
      rewrite Et in Hk, Hd. rewrite Ed in E.
      exists (kept ++ if listened then [child] else []),
             (registrations delivered ++ added).
      split; [|split; [|split; [|split]]].
      * rewrite E. by rewrite <- !app_assoc.
      * apply sublist_app; [done|].
        destruct listened; [done|]. apply sublist_nil_l.
      * apply Forall_app. split; [apply registrations_listen|done].
      * simpl. by apply sublist_skip.
      * intros Hqc. destruct (Hq Hqc) as (-> & Hc & Hm).
        pose proof (Hquiet Hqc) as Hdel.
        assert (camera Entity s2 = camera Entity s /\
                message_of s2 = message_of s) as [Ec Em].
        { unfold s2. rewrite Hdel. by destruct listened. }
        split; [by rewrite Hdel|]. split; [by rewrite Hc|].
        simpl. constructor; [done|]. by rewrite <- Em.
    + destruct (Hsame w) as (kept & added & E & Hk & Ha & Hd & Hq).
      exists kept, added. rewrite (take_S_r _ _ _ Hchild) in Hk.
      split; [done|]. split; [done|]. split; [done|].
      split; [by apply sublist_cons|done].
Qed.


(** *** The list over a whole tick *)

Lemma step_app w (s : State) out :
  step (w, s, out) = ((step (w, s, [])).1, out ++ (step (w, s, [])).2).
Proof.
  unfold HandlerLogic.step.
  rewrite (logic_pass_app getMessageIds entity_x entity_y
             trigger_handle_logic _ w s out).
  destruct (logic_pass (length (entities Entity s)) w s [])
    as [[w1 s1] out1].
  cbn [fst snd].
  destruct (trigger_time_elapsed w1 "Logic") as [w2 d2].
  destruct (trigger_check_collision_group w2 _) as [w3 d3].
  destruct (trigger_time_elapsed w3 "Collision") as [w4 d4].
  cbn [fst snd]. by rewrite <- app_assoc.
Qed.

Lemma receive_all_nil (s : State) : receive_all s [] = s.
Proof. reflexivity. Qed.

Lemma step_shape w (s : State) :
  exists kept added,
    entities Entity (step (w, s, [])).1.2 = kept ++ added /\
    kept `sublist_of` entities Entity s /\
    Forall listening added /\
    (quiet_children -> quiet_owner ->
     added = [] /\ camera Entity (step (w, s, [])).1.2 = camera Entity s).
Proof.
  unfold HandlerLogic.step.
  destruct (logic_pass_shape (length (entities Entity s)) w s)
    as (kept & added & E & Hk & Ha & _ & Hq); [lia|].
  rewrite firstn_all in Hk. rewrite drop_all in E. simpl in E.
  destruct (logic_pass (length (entities Entity s)) w s [])
    as [[w1 s1] out1].
  cbn [fst snd] in *.
  pose proof (fun H : quiet_owner => proj2 H w1 "Logic") as Q2.
  destruct (trigger_time_elapsed w1 "Logic") as [w2 d2].
  pose proof (fun H : quiet_owner =>
                proj1 H w2 (message_of (receive_all s1 d2))) as Q3.
  destruct (trigger_check_collision_group w2 _) as [w3 d3].
  pose proof (fun H : quiet_owner => proj2 H w3 "Collision") as Q4.
  destruct (trigger_time_elapsed w3 "Collision") as [w4 d4].
  cbn [fst snd] in *.
  exists kept,
    (added ++ registrations d2 ++ registrations d3 ++ registrations d4).
  split; [|split; [done|split]].
  - rewrite !(receive_all_entities getMessageIds), E.
    by rewrite <- !app_assoc.
  - rewrite !Forall_app. by repeat split; try apply registrations_listen.
  - intros Hqc Hqo. destruct (Hq Hqc) as (-> & Hc & _).
    rewrite (Q2 Hqo), (Q3 Hqo), (Q4 Hqo). by rewrite !receive_all_nil.
Qed.

Lemma steps_shape n : forall st,
  exists kept added,
    entities Entity (steps n st).1.2 = kept ++ added /\
    kept `sublist_of` entities Entity st.1.2 /\
    Forall listening added /\
    (quiet_children -> quiet_owner ->
     added = [] /\ camera Entity (steps n st).1.2 = camera Entity st.1.2).
Proof.
  induction n as [|k IH]; intros [[w s] out].
  - exists (entities Entity s), []. simpl. rewrite app_nil_r.
    split; [done|]. split; [done|]. split; [done|]. done.
  - cbn [HandlerLogic.steps]. rewrite step_app.
    destruct (step_shape w s) as (k1 & a1 & E1 & Hk1 & Ha1 & Hq1).
    destruct (step (w, s, [])) as [[w1 s1] out1]. cbn [fst snd] in *.
    destruct (IH (w1, s1, out ++ out1)) as (k2 & a2 & E2 & Hk2 & Ha2 & Hq2).
    cbn [fst snd] in *. rewrite E1 in Hk2.
    apply sublist_app_r in Hk2 as (ka & kb & -> & Hka & Hkb).
    exists ka, (kb ++ a2).
    split; [by rewrite E2, <- app_assoc|].
    split; [by etrans|]. split.
    + apply Forall_app. split; [|done].
      rewrite Forall_forall in Ha1 |- *. intros e He. apply Ha1.
      by eapply elem_of_sublist.
    + intros Hqc Hqo. destruct (Hq1 Hqc Hqo) as [-> Hc1].
      destruct (Hq2 Hqc Hqo) as [-> Hc2].
      apply sublist_nil_r in Hkb as ->. split; [done|]. by rewrite Hc2.
Qed.

Lemma tick_config (s : State) (dt : double) (w : World) :
  (exists kept added,
     entities Entity (tick s dt w).1.1 = kept ++ added /\
     kept `sublist_of` entities Entity s /\
     Forall listening added /\
     (quiet_children -> quiet_owner ->
      added = [] /\ camera Entity (tick s dt w).1.1 = camera Entity s)) /\
  stepLength Entity (tick s dt w).1.1 = stepLength Entity s /\
  maximumStepsPerTick Entity (tick s dt w).1.1 = maximumStepsPerTick Entity s /\
  leftoverTime Entity (tick s dt w).1.1 = zero.
Proof.
  destruct (tick_fields getMessageIds entity_x entity_y trigger_handle_logic
              trigger_check_collision_group trigger_time_elapsed s dt w)
    as (Hl & _ & Hs & Hm).
  split; [|done].
  unfold HandlerLogic.tick. cbv zeta.
  set (s0 := {| entities := _; leftoverTime := zero |}).
  set (n := iterations _).
  destruct (steps_shape n (w, s0, [])) as (kept & added & E & Hk & Ha & Hq).
  destruct (steps n (w, s0, [])) as [[w' s'] out]. cbn [fst snd] in *.
  pose proof (fun (H : quiet_owner) name => proj2 H w' name) as Q.
  destruct (trigger_time_elapsed w' _) as [w'' delivered] eqn:T.
  cbn [fst snd].
  exists kept, (added ++ registrations delivered).
  split; [|split; [done|split]].
  - rewrite (receive_all_entities getMessageIds). cbn [entities].
    by rewrite E, <- app_assoc.
  - apply Forall_app. split; [done|apply registrations_listen].
  - intros Hqc Hqo. destruct (Hq Hqc Hqo) as [-> Hc].
    assert (delivered = []) as ->.
    { pose proof (Q Hqo (if decide (n = 0%nat)
                         then timeElapsed_name Entity s
                         else "Collision")) as H.
      by rewrite T in H. }
    split; [done|]. rewrite receive_all_nil. exact Hc.
Qed.


(** *** Entities that answer *)

Section Answering.

(** No listener sends anything to the scheduler, every entity is inside
    the window, and whether a dispatch finds a listener depends on the
    entity alone. *)
Variable m : Message.
Variable listens : Entity -> bool.
Hypothesis quiet : quiet_children.
Hypothesis all_in_window :
  forall w e, in_window (msg_camera m) (entity_x w e) (entity_y w e) = true.
Hypothesis answer :
  forall w e, (trigger_handle_logic w e m).1.2 = listens e.

Lemma logic_pass_filter n : forall w (s : State),
  message_of s = m ->
  (n <= length (entities Entity s))%nat ->
  entities Entity (logic_pass n w s []).1.2 =
    filter (fun e => listens e = true) (take n (entities Entity s))
    ++ drop n (entities Entity s) /\
  dispatched_to (logic_pass n w s []).2 =
    (fun e => (e, m)) <$> reverse (take n (entities Entity s)).
Proof.
  induction n as [|x IH]; intros w s Hm Hn.
  - simpl. by rewrite drop_0.
  - destruct (lookup_lt_is_Some_2 (entities Entity s) x) as [child Hchild];
      [lia|].
    cbn [HandlerLogic.logic_pass]. rewrite Hchild.
    replace (camera Entity s) with (msg_camera m) by (by rewrite <- Hm).
    rewrite all_in_window, Hm.
    pose proof (answer w child) as Ha.
    pose proof (quiet w child m) as Hq.
    destruct (trigger_handle_logic w child m) as [[w' listened] delivered].
    cbn [fst snd] in Ha, Hq. subst listened delivered.
    rewrite logic_pass_app. cbn [fst snd app HandlerLogic.dispatched_to].
    destruct (after_dispatch_entities s x child (listens child) [] Hchild)
      as (Et & Ed & Hlen).
    set (s2 := if listens child then _ else _) in *.
    assert (message_of s2 = m) as Hm2.
    { rewrite <- Hm. unfold s2. by destruct (listens child). }
    destruct (IH w' s2 Hm2 Hlen) as [E D].
    rewrite E, D, Et, Ed.
    rewrite (take_S_r _ _ _ Hchild), reverse_snoc, filter_app. simpl.
    rewrite app_nil_r. split; [|done].
    destruct (listens child) eqn:Hl.
    + rewrite filter_cons_True by done. rewrite filter_nil.
      by rewrite <- app_assoc.
    + rewrite filter_cons_False by (by rewrite Hl).
      by rewrite filter_nil, app_nil_r.
Qed.

(** X3.  When no listener sends anything to the scheduler, every
    registered entity is inside the camera window and an entity either
    always or never has a listener, a pass sends ['handle-logic'] to
    every entry exactly once, last registered first, and removes exactly
    the entries without a listener. *)
Theorem logic_pass_removes_silent w (s : State) :
  message_of s = m ->
  entities Entity (logic_pass (length (entities Entity s)) w s []).1.2 =
    filter (fun e => listens e = true) (entities Entity s) /\
  dispatched_to (logic_pass (length (entities Entity s)) w s []).2 =
    (fun e => (e, m)) <$> reverse (entities Entity s).
Proof.
  intros Hm.
  destruct (logic_pass_filter (length (entities Entity s)) w s Hm) as [E D];
    [lia|].
  rewrite firstn_all in E, D. rewrite drop_all, app_nil_r in E. done.
Qed.

End Answering.

(** *** The cap on the steps of a tick *)

Lemma tick_steps_le_cap (s : State) (dt : double) (w : World) (M : Z) :
  whole (Fin (maximumStepsPerTick Entity s)) = Some M ->
  (steps_run (tick s dt w).2 <= Z.to_nat M)%nat.
Proof.
  intros HM.
  destruct (tick_out getMessageIds entity_x entity_y trigger_handle_logic
              trigger_check_collision_group trigger_time_elapsed s dt w)
    as [-> _].
  by apply iterations_min_le.
Qed.

(** What no delivery changes: the cap and the step length; and the
    accumulator is zero between deliveries. *)
Lemma deliver_config (st : State * World * list (Event Entity))
    (msg : Incoming) :
  maximumStepsPerTick Entity (deliver st msg).1.1 =
    maximumStepsPerTick Entity st.1.1 /\
  stepLength Entity (deliver st msg).1.1 = stepLength Entity st.1.1 /\
  (leftoverTime Entity st.1.1 = zero ->
   leftoverTime Entity (deliver st msg).1.1 = zero).
Proof.
  destruct st as [[s w] out].
  destruct msg as [dt|dt|u|e]; cbn [HandlerLogicBus.deliver].
  - destruct (tick_config s dt w) as (_ & Hs & Hm & Hl).
    destruct (tick s dt w) as [[s' w'] sent]. by cbn [fst snd] in *.
  - destruct (tick_config s dt w) as (_ & Hs & Hm & Hl).
    destruct (tick s dt w) as [[s' w'] sent]. by cbn [fst snd] in *.
  - done.
  - cbn [fst snd]. unfold child_entity_added.
    by destruct (listens_handle_logic _).
Qed.

Lemma deliver_all_config (msgs : list Incoming) :
  forall st : State * World * list (Event Entity),
    maximumStepsPerTick Entity (deliver_all st msgs).1.1 =
      maximumStepsPerTick Entity st.1.1 /\
    stepLength Entity (deliver_all st msgs).1.1 = stepLength Entity st.1.1 /\
    (leftoverTime Entity st.1.1 = zero ->
     leftoverTime Entity (deliver_all st msgs).1.1 = zero).
Proof.
  induction msgs as [|msg msgs IH]; intros st; [done|].
  unfold HandlerLogicBus.deliver_all. cbn [foldl].
  destruct (IH (deliver st msg)) as (Hm & Hs & Hl).
  destruct (deliver_config st msg) as (Hm' & Hs' & Hl').
  unfold HandlerLogicBus.deliver_all in *.
  rewrite Hm, Hs, Hm', Hs'. repeat split; auto.
Qed.

(** X4.  However the scheduler was configured and whatever it has been
    sent since, a tick runs at most ten steps, for every [deltaT]. *)
Theorem tick_at_most_ten_steps (definition : Definition_)
    (msgs : list Incoming) (w : World) (dt : double) :
  (steps_run
     (tick (deliver_all (component Entity definition, w, []) msgs).1.1 dt
           (deliver_all (component Entity definition, w, []) msgs).1.2).2
   <= 10)%nat.
Proof.
  apply (tick_steps_le_cap _ _ _ 10%Z).
  destruct (deliver_all_config msgs (component Entity definition, w, []))
    as [-> _].
  apply whole_ten.
Qed.

(** *** Ticks shorter than a step *)

Lemma idle_cycles (s : State) (dt : double) :
  leftoverTime Entity s = zero ->
  (0 <= Fin dt)%num ->
  (Fin dt < Fin (stepLength Entity s))%num ->
  iterations (clamped_cycles Entity s dt) = 0%nat.
Proof.
  intros Hl Hpos Hlt. unfold clamped_cycles, cycles_of. rewrite Hl.
  destruct (add_zero_l dt) as (a & -> & Ea & Hz).
  apply Le_scaled in Hpos. apply Lt_scaled in Hlt.
  change (scaled zero) with 0%Z in Hpos.
  assert (negative a = false) as Hna.
  { destruct (decide (scaled dt = 0%Z)) as [H0|H0]; [by apply Hz|].
    apply scaled_pos_inv. lia. }
  destruct (div_below_one a (stepLength Entity s) Hna) as (q & -> & Hq & Hq1);
    [lia|].
  rewrite (floor_below_one q Hq Hq1). apply iterations_min_zero.
Qed.

(** A tick that runs no step sends one ['time-elapsed'] and nothing
    else. *)
Lemma tick_idle (s : State) (dt : double) (w : World) :
  iterations (clamped_cycles Entity s dt) = 0%nat ->
  (tick s dt w).2 = [TimeElapsed (timeElapsed_name Entity s)].
Proof.
  intros Hn. unfold HandlerLogic.tick. cbv zeta. rewrite Hn.
  cbn [HandlerLogic.steps].
  destruct (decide (0%nat = 0%nat)) as [_|H]; [|done].
  by destruct (trigger_time_elapsed w _).
Qed.

Lemma deliver_tick (s : State) (w : World) (out : list (Event Entity))
    (dt : double) :
  deliver (s, w, out) (Tick dt) =
  ((tick s dt w).1.1, (tick s dt w).1.2, out ++ (tick s dt w).2).
Proof.
  cbn [HandlerLogicBus.deliver]. by destruct (tick s dt w) as [[s' w'] sent].
Qed.

Lemma deliver_short_ticks (dts : list double) :
  forall (s : State) (w : World) (out : list (Event Entity)),
    leftoverTime Entity s = zero ->
    Forall (fun dt => (0 <= Fin dt)%num /\
                      (Fin dt < Fin (stepLength Entity s))%num) dts ->
    steps_run (deliver_all (s, w, out) (Tick <$> dts)).2 = steps_run out /\
    dispatched_to (deliver_all (s, w, out) (Tick <$> dts)).2 =
      dispatched_to out.
Proof.
  induction dts as [|dt dts IH]; intros s w out Hl Hall; [done|].
  apply Forall_cons in Hall as [[H0 H1] Hall].
  rewrite fmap_cons.
  change (deliver_all (s, w, out) (Tick dt :: (Tick <$> dts)))
    with (deliver_all (deliver (s, w, out) (Tick dt)) (Tick <$> dts)).
  rewrite deliver_tick.
  destruct (tick_config s dt w) as (_ & Hs & _ & Hl').
  rewrite (tick_idle s dt w (idle_cycles s dt Hl H0 H1)).
  destruct (IH (tick s dt w).1.1 (tick s dt w).1.2
              (out ++ [TimeElapsed (timeElapsed_name Entity s)]) Hl')
    as (H2 & H3).
  { by rewrite Hs. }
  rewrite H2, H3.
  rewrite (steps_run_app (Entity := Entity)),
          (dispatched_to_app (Entity := Entity)).
  cbn [HandlerLogic.dispatched_to]. rewrite app_nil_r.
  unfold HandlerLogic.steps_run. simpl. split; [lia|done].
Qed.

(** X5.  Time is never carried from one tick to the next: on a scheduler
    as built, and after whatever it has been sent, any number of ticks
    that are each shorter than the step length run no step and send no
    ['handle-logic'], however much time they add up to. *)
Theorem short_ticks_never_step (definition : Definition_)
    (msgs : list Incoming) (w : World) (dts : list double) :
  Forall (fun dt =>
            (0 <= Fin dt)%num /\
            (Fin dt < Fin (stepLength Entity
                   (deliver_all (component Entity definition, w, []) msgs).1.1))%num)
         dts ->
  steps_run
    (deliver_all (deliver_all (component Entity definition, w, []) msgs)
                 (Tick <$> dts)).2 =
  steps_run (deliver_all (component Entity definition, w, []) msgs).2 /\
  dispatched_to
    (deliver_all (deliver_all (component Entity definition, w, []) msgs)
                 (Tick <$> dts)).2 =
  dispatched_to (deliver_all (component Entity definition, w, []) msgs).2.
Proof.
  intros Hall.
  destruct (deliver_all_config msgs (component Entity definition, w, []))
    as (_ & _ & Hl).
  destruct (deliver_all (component Entity definition, w, []) msgs)
    as [[s w1] out] eqn:E.
  cbn [fst snd] in *.
  by apply deliver_short_ticks; [apply Hl|].
Qed.

(** *** Telemetry *)

Lemma time_elapsed_count_app (a b : list (Event Entity)) :
  time_elapsed_count Entity (a ++ b) =
  (time_elapsed_count Entity a + time_elapsed_count Entity b)%nat.
Proof.
  unfold time_elapsed_count. by rewrite filter_app, length_app.
Qed.

Lemma logic_pass_no_telemetry n : forall w (s : State),
  time_elapsed_count Entity (logic_pass n w s []).2 = 0%nat.
Proof.
  induction n as [|x IH]; intros w s; [done|].
  cbn [HandlerLogic.logic_pass].
  destruct (entities Entity s !! x) as [child|]; [|apply IH].
  destruct (in_window _ _ _); [|apply IH].
  destruct (trigger_handle_logic w child (message_of s))
    as [[w' listened] delivered].
  rewrite logic_pass_app.
  cbn [fst snd]. rewrite time_elapsed_count_app, IH. reflexivity.
Qed.

Lemma step_telemetry w (s : State) :
  time_elapsed_count Entity (step (w, s, [])).2 = 2%nat.
Proof.
  unfold HandlerLogic.step.
  pose proof (logic_pass_no_telemetry (length (entities Entity s)) w s) as H0.
  destruct (logic_pass (length (entities Entity s)) w s [])
    as [[w1 s1] out1].
  destruct (trigger_time_elapsed w1 "Logic") as [w2 d2].
  destruct (trigger_check_collision_group w2 _) as [w3 d3].
  destruct (trigger_time_elapsed w3 "Collision") as [w4 d4].
  cbn [fst snd] in *. rewrite time_elapsed_count_app, H0. reflexivity.
Qed.

Lemma steps_telemetry n : forall st,
  time_elapsed_count Entity (steps n st).2 =
  (time_elapsed_count Entity st.2 + 2 * n)%nat.
Proof.
  induction n as [|k IH]; intros [[w s] out]; cbn [HandlerLogic.steps].
  - cbn [snd]. lia.
  - rewrite IH, step_app. cbn [snd].
    rewrite time_elapsed_count_app, step_telemetry. lia.
Qed.

(** X6.  A tick sends ['time-elapsed'] twice for every step it runs and
    once more at the end. *)
Theorem tick_telemetry (s : State) (dt : double) (w : World) :
  time_elapsed_count Entity (tick s dt w).2 =
  (2 * steps_run (tick s dt w).2 + 1)%nat.
Proof.
  destruct (tick_out getMessageIds entity_x entity_y trigger_handle_logic
              trigger_check_collision_group trigger_time_elapsed s dt w)
    as [-> _].
  unfold HandlerLogic.tick. cbv zeta.
  set (s0 := {| entities := _; leftoverTime := zero |}).
  fold (clamped_cycles Entity s dt).
  set (n := iterations _).
  pose proof (steps_telemetry n (w, s0, [])) as H.
  destruct (steps n (w, s0, [])) as [[w' s'] out].
  destruct (trigger_time_elapsed w' _) as [w'' delivered].
  cbn [fst snd] in *. rewrite time_elapsed_count_app, H.
  unfold time_elapsed_count. simpl. lia.
Qed.

(** *** The camera window *)

Lemma camera_update_buffer_nonneg (s : State) (u : CameraUpdate) :
  (0 <= Fin (buffer (camera Entity s)))%num ->
  (0 <= Fin (viewportWidth u))%num ->
  (0 <= scaled (buffer (camera Entity (camera_update Entity s u))))%Z.
Proof.
  intros Hb Hw. apply Le_scaled in Hb, Hw.
  change (scaled zero) with 0%Z in Hb, Hw.
  unfold camera_update, camera_update_camera. cbn [camera buffer].
  destruct (truthy (buffer (camera Entity s))); cbn [negb buffer width];
    [done|].
  destruct (quarter_finite (viewportWidth u)) as (d & E & _).
  rewrite E. cbn [finite_or]. by apply (quarter_nonneg (viewportWidth u)).
Qed.

(** X7.  After a ['camera-update'] the window holds the viewport: with a
    buffer that is not negative and a viewport width that is not negative
    either, an entity placed inside the viewport passes the test of the
    pass. *)
Theorem viewport_inside_window (s : State) (u : CameraUpdate) (x y : double) :
  (0 <= Fin (buffer (camera Entity s)))%num ->
  (0 <= Fin (viewportWidth u))%num ->
  (Fin (viewportLeft u) <= Fin x)%num ->
  (Fin x <= Fin (viewportLeft u) + Fin (viewportWidth u))%num ->
  (Fin (viewportTop u) <= Fin y)%num ->
  (Fin y <= Fin (viewportTop u) + Fin (viewportHeight u))%num ->
  in_window (camera Entity (camera_update Entity s u)) (Some x) (Some y) = true.
Proof.
  intros Hb Hw Hx1 Hx2 Hy1 Hy2.
  pose proof (camera_update_buffer_nonneg s u Hb Hw) as Hb'.
  set (c := camera Entity (camera_update Entity s u)) in *.
  assert (left c = viewportLeft u /\ top c = viewportTop u /\
          width c = viewportWidth u /\ height c = viewportHeight u)
    as (Hl & Ht & Hwd & Hh).
  { unfold c, camera_update, camera_update_camera. cbn [camera].
    by destruct (negb _). }
  unfold in_window. rewrite Hl, Ht, Hwd, Hh.
  assert (forall (a v : double) (b : number),
            (Fin a <= Fin v)%num -> (Fin v <= b)%num ->
            leb (Fin a - Fin (buffer c)) (Fin v) = true /\
            leb (Fin v) (b + Fin (buffer c)) = true) as Hside.
  { intros a v b H1 H2. split.
    - eapply Le_trans; [by apply sub_le_self|exact H1].
    - eapply Le_trans; [exact H2|].
      apply add_ge_self; [|done]. by apply Le_is_Some in H2 as [_ ?]. }
  destruct (Hside _ _ _ Hx1 Hx2) as [-> ->].
  by destruct (Hside _ _ _ Hy1 Hy2) as [-> ->].
Qed.

End SchedulerMore.

(** ** More on the collision group *)

Section CollisionGroupMore.

Import CollisionGroup CollisionGroupSpec CollisionGroupMethods
  CollisionGroupMethodsSpec.

(** *** [appendUniqueItems] *)

Lemma existsb_eqb_elem (item : string) (l : list string) :
  existsb (String.eqb item) l = bool_decide (item ∈ l).
Proof.
  induction l as [|a l IH].
  - symmetry. apply bool_decide_eq_false_2. intros H. by apply elem_of_nil in H.
  - change (existsb (String.eqb item) (a :: l))
      with (String.eqb item a || existsb (String.eqb item) l).
    rewrite IH. destruct (String.eqb item a) eqn:E.
    + apply String.eqb_eq in E. subst. symmetry.
      apply bool_decide_eq_true_2, elem_of_cons. by left.
    + apply String.eqb_neq in E. apply bool_decide_ext.
      rewrite elem_of_cons. split; [by right|]. intros [H|H]; done.
Qed.

Lemma filter_none {A : Type} (P : A -> Prop) `{forall a, Decision (P a)}
    (l : list A) :
  (forall a, a ∈ l -> ~ P a) -> filter P l = [].
Proof.
  induction l as [|a l IH]; intros Hall; [done|].
  rewrite filter_cons_False by (apply Hall, elem_of_cons; by left).
  apply IH. intros b Hb. apply Hall, elem_of_cons. by right.
Qed.

Lemma appendUniqueItems_unfold (host insert : list string) :
  appendUniqueItems host insert = host ++ filter (fun item => item ∉ host) insert.
Proof.
  unfold appendUniqueItems.
  assert (forall acc,
            foldl (fun h item =>
                     if found_in item h (length host) then h else h ++ [item])
              (host ++ acc) insert =
            host ++ acc ++ filter (fun item => item ∉ host) insert) as H.
  { induction insert as [|item insert IH]; intros acc; simpl.
    - by rewrite filter_nil, app_nil_r.
    - unfold found_in at 2. rewrite take_app_length, existsb_eqb_elem.
      destruct (decide (item ∈ host)) as [Hin|Hin].
      + rewrite bool_decide_true by done. rewrite IH.
        by rewrite filter_cons_False by (intros H; by apply H).
      + rewrite bool_decide_false by done.
        rewrite <- app_assoc, IH, filter_cons_True by done.
        by rewrite <- app_assoc. }
  specialize (H []). by rewrite app_nil_r in H.
Qed.

(** X8.  [appendUniqueItems] keeps the host array as it is and appends, in
    their order, the items of the other array that the host did not
    already hold.  It compares with the host as it was on entry only: an
    item that the other array repeats is appended each time, so appending
    to an empty array returns the other array, repetitions included. *)
Theorem appendUniqueItems_appends_missing (host insert : list string) :
  appendUniqueItems host insert =
    host ++ filter (fun item => item ∉ host) insert /\
  appendUniqueItems [] insert = insert /\
  appendUniqueItems (appendUniqueItems host insert) insert =
    appendUniqueItems host insert.
Proof.
  split; [apply appendUniqueItems_unfold|]. split.
  - rewrite appendUniqueItems_unfold. simpl.
    induction insert as [|a l IH]; [done|].
    rewrite filter_cons_True by (intros H; by apply elem_of_nil in H).
    by rewrite IH.
  - rewrite (appendUniqueItems_unfold (appendUniqueItems _ _)).
    rewrite appendUniqueItems_unfold.
    assert (filter (fun item => item ∉ host ++ filter (fun i => i ∉ host) insert)
              insert = []) as ->; [|by rewrite app_nil_r].
    apply filter_none. intros item Hin Hnot.
    apply Hnot, elem_of_app.
    destruct (decide (item ∈ host)); [by left|right].
    by apply list_elem_of_filter.
Qed.

Lemma appendUniqueItems_elem (host insert : list string) (item : string) :
  item ∈ appendUniqueItems host insert <-> item ∈ host \/ item ∈ insert.
Proof.
  rewrite appendUniqueItems_unfold, elem_of_app, list_elem_of_filter.
  split.
  - intros [Hh|[_ Hi]]; [by left|by right].
  - intros [Hh|Hi]; [by left|].
    destruct (decide (item ∈ host)); [by left|by right].
Qed.

Lemma appendUniqueItems_NoDup (host insert : list string) :
  NoDup host -> NoDup insert -> NoDup (appendUniqueItems host insert).
Proof.
  intros Hh Hi. rewrite appendUniqueItems_unfold. apply NoDup_app.
  split; [done|]. split; [|by apply NoDup_filter].
  intros item Hin Hf. apply list_elem_of_filter in Hf as [Hn _]. done.
Qed.

(** *** Queries over the members *)

Lemma elem_of_concat {A : Type} (x : A) (ls : list (list A)) :
  x ∈ concat ls <-> exists l, x ∈ l /\ l ∈ ls.
Proof.
  induction ls as [|l0 ls IH]; simpl.
  - split; [intros H; by apply elem_of_nil in H|].
    intros (l & _ & H). by apply elem_of_nil in H.
  - rewrite elem_of_app, IH. split.
    + intros [H|(l & Hx & Hl)].
      * exists l0. split; [done|]. apply elem_of_cons. by left.
      * exists l. split; [done|]. apply elem_of_cons. by right.
    + intros (l & Hx & Hl). apply elem_of_cons in Hl as [->|Hl]; [by left|].
      right. by exists l.
Qed.

Lemma leaves_leaf_of (h : Heap) (n : nat) : forall owner leaf,
  leaf ∈ leaves h n owner <-> leaf_of h n owner leaf.
Proof.
  induction n as [|n IH]; intros owner leaf; simpl.
  - split; [intros H; by apply elem_of_nil in H|done].
  - destruct (group_of h owner) as [g|]; [|split].
    + rewrite elem_of_concat. split.
      * intros (l & Hl & Hin). apply list_elem_of_fmap in Hin as (child & -> & Hc).
        exists g, child. split; [done|]. split; [done|].
        destruct (delegates h owner child); [by apply IH|].
        by apply list_elem_of_singleton in Hl.
      * intros (g' & child & [= <-] & Hc & Hleaf).
        exists (if delegates h owner child then leaves h n child else [child]).
        split; [|apply list_elem_of_fmap; by exists child].
        destruct (delegates h owner child); [by apply IH|].
        subst. by apply list_elem_of_singleton.
    + intros H. by apply elem_of_nil in H.
    + by intros (g & child & Hg & _).
Qed.

Section MemberQueries.

Variable Shape : Type.
Variable own_getCollisionTypes : ref -> list string.
Variable own_getShapes : ref -> option string -> option (list Shape).
Variable h : Heap.

Local Abbreviation getCollisionTypes :=
  (getCollisionTypes own_getCollisionTypes).
Local Abbreviation getShapes := (getShapes Shape own_getShapes).

Lemma getAllEntities_leaves (n : nat) : forall owner,
  nests h n owner ->
  getAllEntities n h owner = Some (length (leaves h n owner)).
Proof.
  induction n as [|n IH]; intros owner Hn; [done|].
  destruct Hn as (g & Hg & Hall). simpl. rewrite Hg. simpl.
  assert (forall l count,
            (forall child, child ∈ l ->
               delegates h owner child = true -> nests h n child) ->
            foldl (fun acc childEntity =>
                     count ← acc;
                     if delegates h owner childEntity then
                       k ← getAllEntities n h childEntity; Some (count + k)%nat
                     else Some (count + 1)%nat)
              (Some count) l =
            Some (count +
                  length (concat ((fun child =>
                                     if delegates h owner child
                                     then leaves h n child else [child]) <$> l)))%nat)
    as Hfold.
  { induction l as [|child l IHl]; intros count Hl.
    - simpl. f_equal. lia.
    - assert (forall c, c ∈ l -> delegates h owner c = true -> nests h n c)
        as Hl' by (intros c Hc; apply Hl, elem_of_cons; by right).
      rewrite fmap_cons. cbn [foldl concat mbind option_bind].
      rewrite length_app.
      destruct (delegates h owner child) eqn:Hd.
      + rewrite IH by (apply Hl; [apply elem_of_cons; by left|done]).
        cbn [mbind option_bind]. rewrite IHl by done. f_equal. lia.
      + rewrite IHl by done. simpl length. f_equal. lia. }
  rewrite Hfold; [done|]. intros child Hc. by apply Hall.
Qed.

Lemma getShapes_leaves (collisionType : option string) (n : nat) :
  forall owner,
    nests h n owner ->
    getShapes n h owner collisionType =
    Some (concat ((fun leaf => default [] (own_getShapes leaf collisionType))
                    <$> leaves h n owner)).
Proof.
  induction n as [|n IH]; intros owner Hn; [done|].
  destruct Hn as (g & Hg & Hall). simpl. rewrite Hg. simpl.
  assert (forall l shapes,
            (forall child, child ∈ l ->
               delegates h owner child = true -> nests h n child) ->
            foldl (fun acc childEntity =>
                     shapes ← acc;
                     if delegates h owner childEntity then
                       newShapes ← getShapes n h childEntity collisionType;
                       Some (shapes ++ newShapes)
                     else
                       match own_getShapes childEntity collisionType with
                       | Some newShapes => Some (shapes ++ newShapes)
                       | None => Some shapes
                       end)
              (Some shapes) l =
            Some (shapes ++
                  concat ((fun leaf => default [] (own_getShapes leaf collisionType))
                            <$> concat ((fun child =>
                                           if delegates h owner child
                                           then leaves h n child else [child])
                                          <$> l))))
    as Hfold.
  { induction l as [|child l IHl]; intros shapes Hl.
    - simpl. by rewrite app_nil_r.
    - assert (forall c, c ∈ l -> delegates h owner c = true -> nests h n c)
        as Hl' by (intros c Hc; apply Hl, elem_of_cons; by right).
      rewrite fmap_cons. cbn [foldl concat mbind option_bind].
      rewrite fmap_app, concat_app.
      destruct (delegates h owner child) eqn:Hd.
      + rewrite IH by (apply Hl; [apply elem_of_cons; by left|done]).
        cbn [mbind option_bind]. rewrite IHl by done. by rewrite <- app_assoc.
      + rewrite fmap_cons, fmap_nil. cbn [concat]. rewrite app_nil_r.
        destruct (own_getShapes child collisionType) as [newShapes|];
          cbn [default]; rewrite IHl by done; [by rewrite <- app_assoc|done]. }
  rewrite Hfold; [done|]. intros child Hc. by apply Hall.
Qed.

Lemma getCollisionTypes_leaves (n : nat) : forall owner,
  nests h n owner ->
  exists types,
    getCollisionTypes n h owner = Some types /\
    (forall t, t ∈ types <->
       exists leaf, leaf ∈ leaves h n owner /\ t ∈ own_getCollisionTypes leaf) /\
    ((forall leaf, leaf ∈ leaves h n owner ->
        NoDup (own_getCollisionTypes leaf)) ->
     NoDup types).
Proof.
  induction n as [|n IH]; intros owner Hn; [done|].
  destruct Hn as (g & Hg & Hall). simpl. rewrite Hg.
  cbn [mbind option_bind].
  set (f := fun child =>
              if delegates h owner child then leaves h n child else [child]).
  assert (forall l compiled,
            (forall child, child ∈ l ->
               delegates h owner child = true -> nests h n child) ->
            exists types,
              foldl (fun acc childEntity =>
                       compiledList ← acc;
                       types ← (if delegates h owner childEntity
                                then getCollisionTypes n h childEntity
                                else Some (own_getCollisionTypes childEntity));
                       Some (appendUniqueItems compiledList types))
                (Some compiled) l = Some types /\
              (forall t, t ∈ types <->
                 t ∈ compiled \/
                 exists leaf, leaf ∈ concat (f <$> l) /\
                              t ∈ own_getCollisionTypes leaf) /\
              (NoDup compiled ->
               (forall leaf, leaf ∈ concat (f <$> l) ->
                  NoDup (own_getCollisionTypes leaf)) ->
               NoDup types)) as Hfold.
  { induction l as [|child l IHl]; intros compiled Hl.
    - exists compiled. split; [done|]. split; [|done].
      intros t. split; [by left|]. intros [H|(leaf & H & _)]; [done|].
      by apply elem_of_nil in H.
    - assert (forall c, c ∈ l -> delegates h owner c = true -> nests h n c)
        as Hl' by (intros c Hc; apply Hl, elem_of_cons; by right).
      rewrite fmap_cons. cbn [foldl concat mbind option_bind].
      assert (exists types,
                (if delegates h owner child
                 then getCollisionTypes n h child
                 else Some (own_getCollisionTypes child)) = Some types /\
                (forall t, t ∈ types <->
                   exists leaf, leaf ∈ f child /\
                                t ∈ own_getCollisionTypes leaf) /\
                ((forall leaf, leaf ∈ f child ->
                    NoDup (own_getCollisionTypes leaf)) -> NoDup types))
        as (types & -> & Hel & Hnd).
      { unfold f. destruct (delegates h owner child) eqn:Hd.
        - apply IH, Hl; [apply elem_of_cons; by left|done].
        - exists (own_getCollisionTypes child). split; [done|]. split.
          + intros t. split.
            * intros Ht. exists child. split; [by apply list_elem_of_singleton|done].
            * intros (leaf & Hleaf & Ht).
              by apply list_elem_of_singleton in Hleaf as ->.
          + intros Hnd. apply Hnd. by apply list_elem_of_singleton. }
      cbn [mbind option_bind].
      destruct (IHl (appendUniqueItems compiled types) Hl')
        as (result & -> & Hres & Hresnd).
      exists result. split; [done|]. split.
      + intros t. rewrite Hres, appendUniqueItems_elem, Hel. split.
        * intros [[Hc|(leaf & Hleaf & Ht)]|(leaf & Hleaf & Ht)].
          -- by left.
          -- right. exists leaf. split; [|done]. apply elem_of_app. by left.
          -- right. exists leaf. split; [|done]. apply elem_of_app. by right.
        * intros [Hc|(leaf & Hleaf & Ht)]; [left; by left|].
          apply elem_of_app in Hleaf as [Hleaf|Hleaf].
          -- left. right. by exists leaf.
          -- right. by exists leaf.
      + intros Hc Hleaves. apply Hresnd.
        * apply appendUniqueItems_NoDup; [done|]. apply Hnd.
          intros leaf Hleaf. apply Hleaves, elem_of_app. by left.
        * intros leaf Hleaf. apply Hleaves, elem_of_app. by right. }
  destruct (Hfold (solidEntities g) []) as (types & -> & Hel & Hnd).
  { intros child Hc. by apply Hall. }
  exists types. split; [done|]. split.
  - intros t. rewrite Hel. split.
    + intros [H|H]; [by apply elem_of_nil in H|done].
    + by right.
  - intros Hleaves. apply Hnd; [constructor|done].
Qed.

(** X9.  On a group nested at most [n] deep, [getAllEntities] returns the
    number of entities the group's queries end up asking, each counted as
    often as it is listed; when no member has a group to delegate to,
    that is [getSize]. *)
Theorem getAllEntities_counts_leaves (n : nat) (owner : ref) (g : Group) :
  nests h n owner ->
  group_of h owner = Some g ->
  getAllEntities n h owner = Some (length (leaves h n owner)) /\
  ((forall child, child ∈ solidEntities g -> delegates h owner child = false) ->
   getAllEntities n h owner = getSize h owner).
Proof.
  intros Hn Hg. split; [by apply getAllEntities_leaves|].
  intros Hflat. rewrite getAllEntities_leaves by done.
  unfold getSize. rewrite Hg. simpl. f_equal.
  destruct n as [|n]; [done|]. simpl. rewrite Hg.
  clear Hn Hg. induction (solidEntities g) as [|child l IH]; [done|].
  rewrite fmap_cons. cbn [concat].
  rewrite Hflat by (apply elem_of_cons; by left).
  simpl. f_equal. apply IH. intros c Hc. apply Hflat, elem_of_cons. by right.
Qed.

(** X10.  On a group nested at most [n] deep, [getShapes] (and
    [getPrevShapes], which is the same loop over the members'
    [getPrevShapes]) returns the shapes of the leaves one after the other,
    in the order the members are listed: nothing is added for a leaf
    without shapes of the type, nothing is left out or merged, and a
    member listed twice contributes its shapes twice. *)
Theorem getShapes_concatenates (collisionType : option string) (n : nat)
    (owner : ref) :
  nests h n owner ->
  getShapes n h owner collisionType =
  Some (concat ((fun leaf => default [] (own_getShapes leaf collisionType))
                  <$> leaves h n owner)).
Proof. apply getShapes_leaves. Qed.

(** X11.  On a group nested at most [n] deep, [getCollisionTypes] returns
    exactly the collision types of the leaves, and each of them once
    provided no leaf lists a type twice. *)
Theorem getCollisionTypes_union (n : nat) (owner : ref) :
  nests h n owner ->
  exists types,
    getCollisionTypes n h owner = Some types /\
    (forall t, t ∈ types <->
       exists leaf, leaf ∈ leaves h n owner /\ t ∈ own_getCollisionTypes leaf) /\
    ((forall leaf, leaf ∈ leaves h n owner ->
        NoDup (own_getCollisionTypes leaf)) ->
     NoDup types).
Proof. apply getCollisionTypes_leaves. Qed.

End MemberQueries.

(** *** [getSolidCollisions] *)

Lemma compile_collisions_lookup (compiled entityList : gmap string (list string))
    (key : string) :
  compile_collisions compiled entityList !! key =
  match entityList !! key with
  | Some items => Some (appendUniqueItems (default [] (compiled !! key)) items)
  | None => compiled !! key
  end.
Proof.
  unfold compile_collisions. revert key.
  apply (map_fold_weak_ind
           (fun r (m : gmap string (list string)) =>
              forall key,
                r !! key =
                match m !! key with
                | Some items =>
                    Some (appendUniqueItems (default [] (compiled !! key)) items)
                | None => compiled !! key
                end)).
  - intros key. by rewrite lookup_empty.
  - intros i items m r Hi Hr key.
    destruct (decide (i = key)) as [->|Hne].
    + rewrite !lookup_insert_eq. f_equal. f_equal. f_equal.
      by rewrite Hr, Hi.
    + rewrite !lookup_insert_ne by done. apply Hr.
Qed.

Lemma compile_collisions_holds (compiled entityList : gmap string (list string))
    (key item : string) :
  (is_Some (compile_collisions compiled entityList !! key) <->
   is_Some (compiled !! key) \/ is_Some (entityList !! key)) /\
  ((exists l, compile_collisions compiled entityList !! key = Some l /\ item ∈ l)
   <->
   (exists l, compiled !! key = Some l /\ item ∈ l) \/
   (exists l, entityList !! key = Some l /\ item ∈ l)).
Proof.
  rewrite compile_collisions_lookup.
  destruct (entityList !! key) as [items|] eqn:He; split.
  - split; [right; by eexists|by eexists].
  - split.
    + intros (l & [= <-] & Hin). apply appendUniqueItems_elem in Hin as [Hin|Hin].
      * left. destruct (compiled !! key) as [l|]; [by exists l|].
        by apply elem_of_nil in Hin.
      * right. by exists items.
    + intros [(l & Hl & Hin)|(l & [= <-] & Hin)].
      * eexists. split; [done|]. apply appendUniqueItems_elem. left.
        by rewrite Hl.
      * eexists. split; [done|]. apply appendUniqueItems_elem. by right.
  - split; [by left|]. intros [H|[l H]]; [done|discriminate].
  - split; [by left|]. intros [H|(l & H & _)]; [done|discriminate].
Qed.

Section SolidCollisions.

Variable own_getSolidCollisions : ref -> gmap string (list string).
Variable h : Heap.

Local Abbreviation getSolidCollisions :=
  (getSolidCollisions own_getSolidCollisions).

Lemma getSolidCollisions_leaves (n : nat) : forall owner,
  nests h n owner ->
  exists compiled,
    getSolidCollisions n h owner = Some compiled /\
    forall key,
      (is_Some (compiled !! key) <->
       exists leaf, leaf ∈ leaves h n owner /\
                    is_Some (own_getSolidCollisions leaf !! key)) /\
      forall item,
        (exists l, compiled !! key = Some l /\ item ∈ l) <->
        exists leaf l, leaf ∈ leaves h n owner /\
                       own_getSolidCollisions leaf !! key = Some l /\ item ∈ l.
Proof.
  induction n as [|n IH]; intros owner Hn; [done|].
  destruct Hn as (g & Hg & Hall). simpl. rewrite Hg.
  cbn [mbind option_bind].
  set (f := fun child =>
              if delegates h owner child then leaves h n child else [child]).
  assert (forall l acc,
            (forall child, child ∈ l ->
               delegates h owner child = true -> nests h n child) ->
            exists compiled,
              foldl (fun acc childEntity =>
                       compiledList ← acc;
                       entityList ← (if delegates h owner childEntity
                                     then getSolidCollisions n h childEntity
                                     else Some (own_getSolidCollisions childEntity));
                       Some (compile_collisions compiledList entityList))
                (Some acc) l = Some compiled /\
              forall key,
                (is_Some (compiled !! key) <->
                 is_Some (acc !! key) \/
                 exists leaf, leaf ∈ concat (f <$> l) /\
                              is_Some (own_getSolidCollisions leaf !! key)) /\
                forall item,
                  (exists l0, compiled !! key = Some l0 /\ item ∈ l0) <->
                  (exists l0, acc !! key = Some l0 /\ item ∈ l0) \/
                  exists leaf l0, leaf ∈ concat (f <$> l) /\
                    own_getSolidCollisions leaf !! key = Some l0 /\ item ∈ l0)
    as Hfold.
  { induction l as [|child l IHl]; intros acc Hl.
    - exists acc. split; [done|]. intros key. split.
      + split; [by left|]. intros [H|(leaf & H & _)]; [done|].
        by apply elem_of_nil in H.
      + intros item. split; [by left|].
        intros [H|(leaf & l0 & H & _)]; [done|]. by apply elem_of_nil in H.
    - assert (forall c, c ∈ l -> delegates h owner c = true -> nests h n c)
        as Hl' by (intros c Hc; apply Hl, elem_of_cons; by right).
      rewrite fmap_cons. cbn [foldl concat mbind option_bind].
      assert (exists entityList,
                (if delegates h owner child
                 then getSolidCollisions n h child
                 else Some (own_getSolidCollisions child)) = Some entityList /\
                forall key,
                  (is_Some (entityList !! key) <->
                   exists leaf, leaf ∈ f child /\
                                is_Some (own_getSolidCollisions leaf !! key)) /\
                  forall item,
                    (exists l0, entityList !! key = Some l0 /\ item ∈ l0) <->
                    exists leaf l0, leaf ∈ f child /\
                      own_getSolidCollisions leaf !! key = Some l0 /\ item ∈ l0)
        as (entityList & -> & Hent).
      { unfold f. destruct (delegates h owner child) eqn:Hd.
        - apply IH, Hl; [apply elem_of_cons; by left|done].
        - exists (own_getSolidCollisions child). split; [done|].
          intros key. split.
          + split.
            * intros H. exists child. split; [by apply list_elem_of_singleton|done].
            * intros (leaf & Hleaf & H).
              by apply list_elem_of_singleton in Hleaf as ->.
          + intros item. split.
            * intros (l0 & H1 & H2). exists child, l0.
              split; [by apply list_elem_of_singleton|done].
            * intros (leaf & l0 & Hleaf & H1 & H2).
              apply list_elem_of_singleton in Hleaf as ->. by exists l0. }
      cbn [mbind option_bind].
      destruct (IHl (compile_collisions acc entityList) Hl')
        as (result & -> & Hres).
      exists result. split; [done|]. intros key.
      destruct (Hres key) as [Hkey Hitems].
      destruct (Hent key) as [Hekey Heitems]. split.
      + rewrite Hkey.
        rewrite (proj1 (compile_collisions_holds acc entityList key key)), Hekey.
        split.
        * intros [[Ha|(leaf & Hleaf & H)]|(leaf & Hleaf & H)].
          -- by left.
          -- right. exists leaf. split; [|done]. apply elem_of_app. by left.
          -- right. exists leaf. split; [|done]. apply elem_of_app. by right.
        * intros [Ha|(leaf & Hleaf & H)]; [left; by left|].
          apply elem_of_app in Hleaf as [Hleaf|Hleaf].
          -- left. right. by exists leaf.
          -- right. by exists leaf.
      + intros item. rewrite Hitems.
        rewrite (proj2 (compile_collisions_holds acc entityList key item)),
                Heitems.
        split.
        * intros [[Ha|(leaf & l0 & Hleaf & H)]|(leaf & l0 & Hleaf & H)].
          -- by left.
          -- right. exists leaf, l0. split; [|done]. apply elem_of_app. by left.
          -- right. exists leaf, l0. split; [|done]. apply elem_of_app. by right.
        * intros [Ha|(leaf & l0 & Hleaf & H)]; [left; by left|].
          apply elem_of_app in Hleaf as [Hleaf|Hleaf].
          -- left. right. by exists leaf, l0.
          -- right. by exists leaf, l0. }
  destruct (Hfold (solidEntities g) ∅) as (compiled & -> & Hres).
  { intros child Hc. by apply Hall. }
  exists compiled. split; [done|]. intros key.
  destruct (Hres key) as [Hkey Hitems]. split.
  - rewrite Hkey, lookup_empty. split.
    + intros [[x Hx]|H]; [discriminate|done].
    + by right.
  - intros item. rewrite Hitems, lookup_empty. split.
    + intros [(l0 & Hx & _)|H]; [discriminate|done].
    + by right.
Qed.

(** X12.  On a group nested at most [n] deep, [getSolidCollisions] returns
    a map that has a key exactly when some leaf's own map has it, and
    under a key exactly the responses that the leaves list under it. *)
Theorem getSolidCollisions_union (n : nat) (owner : ref) :
  nests h n owner ->
  exists compiled,
    getSolidCollisions n h owner = Some compiled /\
    forall key,
      (is_Some (compiled !! key) <->
       exists leaf, leaf ∈ leaves h n owner /\
                    is_Some (own_getSolidCollisions leaf !! key)) /\
      forall item,
        (exists l, compiled !! key = Some l /\ item ∈ l) <->
        exists leaf l, leaf ∈ leaves h n owner /\
                       own_getSolidCollisions leaf !! key = Some l /\ item ∈ l.
Proof. apply getSolidCollisions_leaves. Qed.

End SolidCollisions.

(** *** Removal *)

Lemma remove_first_others (entity : ref) (solid : list ref) :
  filter (fun r => r <> entity) (remove_first entity solid) =
  filter (fun r => r <> entity) solid.
Proof.
  induction solid as [|r solid IH]; [done|]. simpl.
  destruct (decide (r = entity)) as [->|Hne].
  - by rewrite filter_cons_False by (intros H; by apply H).
  - by rewrite !filter_cons_True, IH by done.
Qed.

Lemma remove_first_occurrences (entity : ref) (solid : list ref) :
  occurrences entity (remove_first entity solid) =
  pred (occurrences entity solid).
Proof.
  unfold occurrences. induction solid as [|r solid IH]; [done|]. simpl.
  destruct (decide (r = entity)) as [->|Hne].
  - by rewrite filter_cons_True by done.
  - by rewrite !filter_cons_False, IH by done.
Qed.

Lemma remove_first_sublist (entity : ref) (solid : list ref) :
  remove_first entity solid `sublist_of` solid.
Proof.
  induction solid as [|r solid IH]; [done|]. simpl.
  destruct (decide (r = entity)); [by apply sublist_cons|by apply sublist_skip].
Qed.

Lemma remove_for_types_result (e : Entity) (entity : ref)
    (types : list string) : forall solid solid',
  remove_for_types e entity types solid = Some solid' ->
  solid' `sublist_of` solid /\
  filter (fun r => r <> entity) solid' = filter (fun r => r <> entity) solid /\
  occurrences entity solid' =
    (occurrences entity solid - responding e types)%nat.
Proof.
  induction types as [|t types IH]; intros solid solid' H; simpl in *.
  - injection H as <-. repeat split; [done|lia].
  - destruct (solidCollisions e !! t) as [responses|]; [|discriminate].
    simpl in H. destruct responses as [|r responses]; simpl in H.
    + by apply IH.
    + apply IH in H as (H1 & H2 & H3). split; [|split].
      * etrans; [exact H1|apply remove_first_sublist].
      * by rewrite H2, remove_first_others.
      * rewrite H3, remove_first_occurrences. lia.
Qed.

Lemma remove_for_types_total (e : Entity) (entity : ref)
    (types : list string) : forall solid,
  (forall t, t ∈ types -> is_Some (solidCollisions e !! t)) ->
  is_Some (remove_for_types e entity types solid).
Proof.
  induction types as [|t types IH]; intros solid Hall; simpl; [by eexists|].
  destruct (Hall t) as [responses ->]; [apply elem_of_cons; by left|]. simpl.
  destruct (negb _); apply IH; intros t' Ht'; apply Hall, elem_of_cons; by right.
Qed.

Lemma updateAABB_ents (h h' : Heap) (owner : ref) :
  updateAABB h owner = Some h' ->
  ents h' = ents h /\ dom (boxes h') = dom (boxes h).
Proof.
  unfold updateAABB. intros H.
  destruct (group_of h owner) as [g|]; [|discriminate]. simpl in H.
  destruct (boxes h !! aabb g) as [cached|] eqn:Hc; [|discriminate].
  simpl in H.
  assert (forall l h0,
            foldl
              (fun acc member =>
                 h1 ← acc;
                 if delegates h1 owner member then
                   gm ← group_of h1 member;
                   box ← boxes h1 !! aabb gm;
                   include_at h1 (aabb g) box
                 else
                   e ← ents h1 !! member;
                   include_at h1 (aabb g) (own_getAABB e None))
              (Some h0) l = Some h' ->
            ents h' = ents h0 /\ dom (boxes h') = dom (boxes h0)) as Hfold.
  { induction l as [|member l IH]; intros h0 Hl.
    - by injection Hl as ->.
    - cbn [foldl mbind option_bind] in Hl.
      destruct (if delegates h0 owner member
                then gm ← group_of h0 member;
                     box ← boxes h0 !! aabb gm;
                     include_at h0 (aabb g) box
                else e ← ents h0 !! member;
                     include_at h0 (aabb g) (own_getAABB e None))
        as [h1|] eqn:Hstep.
      + apply include_at_Some_dom in Hstep as [He Hd].
        apply IH in Hl as [He' Hd']. split; congruence.
      + exfalso. clear -Hl. induction l as [|m l IHl]; [discriminate|].
        by apply IHl. }
  apply Hfold in H as [He Hd]. simpl in *. split; [done|].
  rewrite Hd. apply dom_insert_lookup_L. by eexists.
Qed.

(** X13.  When [removeCollisionEntity] returns, what is left of
    [solidEntities] is a sublist of what was there: the other entities
    are all kept, in their order, and of the entity itself one entry is
    gone for each of its collision types that has a response, as far as
    there were entries.  The test does not look at [immobile]. *)
Theorem removeCollisionEntity_removes_per_type (h h' : Heap)
    (owner entity : ref) (g : Group) (e : Entity) (types : list string) :
  group_of h owner = Some g ->
  ents h !! entity = Some e ->
  collisionTypes e = Some types ->
  removeCollisionEntity h owner entity = Some h' ->
  exists g',
    group_of h' owner = Some g' /\
    solidEntities g' `sublist_of` solidEntities g /\
    filter (fun r => r <> entity) (solidEntities g') =
      filter (fun r => r <> entity) (solidEntities g) /\
    occurrences entity (solidEntities g') =
      (occurrences entity (solidEntities g) - responding e types)%nat.
Proof.
  intros Hg He Ht Hrem. unfold removeCollisionEntity in Hrem.
  rewrite Hg in Hrem. simpl in Hrem. rewrite He in Hrem. simpl in Hrem.
  rewrite Ht in Hrem.
  destruct (remove_for_types e entity types (solidEntities g)) as [solid'|] eqn:E;
    [|discriminate].
  simpl in Hrem. apply updateAABB_ents in Hrem as [Hents _].
  exists {| solidEntities := solid'; aabb := aabb g; prevAABB := prevAABB g |}.
  split; [|by apply (remove_for_types_result e entity types)].
  rewrite (group_of_ents h' (set_solidEntities h owner solid')) by done.
  by apply group_of_set_solidEntities.
Qed.

(** *** Membership changes keep the heap well formed *)

Lemma set_solidEntities_lookup_ne (h : Heap) (owner r : ref) (l : list ref) :
  r <> owner -> ents (set_solidEntities h owner l) !! r = ents h !! r.
Proof. intros Hne. unfold set_solidEntities. simpl. by rewrite lookup_alter_ne. Qed.

Lemma set_solidEntities_fields (h : Heap) (owner r : ref) (l : list ref)
    (e' : Entity) :
  ents (set_solidEntities h owner l) !! r = Some e' ->
  exists e, ents h !! r = Some e /\
    collisionTypes e' = collisionTypes e /\
    solidCollisions e' = solidCollisions e /\
    immobile e' = immobile e /\
    (r <> owner -> e' = e) /\
    (r = owner ->
     collisionGroup e' =
       g ← collisionGroup e;
       Some {| solidEntities := l; aabb := aabb g; prevAABB := prevAABB g |}).
Proof.
  unfold set_solidEntities. simpl. intros H.
  destruct (decide (r = owner)) as [->|Hne].
  - rewrite lookup_alter_eq in H.
    destruct (ents h !! owner) as [e|]; [|discriminate].
    injection H as <-. exists e. by repeat split.
  - rewrite lookup_alter_ne in H by done. exists e'. by repeat split.
Qed.

(** Writing a list of existing entities into a group of a well-formed
    heap and rebuilding the cached box returns, changes the list and
    boxes only, and leaves the heap well formed. *)
Lemma update_members (h : Heap) (owner : ref) (g : Group) (l : list ref) :
  well_formed h ->
  group_of h owner = Some g ->
  (forall member, member ∈ l -> is_Some (ents h !! member)) ->
  exists h',
    updateAABB (set_solidEntities h owner l) owner = Some h' /\
    ents h' = ents (set_solidEntities h owner l) /\
    dom (boxes h') = dom (boxes h) /\
    well_formed h'.
Proof.
  intros Hwf Hg Hl.
  set (g1 := {| solidEntities := l; aabb := aabb g; prevAABB := prevAABB g |}).
  assert (group_of (set_solidEntities h owner l) owner = Some g1) as Hg1
    by (by apply group_of_set_solidEntities).
  assert (exists o, ents h !! owner = Some o /\ collisionGroup o = Some g)
    as (o & Ho & Hog).
  { unfold group_of in Hg. destruct (ents h !! owner) as [o|]; [|discriminate].
    by exists o. }
  destruct (Hwf owner o g Ho Hog) as [Hcached _].
  assert (forall r e gg,
            ents (set_solidEntities h owner l) !! r = Some e ->
            collisionGroup e = Some gg ->
            is_Some (boxes h !! aabb gg) /\
            forall member, member ∈ solidEntities gg ->
              is_Some (ents (set_solidEntities h owner l) !! member)) as Hwf1.
  { intros r e gg Hr Hgg.
    apply set_solidEntities_fields in Hr as (e0 & Hr0 & _ & _ & _ & Hne & Heq).
    destruct (decide (r = owner)) as [->|Hn].
    - rewrite Heq in Hgg by done.
      assert (e0 = o) as -> by congruence. rewrite Hog in Hgg.
      injection Hgg as <-. simpl. split; [done|].
      intros member Hm. by apply set_solidEntities_is_Some, Hl.
    - rewrite (Hne Hn) in Hgg.
      destruct (Hwf r e0 gg Hr0 Hgg) as [Hb Hm]. split; [done|].
      intros member Hmem. by apply set_solidEntities_is_Some, Hm. }
  destruct (updateAABB_total (set_solidEntities h owner l) owner g1 Hg1)
    as (h' & Hup & Hents & Hdom).
  - exact Hcached.
  - intros member Hm. by apply set_solidEntities_is_Some, Hl.
  - intros member gm _ Hgm. unfold group_of in Hgm.
    destruct (ents (set_solidEntities h owner l) !! member) as [em|] eqn:Hem;
      [|discriminate].
    simpl in Hgm. by destruct (Hwf1 member em gm Hem Hgm).
  - exists h'. split; [done|]. split; [done|]. split; [done|].
    intros r e gg Hr Hgg. rewrite Hents in Hr.
    destruct (Hwf1 r e gg Hr Hgg) as [Hb Hm]. split.
    + apply elem_of_dom. rewrite Hdom. by apply elem_of_dom.
    + intros member Hmem. rewrite Hents. by apply Hm.
Qed.

Lemma remove_for_types_same_responses (e e' : Entity) (entity : ref)
    (types : list string) : forall solid,
  solidCollisions e = solidCollisions e' ->
  remove_for_types e entity types solid = remove_for_types e' entity types solid.
Proof.
  intros solid Hs. revert solid.
  induction types as [|t types IH]; intros solid; [done|]. simpl.
  rewrite Hs. destruct (solidCollisions e' !! t) as [responses|]; [|done].
  simpl. by rewrite !IH.
Qed.

Lemma set_solidEntities_restore (h : Heap) (owner : ref) (g : Group)
    (l : list ref) :
  group_of h owner = Some g ->
  ents (set_solidEntities (set_solidEntities h owner l) owner (solidEntities g))
  = ents h.
Proof.
  intros Hg. unfold set_solidEntities. simpl. apply map_eq. intros r.
  destruct (decide (r = owner)) as [->|Hne].
  - rewrite !lookup_alter_eq. unfold group_of in Hg.
    destruct (ents h !! owner) as [[? ? ? ? ? ? ? ? ? ? ? ? ? grp]|];
      [|discriminate].
    simpl in *. subst grp. destruct g. reflexivity.
  - by rewrite !lookup_alter_ne.
Qed.

(** X14.  On a well-formed heap, admitting an entity that was not a member
    and then removing it returns both times and gives back every entity
    as it was, the list of members included: removal takes out exactly
    the entries that the admission appended. *)
Theorem add_then_remove_restores (h : Heap) (owner entity : ref)
    (g : Group) (e : Entity) (types : list string) :
  well_formed h ->
  group_of h owner = Some g ->
  ents h !! entity = Some e ->
  collisionTypes e = Some types ->
  (forall t, t ∈ types -> is_Some (solidCollisions e !! t)) ->
  entity ∉ solidEntities g ->
  exists h1 h2,
    addCollisionEntity h owner entity = Some h1 /\
    removeCollisionEntity h1 owner entity = Some h2 /\
    ents h2 = ents h.
Proof.
  intros Hwf Hg He Ht Hall Hnew.
  set (solid := solidEntities g ++ replicate (qualifying e types) entity).
  destruct (update_members h owner g solid Hwf Hg)
    as (h1 & Hup1 & Hents1 & Hdom1 & Hwf1).
  { intros member Hm. apply elem_of_app in Hm as [Hm|Hm].
    - unfold group_of in Hg.
      destruct (ents h !! owner) as [o|] eqn:Ho; [|discriminate].
      by destruct (Hwf owner o g Ho Hg) as [_ Hmem]; apply Hmem.
    - apply elem_of_replicate in Hm as [-> _]. by eexists. }
  assert (group_of h1 owner =
          Some {| solidEntities := solid; aabb := aabb g; prevAABB := prevAABB g |})
    as Hg1.
  { rewrite (group_of_ents h1 (set_solidEntities h owner solid)) by done.
    by apply group_of_set_solidEntities. }
  assert (exists e1, ents h1 !! entity = Some e1 /\
                     collisionTypes e1 = Some types /\
                     solidCollisions e1 = solidCollisions e) as (e1 & He1 & Ht1 & Hs1).
  { destruct (set_solidEntities_is_Some h owner entity solid) as [e1 He1];
      [by eexists|].
    exists e1. rewrite Hents1. split; [done|].
    apply set_solidEntities_fields in He1 as (e0 & He0 & Hct & Hsc & _).
    assert (e0 = e) as -> by congruence. split; congruence. }
  destruct (update_members h1 owner _ (solidEntities g) Hwf1 Hg1)
    as (h2 & Hup2 & Hents2 & _ & _).
  { intros member Hm. rewrite Hents1. apply set_solidEntities_is_Some.
    unfold group_of in Hg.
    destruct (ents h !! owner) as [o|] eqn:Ho; [|discriminate].
    by destruct (Hwf owner o g Ho Hg) as [_ Hmem]; apply Hmem. }
  exists h1, h2. split; [|split].
  - unfold addCollisionEntity. rewrite Hg. simpl. rewrite He. simpl.
    rewrite Ht, add_for_types_appends by done. exact Hup1.
  - unfold removeCollisionEntity. rewrite Hg1. simpl. rewrite He1. simpl.
    rewrite Ht1.
    rewrite (remove_for_types_same_responses e1 e) by done.
    cbn [solidEntities]. unfold solid.
    rewrite remove_for_types_undoes_add by done. exact Hup2.
  - rewrite Hents2. unfold set_solidEntities at 1. simpl. rewrite Hents1.
    by apply (set_solidEntities_restore h owner g solid).
Qed.

(** X15.  Admission and removal keep a heap well formed, and on a
    well-formed heap they return for every entity whose collision types
    all have an entry in [solidCollisions]; so deliveries can follow one
    another in any number and order. *)
Theorem membership_keeps_well_formed (h : Heap) (owner entity : ref)
    (g : Group) (e : Entity) (types : list string) :
  well_formed h ->
  group_of h owner = Some g ->
  ents h !! entity = Some e ->
  collisionTypes e = Some types ->
  (forall t, t ∈ types -> is_Some (solidCollisions e !! t)) ->
  (exists h', addCollisionEntity h owner entity = Some h' /\ well_formed h') /\
  (exists h', removeCollisionEntity h owner entity = Some h' /\ well_formed h').
Proof.
  intros Hwf Hg He Ht Hall.
  assert (forall member, member ∈ solidEntities g -> is_Some (ents h !! member))
    as Hmem.
  { unfold group_of in Hg.
    destruct (ents h !! owner) as [o|] eqn:Ho; [|discriminate].
    by destruct (Hwf owner o g Ho Hg). }
  split.
  - destruct (update_members h owner g
                (solidEntities g ++ replicate (qualifying e types) entity)
                Hwf Hg) as (h' & Hup & _ & _ & Hwf').
    { intros member Hm. apply elem_of_app in Hm as [Hm|Hm]; [by apply Hmem|].
      apply elem_of_replicate in Hm as [-> _]. by eexists. }
    exists h'. split; [|done].
    unfold addCollisionEntity. rewrite Hg. simpl. rewrite He. simpl.
    by rewrite Ht, add_for_types_appends by done.
  - destruct (remove_for_types_total e entity types (solidEntities g) Hall)
      as [solid' Hsolid].
    destruct (update_members h owner g solid' Hwf Hg) as (h' & Hup & _ & _ & Hwf').
    { intros member Hm. apply Hmem.
      destruct (remove_for_types_result e entity types _ _ Hsolid) as [Hsub _].
      by apply (elem_of_sublist solid' (solidEntities g)). }
    exists h'. split; [|done].
    unfold removeCollisionEntity. rewrite Hg. simpl. rewrite He. simpl.
    by rewrite Ht, Hsolid.
Qed.

(** *** The cached box *)

(** X16.  When [updateAABB] returns, the cached box holds the box of every
    member: the member's own box, or the cached box of its group when it
    has one and is not the owner; no other box is written.  This needs
    the groups of those members to cache in objects other than the one
    that is rebuilt. *)
Theorem updateAABB_encloses_members (h h' : Heap) (owner : ref) (g : Group) :
  group_of h owner = Some g ->
  (forall member gm, member ∈ solidEntities g ->
     delegates h owner member = true -> group_of h member = Some gm ->
     aabb gm <> aabb g) ->
  updateAABB h owner = Some h' ->
  exists cached,
    boxes h' !! aabb g = Some cached /\
    (forall r, r <> aabb g -> boxes h' !! r = boxes h !! r) /\
    forall member, member ∈ solidEntities g ->
      if delegates h owner member
      then forall gm b, group_of h member = Some gm ->
             boxes h !! aabb gm = Some b -> encloses cached b
      else forall e, ents h !! member = Some e ->
             encloses cached (own_getAABB e None).
Proof.
  intros Hg Hdist Hup. unfold updateAABB in Hup. rewrite Hg in Hup.
  simpl in Hup.
  destruct (boxes h !! aabb g) as [old|] eqn:Hold; [|discriminate].
  simpl in Hup.
  set (mbox := fun member =>
                 if delegates h owner member
                 then match group_of h member with
                      | Some gm => default None (boxes h !! aabb gm)
                      | None => None
                      end
                 else match ents h !! member with
                      | Some e => own_getAABB e None
                      | None => None
                      end).
  assert (forall l h0 acc,
            (forall member gm, member ∈ l ->
               delegates h owner member = true -> group_of h member = Some gm ->
               aabb gm <> aabb g) ->
            ents h0 = ents h ->
            boxes h0 = <[aabb g := acc]> (boxes h) ->
            foldl
              (fun acc member =>
                 h1 ← acc;
                 if delegates h1 owner member then
                   gm ← group_of h1 member;
                   box ← boxes h1 !! aabb gm;
                   include_at h1 (aabb g) box
                 else
                   e ← ents h1 !! member;
                   include_at h1 (aabb g) (own_getAABB e None))
              (Some h0) l = Some h' ->
            boxes h' =
              <[aabb g := foldl (fun b member => include b (mbox member)) acc l]>
                (boxes h)) as Hfold.
  { induction l as [|member l IH]; intros h0 acc Hd He Hb Hl.
    - injection Hl as <-. exact Hb.
    - cbn [foldl mbind option_bind] in Hl.
      assert (forall m gm, m ∈ l -> delegates h owner m = true ->
                group_of h m = Some gm -> aabb gm <> aabb g) as Hd'.
      { intros m gm Hm. apply Hd, elem_of_cons. by right. }
      destruct (if delegates h0 owner member
                then gm ← group_of h0 member;
                     box ← boxes h0 !! aabb gm;
                     include_at h0 (aabb g) box
                else e ← ents h0 !! member;
                     include_at h0 (aabb g) (own_getAABB e None))
        as [h1|] eqn:Hstep.
      + assert (ents h1 = ents h /\
                boxes h1 = <[aabb g := include acc (mbox member)]> (boxes h))
          as [He1 Hb1].
        { unfold mbox. rewrite (delegates_ents h0 h) in Hstep by done.
          rewrite (group_of_ents h0 h) in Hstep by done.
          destruct (delegates h owner member) eqn:Hdel.
          - destruct (group_of h member) as [gm|] eqn:Hgm; [|discriminate].
            simpl in Hstep. rewrite Hb in Hstep.
            rewrite lookup_insert_ne in Hstep
              by (apply not_eq_sym, (Hd member gm); [apply elem_of_cons; by left|done|done]).
            destruct (boxes h !! aabb gm) as [box|]; [|discriminate].
            simpl in Hstep. apply include_at_Some in Hstep
              as (He1 & _ & this & Hthis & Hb1).
            rewrite Hb, lookup_insert_eq in Hthis. injection Hthis as <-.
            split; [congruence|]. by rewrite Hb1, Hb, insert_insert_eq.
          - rewrite He in Hstep.
            destruct (ents h !! member) as [e|]; [|discriminate].
            simpl in Hstep. apply include_at_Some in Hstep
              as (He1 & _ & this & Hthis & Hb1).
            rewrite Hb, lookup_insert_eq in Hthis. injection Hthis as <-.
            split; [congruence|]. by rewrite Hb1, Hb, insert_insert_eq. }
        by apply (IH h1 (include acc (mbox member))).
      + exfalso. clear -Hl. induction l as [|m l IHl]; [discriminate|].
        by apply IHl. }
  apply (Hfold (solidEntities g) _ None Hdist) in Hup; [|done|done].
  exists (foldl (fun b member => include b (mbox member)) None (solidEntities g)).
  rewrite Hup. split; [apply lookup_insert_eq|]. split.
  - intros r Hr. by rewrite lookup_insert_ne.
  - intros member Hm.
    destruct (foldl_include_encloses mbox (solidEntities g) None) as [_ Hall].
    specialize (Hall member Hm).
    assert (mbox member =
            if delegates h owner member
            then match group_of h member with
                 | Some gm => default None (boxes h !! aabb gm)
                 | None => None
                 end
            else match ents h !! member with
                 | Some e => own_getAABB e None
                 | None => None
                 end) as Hmbox by reflexivity.
    rewrite Hmbox in Hall. clear Hmbox.
    destruct (delegates h owner member).
    + intros gm b Hgm Hb. rewrite Hgm in Hall. cbv iota beta in Hall.
      pose proof (f_equal (default (None : AABB)) Hb) as Hx.
      cbn [default from_option] in Hx. unfold id in Hx.
      rewrite <- Hx. exact Hall.
    + intros e He. by rewrite He in Hall.
Qed.

(** *** An emptied group *)

Section Destroyed.

Variable Shape : Type.
Variable own_getCollisionTypes : ref -> list string.
Variable own_getSolidCollisions : ref -> gmap string (list string).
Variable own_getShapes : ref -> option string -> option (list Shape).

(** X17.  After [destroy] the group has no member: its size and entity
    count are zero, it has no shapes, collision types or responses, and
    a bounding-box query with a collision type answers a new, empty box.
    The cached box is not rebuilt: a query without a collision type still
    hands back the box cached before. *)
Theorem destroy_empties_group (h : Heap) (owner : ref) (g : Group)
    (collisionType : option string) :
  group_of h owner = Some g ->
  getSize (destroy h owner) owner = Some 0%nat /\
  getAllEntities 1 (destroy h owner) owner = Some 0%nat /\
  getShapes Shape own_getShapes 1 (destroy h owner) owner collisionType
    = Some [] /\
  getCollisionTypes own_getCollisionTypes 1 (destroy h owner) owner = Some [] /\
  getSolidCollisions own_getSolidCollisions 1 (destroy h owner) owner = Some ∅ /\
  (no_filter collisionType = false ->
   exists h' a, getAABB 1 (destroy h owner) owner collisionType = Some (h', a) /\
                (a ∉ dom (boxes h)) /\ boxes h' !! a = Some None) /\
  getAABB 1 (destroy h owner) owner None = Some (destroy h owner, aabb g) /\
  boxes (destroy h owner) !! aabb g = boxes h !! aabb g.
Proof.
  intros Hg.
  pose proof (group_of_set_solidEntities h owner g [] Hg) as Hd.
  fold (destroy h owner) in Hd.
  unfold getSize, getAABB. simpl. rewrite Hd. simpl.
  repeat split; try done.
  intros Hf. rewrite Hf. eexists _, _. split; [done|]. split.
  - apply is_fresh.
  - simpl. apply lookup_insert_eq.
Qed.

End Destroyed.

(** *** Preparation and relocation of a flat group *)

Lemma relocate_owner_deltas_result (h : Heap) (owner : ref) (o : Entity)
    (vector : Vector) (collisionData : CollisionData) :
  ents h !! owner = Some o ->
  relocate_owner_deltas h owner vector collisionData =
  Some (set_ents h
          (<[owner :=
               with_saved_delta o
                 (if owner_collides owner (xEntries collisionData) then 0
                  else saveDX o - (vec_x vector - previousX o))
                 (if owner_collides owner (yEntries collisionData) then 0
                  else saveDY o - (vec_y vector - previousY o))]> (ents h))).
Proof.
  intros Ho. unfold relocate_owner_deltas.
  rewrite (update_entity_Some h owner _ o Ho). simpl.
  erewrite update_entity_Some by (simpl; apply lookup_insert_eq). simpl.
  destruct (owner_collides owner (xEntries collisionData));
    destruct (owner_collides owner (yEntries collisionData)); simpl;
    repeat (erewrite update_entity_Some by (simpl; apply lookup_insert_eq);
            simpl);
    unfold set_ents; simpl; by rewrite !insert_insert_eq.
Qed.

Lemma foldl_option_None {A B : Type} (f : option A -> B -> option A)
    (l : list B) :
  (forall b, f None b = None) -> foldl f None l = None.
Proof. intros Hf. induction l as [|b l IH]; [done|]. simpl. by rewrite Hf. Qed.

Section Protocol.

(** The members' own methods: [prepareCollision] changes no field of any
    entity, and [relocateEntity] puts the entity at the vector and changes
    nothing else of any entity. *)
Variable entity_prepareCollision : Heap -> ref -> Qc -> Qc -> Heap.
Variable entity_relocateEntity :
  Heap -> ref -> Vector -> CollisionData -> Heap.
Hypothesis prepare_keeps_entities :
  forall h r px py, ents (entity_prepareCollision h r px py) = ents h.
Hypothesis relocate_places :
  forall h r v cd,
    ents (entity_relocateEntity h r v cd) =
    alter (fun e => with_position e (vec_x v) (vec_y v)) r (ents h).

Local Abbreviation prepareCollision :=
  (prepareCollision entity_prepareCollision).
Local Abbreviation relocateEntity := (relocateEntity entity_relocateEntity).

Lemma delegates_false_ents (h1 h2 : Heap) (owner child : ref) :
  (forall r, collisionGroup <$> ents h1 !! r = collisionGroup <$> ents h2 !! r) ->
  delegates h1 owner child = delegates h2 owner child.
Proof.
  intros H. unfold delegates, group_of. f_equal.
  specialize (H child).
  destruct (ents h1 !! child) as [e1|], (ents h2 !! child) as [e2|];
    simpl in *; try discriminate; [|done].
  injection H as H. by rewrite H.
Qed.

(** What [prepareCollision] leaves in a flat group: for every member the
    four saved fields, and nothing else changed. *)
Lemma prepareCollision_flat (fuel : nat) (h : Heap) (owner : ref) (g : Group)
    (o : Entity) (px py : Qc) :
  group_of h owner = Some g ->
  ents h !! owner = Some o ->
  (forall member, member ∈ solidEntities g ->
     is_Some (ents h !! member) /\ delegates h owner member = false) ->
  exists h1,
    prepareCollision (S fuel) h owner px py = Some h1 /\
    forall r,
      ents h1 !! r =
      (fun e =>
         if decide (r ∈ solidEntities g)
         then with_saved e (x e - previousX e) (y e - previousY e)
                (previousX o - previousX e) (previousY o - previousY e)
         else e) <$> ents h !! r.
Proof.
  intros Hg Ho Hflat. simpl. rewrite Hg. cbn [mbind option_bind].
  set (saved := fun e =>
         with_saved e (x e - previousX e) (y e - previousY e)
           (previousX o - previousX e) (previousY o - previousY e)).
  assert (forall l done h0,
            (forall member, member ∈ l ->
               is_Some (ents h !! member) /\ delegates h owner member = false) ->
            (forall r, ents h0 !! r =
               (fun e => if decide (r ∈ done) then saved e else e)
                 <$> ents h !! r) ->
            exists h1,
              foldl (prepare_member entity_prepareCollision
                       (prepareCollision fuel) owner px py) (Some h0) l
                = Some h1 /\
              forall r, ents h1 !! r =
                (fun e => if decide (r ∈ done ++ l) then saved e else e)
                  <$> ents h !! r) as Hfold.
  { induction l as [|child l IH]; intros done h0 Hl Hinv.
    - exists h0. split; [done|]. intros r. by rewrite app_nil_r.
    - destruct (Hl child) as [[c Hc] Hd]; [apply elem_of_cons; by left|].
      assert (exists h2,
                save_member h0 owner child = Some h2 /\
                forall r, ents h2 !! r =
                  (fun e => if decide (r ∈ done ++ [child]) then saved e else e)
                    <$> ents h !! r) as (h2 & Hsave & Hinv2).
      { unfold save_member. rewrite (Hinv child), (Hinv owner), Hc, Ho.
        cbn [fmap option_fmap option_map mbind option_bind].
        eexists. split; [reflexivity|]. intros r. cbn [ents set_ents].
        destruct (decide (r = child)) as [->|Hne].
        - rewrite lookup_insert_eq, Hc. simpl.
          destruct (decide (child ∈ done ++ [child])) as [_|Hn];
            [|destruct Hn; apply elem_of_app; right;
              by apply list_elem_of_singleton].
          f_equal. unfold saved.
          destruct (decide (child ∈ done)), (decide (owner ∈ done));
            by destruct c, o.
        - rewrite lookup_insert_ne, Hinv by done.
          destruct (ents h !! r) as [e|]; [|done]. simpl. f_equal.
          destruct (decide (r ∈ done)) as [Hin|Hin],
                   (decide (r ∈ done ++ [child])) as [Hin'|Hin']; try done.
          + destruct Hin'. apply elem_of_app. by left.
          + apply elem_of_app in Hin' as [?|Hin']; [done|].
            by apply list_elem_of_singleton in Hin'. }
      change (foldl ?f (Some h0) (child :: l))
        with (foldl f (f (Some h0) child) l).
      unfold prepare_member at 2. cbn [mbind option_bind].
      rewrite Hsave. cbn [mbind option_bind].
      rewrite (Hinv2 child), Hc. cbn [fmap option_fmap option_map mbind option_bind].
      assert (delegates h2 owner child = false) as ->.
      { rewrite <- Hd. apply delegates_false_ents. intros r.
        rewrite Hinv2. destruct (ents h !! r) as [e|]; [|done]. simpl.
        by destruct (decide _). }
      set (h3 := entity_prepareCollision h2 child _ _).
      destruct (IH (done ++ [child]) h3) as (h1 & Hh1 & Hinv1).
      + intros m Hm. apply Hl, elem_of_cons. by right.
      + intros r. unfold h3. by rewrite prepare_keeps_entities.
      + exists h1. split; [exact Hh1|]. intros r.
        rewrite Hinv1. by rewrite <- app_assoc. }
  destruct (Hfold (solidEntities g) [] h Hflat) as (h1 & Hh1 & Hinv1).
  { intros r. destruct (ents h !! r); [|done]. simpl.
    destruct (decide (r ∈ [])) as [H|_]; [|done]. by apply elem_of_nil in H. }
  exists h1. split; [exact Hh1|]. intros r. by rewrite Hinv1.
Qed.

Lemma carried_deltas (owner r : ref) (e o1 o2 : Entity) :
  saveDX o1 = saveDX o2 -> saveDY o1 = saveDY o2 ->
  carried owner r e o1 = carried owner r e o2.
Proof. intros Hx Hy. unfold carried. by rewrite Hx, Hy. Qed.

Lemma carried_with_position (owner r : ref) (e o : Entity) (a b c d : Qc) :
  with_position (carried owner r (with_position e a b) o) c d =
  with_position e c d.
Proof. unfold carried. by destruct (decide (r = owner)). Qed.

Lemma relocated_with_position (owner : ref) (o : Entity) (vector : Vector)
    (collisionData : CollisionData) (done : list ref) (r : ref) (e : Entity)
    (a b : Qc) :
  with_position (relocated owner o vector collisionData done r e) a b =
  with_position
    (if decide (r = owner)
     then with_saved_delta e
            (if owner_collides owner (xEntries collisionData) then 0
             else saveDX o - (vec_x vector - previousX o))
            (if owner_collides owner (yEntries collisionData) then 0
             else saveDY o - (vec_y vector - previousY o))
     else e) a b.
Proof.
  unfold relocated. cbv zeta.
  destruct (decide (r ∈ done)); [|done]. apply carried_with_position.
Qed.

Lemma relocated_fields (owner : ref) (o : Entity) (vector : Vector)
    (collisionData : CollisionData) (done : list ref) (r : ref) (e : Entity) :
  saveOX (relocated owner o vector collisionData done r e) = saveOX e /\
  saveOY (relocated owner o vector collisionData done r e) = saveOY e /\
  collisionGroup (relocated owner o vector collisionData done r e)
    = collisionGroup e /\
  saveDX (relocated owner o vector collisionData done r e) =
    (if decide (r = owner)
     then if owner_collides owner (xEntries collisionData) then 0
          else saveDX o - (vec_x vector - previousX o)
     else saveDX e) /\
  saveDY (relocated owner o vector collisionData done r e) =
    (if decide (r = owner)
     then if owner_collides owner (yEntries collisionData) then 0
          else saveDY o - (vec_y vector - previousY o)
     else saveDY e).
Proof.
  unfold relocated, carried. cbv zeta.
  destruct (decide (r ∈ done)), (decide (r = owner)); done.
Qed.

(** What [relocateEntity] leaves in a flat group: the owner with its new
    saved deltas, each member put at the vector less its saved offset and
    carried from there, and every other entity as it was. *)
Lemma relocateEntity_flat (fuel : nat) (h : Heap) (owner : ref) (g : Group)
    (o : Entity) (vector : Vector) (collisionData : CollisionData) :
  group_of h owner = Some g ->
  ents h !! owner = Some o ->
  (forall member, member ∈ solidEntities g ->
     is_Some (ents h !! member) /\ delegates h owner member = false) ->
  exists h',
    relocateEntity (S fuel) h owner vector collisionData = Some h' /\
    forall r,
      ents h' !! r =
      relocated owner o vector collisionData (solidEntities g) r
        <$> ents h !! r.
Proof.
  intros Hg Ho Hflat. simpl. rewrite Hg. cbn [mbind option_bind].
  rewrite (relocate_owner_deltas_result h owner o vector collisionData Ho).
  cbn [mbind option_bind].
  set (dx := if owner_collides owner (xEntries collisionData) then 0
             else saveDX o - (vec_x vector - previousX o)).
  set (dy := if owner_collides owner (yEntries collisionData) then 0
             else saveDY o - (vec_y vector - previousY o)).
  assert (forall l done h0,
            (forall member, member ∈ l ->
               is_Some (ents h !! member) /\ delegates h owner member = false) ->
            (forall r, ents h0 !! r =
               relocated owner o vector collisionData done r <$> ents h !! r) ->
            exists h',
              foldl (relocate_member entity_relocateEntity
                       (relocateEntity fuel) owner vector collisionData)
                (Some h0) l = Some h' /\
              forall r, ents h' !! r =
                relocated owner o vector collisionData (done ++ l) r
                  <$> ents h !! r) as Hfold.
  { induction l as [|child l IH]; intros done h0 Hl Hinv.
    - exists h0. split; [done|]. intros r. by rewrite app_nil_r.
    - destruct (Hl child) as [[c Hc] Hd]; [apply elem_of_cons; by left|].
      change (foldl ?f (Some h0) (child :: l))
        with (foldl f (f (Some h0) child) l).
      unfold relocate_member at 2. cbn [mbind option_bind].
      unfold relocate_child. rewrite (Hinv child), Hc.
      cbn [fmap option_fmap option_map mbind option_bind].
      destruct (relocated_fields owner o vector collisionData done child c)
        as (Hox & Hoy & Hcg & _ & _).
      rewrite Hox, Hoy.
      assert (delegates h0 owner child = false) as ->.
      { rewrite <- Hd. apply delegates_false_ents. intros r.
        rewrite Hinv. destruct (ents h !! r) as [e|]; [|done]. simpl.
        f_equal. apply relocated_fields. }
      set (v := {| vec_x := vec_x vector - saveOX c;
                   vec_y := vec_y vector - saveOY c |}).
      set (h2 := entity_relocateEntity h0 child v collisionData).
      cbn [mbind option_bind].
      assert (ents h2 !! child =
              Some (with_position
                      (relocated owner o vector collisionData done child c)
                      (vec_x v) (vec_y v))) as He2.
      { unfold h2. rewrite relocate_places, lookup_alter_eq, Hinv, Hc. done. }
      assert (exists o2, ents h2 !! owner = Some o2 /\
                         saveDX o2 = dx /\ saveDY o2 = dy) as (o2 & Ho2 & Hdx & Hdy).
      { destruct (relocated_fields owner o vector collisionData done owner o)
          as (_ & _ & _ & Hsx & Hsy).
        rewrite decide_True in Hsx, Hsy by done.
        destruct (decide (child = owner)) as [->|Hne].
        - eexists. split; [exact He2|]. simpl. split.
          + replace c with o by congruence. exact Hsx.
          + replace c with o by congruence. exact Hsy.
        - exists (relocated owner o vector collisionData done owner o).
          split; [|done]. unfold h2.
          rewrite relocate_places, lookup_alter_ne, Hinv, Ho by done. done. }
      rewrite (carry_member_carried h2 owner child _ o2 He2 Ho2).
      destruct (IH (done ++ [child])
                  (set_ents h2
                     (<[child :=
                          carried owner child
                            (with_position
                               (relocated owner o vector collisionData done
                                  child c) (vec_x v) (vec_y v)) o2]> (ents h2))))
        as (h' & Hh' & Hinv').
      + intros m Hm. apply Hl, elem_of_cons. by right.
      + intros r. cbn [ents set_ents].
        destruct (decide (r = child)) as [->|Hne].
        * rewrite lookup_insert_eq, Hc. simpl. f_equal.
          rewrite relocated_with_position.
          unfold relocated. cbv zeta. fold dx dy.
          destruct (decide (child ∈ done ++ [child])) as [_|Hn];
            [|destruct Hn; apply elem_of_app; right;
              by apply list_elem_of_singleton].
          by apply carried_deltas.
        * rewrite lookup_insert_ne by done. unfold h2.
          rewrite relocate_places, lookup_alter_ne, Hinv by done.
          destruct (ents h !! r) as [e|]; [|done]. simpl. f_equal.
          unfold relocated. cbv zeta.
          destruct (decide (r ∈ done)) as [Hin|Hin],
                   (decide (r ∈ done ++ [child])) as [Hin'|Hin']; try done.
          -- destruct Hin'. apply elem_of_app. by left.
          -- apply elem_of_app in Hin' as [?|Hin']; [done|].
             by apply list_elem_of_singleton in Hin'.
      + exists h'. split; [exact Hh'|]. intros r.
        rewrite Hinv'. by rewrite <- app_assoc. }
  destruct (Hfold (solidEntities g) []
              (set_ents h (<[owner := with_saved_delta o dx dy]> (ents h))) Hflat)
    as (h' & Hh' & Hinv').
  { intros r. cbn [ents set_ents]. unfold relocated. cbv zeta. fold dx dy.
    destruct (decide (r = owner)) as [->|Hne].
    - rewrite lookup_insert_eq, Ho. simpl.
      destruct (decide (owner ∈ [])) as [H|_]; [by apply elem_of_nil in H|].
      done.
    - rewrite lookup_insert_ne by done.
      destruct (ents h !! r) as [e|]; [|done]. simpl.
      destruct (decide (r ∈ [])) as [H|_]; [by apply elem_of_nil in H|].
      done. }
  exists h'. split; [exact Hh'|]. intros r. by rewrite Hinv'.
Qed.

(** X18.  [prepareCollision] on a group none of whose members delegates,
    with members whose own [prepareCollision] changes no entity: it
    returns, each member has its displacement since the last frame in
    [saveDX], [saveDY] and the offset of the owner's previous position
    from its own in [saveOX], [saveOY], its position and previous position
    are as they were, and an entity that is no member is as it was. *)
Theorem prepareCollision_saves_members (fuel : nat) (h : Heap) (owner : ref)
    (g : Group) (o : Entity) (px py : Qc) :
  group_of h owner = Some g ->
  ents h !! owner = Some o ->
  (forall member, member ∈ solidEntities g ->
     is_Some (ents h !! member) /\ delegates h owner member = false) ->
  exists h1,
    prepareCollision (S fuel) h owner px py = Some h1 /\
    (forall member e,
       member ∈ solidEntities g -> ents h !! member = Some e ->
       exists e',
         ents h1 !! member = Some e' /\
         saveDX e' = x e - previousX e /\
         saveDY e' = y e - previousY e /\
         saveOX e' = previousX o - previousX e /\
         saveOY e' = previousY o - previousY e /\
         x e' = x e /\ y e' = y e /\
         previousX e' = previousX e /\ previousY e' = previousY e) /\
    (forall r, r ∉ solidEntities g -> ents h1 !! r = ents h !! r).
Proof.
  intros Hg Ho Hflat.
  destruct (prepareCollision_flat fuel h owner g o px py Hg Ho Hflat)
    as (h1 & Hh1 & Hinv).
  exists h1. split; [exact Hh1|]. split.
  - intros member e Hin He. eexists. split.
    + rewrite Hinv, He. simpl. rewrite decide_True by exact Hin. reflexivity.
    + done.
  - intros r Hr. rewrite Hinv. destruct (ents h !! r) as [e|]; [|done].
    simpl. by rewrite decide_False by exact Hr.
Qed.

(** X19.  [relocateEntity] on such a group, with members whose own
    [relocateEntity] puts them at the vector and changes nothing else: it
    returns; along each axis the owner, if it is a member, ends at the
    vector less its saved offset plus its new saved delta (zero if it
    collided along the axis, else its saved delta less the vector's
    distance from its previous position), and any other member at the
    vector less its saved offset plus its saved delta plus the owner's new
    one.  An entity that is neither a member nor the owner is as it
    was. *)
Theorem relocateEntity_flat_positions (fuel : nat) (h : Heap) (owner : ref)
    (g : Group) (o : Entity) (vector : Vector) (collisionData : CollisionData) :
  group_of h owner = Some g ->
  ents h !! owner = Some o ->
  (forall member, member ∈ solidEntities g ->
     is_Some (ents h !! member) /\ delegates h owner member = false) ->
  exists h',
    relocateEntity (S fuel) h owner vector collisionData = Some h' /\
    (forall member e,
       member ∈ solidEntities g -> ents h !! member = Some e ->
       exists e',
         ents h' !! member = Some e' /\
         x e' = vec_x vector - saveOX e +
                (if decide (member = owner) then 0 else saveDX e) +
                (if owner_collides owner (xEntries collisionData) then 0
                 else saveDX o - (vec_x vector - previousX o)) /\
         y e' = vec_y vector - saveOY e +
                (if decide (member = owner) then 0 else saveDY e) +
                (if owner_collides owner (yEntries collisionData) then 0
                 else saveDY o - (vec_y vector - previousY o))) /\
    (forall r, r ∉ solidEntities g -> r <> owner ->
               ents h' !! r = ents h !! r).
Proof.
  intros Hg Ho Hflat.
  destruct (relocateEntity_flat fuel h owner g o vector collisionData
              Hg Ho Hflat) as (h' & Hh' & Hinv).
  exists h'. split; [exact Hh'|]. split.
  - intros member e Hin He. eexists. split.
    + rewrite Hinv, He. reflexivity.
    + unfold relocated, carried. cbv zeta.
      rewrite decide_True by exact Hin.
      destruct (decide (member = owner)); simpl; split; ring.
  - intros r Hr Hne. rewrite Hinv. destruct (ents h !! r) as [e|]; [|done].
    simpl. unfold relocated. cbv zeta.
    by rewrite decide_False, decide_False by done.
Qed.


End Protocol.

(** *** The handler of ['relocate-entity'] *)

(** X21.  On a well-formed heap the handler of ['relocate-entity'] returns:
    the owner's previous position is now its position, no other field of
    any entity has changed (the memberships among them), no box object was
    made or dropped, and the cached box of the group is there. *)
Theorem relocate_entity_records_position (h : Heap) (owner : ref) (g : Group)
    (o : Entity) :
  well_formed h ->
  group_of h owner = Some g ->
  ents h !! owner = Some o ->
  exists h',
    relocate_entity h owner = Some h' /\
    ents h' = <[owner := with_previous o (x o) (y o)]> (ents h) /\
    group_of h' owner = Some g /\
    dom (boxes h') = dom (boxes h) /\
    is_Some (boxes h' !! aabb g).
Proof.
  intros Hwf Hg Ho. unfold relocate_entity.
  rewrite (update_entity_Some h owner _ o Ho). cbn [mbind option_bind].
  set (h1 := set_ents h (<[owner := with_previous o (x o) (y o)]> (ents h))).
  assert (collisionGroup o = Some g) as Hcg.
  { unfold group_of in Hg. by rewrite Ho in Hg. }
  assert (forall r e1, ents h1 !! r = Some e1 ->
            exists e, ents h !! r = Some e /\
                      collisionGroup e1 = collisionGroup e) as Hback.
  { intros r e1. unfold h1. cbn [ents set_ents].
    destruct (decide (r = owner)) as [->|Hne].
    - rewrite lookup_insert_eq. intros [= <-]. by exists o.
    - rewrite lookup_insert_ne by done. intros He1. by exists e1. }
  assert (group_of h1 owner = Some g) as Hg1.
  { unfold group_of, h1. cbn [ents set_ents]. by rewrite lookup_insert_eq. }
  destruct (Hwf owner o g Ho Hcg) as [Hbox Hmem].
  destruct (updateAABB_total h1 owner g Hg1) as (h' & Hup & He & Hd).
  - exact Hbox.
  - intros member Hin. destruct (Hmem member Hin) as [e He].
    unfold h1. cbn [ents set_ents]. destruct (decide (member = owner)) as [->|Hne].
    + rewrite lookup_insert_eq. by eexists.
    + rewrite lookup_insert_ne by done. by eexists.
  - intros member gm _ Hgm. unfold group_of in Hgm.
    destruct (ents h1 !! member) as [e1|] eqn:He1; [|discriminate].
    simpl in Hgm. destruct (Hback member e1 He1) as (e & He & Hsame).
    rewrite Hsame in Hgm. by destruct (Hwf member e gm He Hgm).
  - exists h'. split; [exact Hup|]. split; [by rewrite He|].
    split; [by rewrite (group_of_ents h' h1)|]. split; [exact Hd|].
    apply elem_of_dom. rewrite Hd. by apply elem_of_dom.
Qed.

End CollisionGroupMore.

(** ** The state map *)

Section StateMapFacts.

Import StateMap StateMapSpec.

Context {DataMap : Type}.
Variable DataMap_get : DataMap -> string -> value.
Variable DataMap_set : DataMap -> string -> value -> DataMap.
Variable DataMap_keys : DataMap -> list string.
Variable greenSplit : string -> list string.

Local Abbreviation update_entry := (update_entry DataMap DataMap_set).
Local Abbreviation updateFromString :=
  (updateFromString DataMap DataMap_set greenSplit).
Local Abbreviation update_key := (update_key DataMap DataMap_get DataMap_set).
Local Abbreviation update :=
  (update DataMap DataMap_get DataMap_set DataMap_keys).
Local Abbreviation includes_from := (includes_from DataMap DataMap_get).
Local Abbreviation includes := (includes DataMap DataMap_get DataMap_keys).
Local Abbreviation intersects_from := (intersects_from DataMap DataMap_get).
Local Abbreviation intersects := (intersects DataMap DataMap_get DataMap_keys).

Lemma includes_from_all (this other : DataMap) (keys : list string) :
  includes_from this other keys = true <->
  forall key, key ∈ keys -> DataMap_get this key = DataMap_get other key.
Proof.
  induction keys as [|state rest IH]; simpl.
  - split; [|done]. intros _ key H. by apply elem_of_nil in H.
  - destruct (decide (DataMap_get this state <> DataMap_get other state))
      as [Hne|Heq].
    + split; [done|]. intros H. destruct Hne. apply H, elem_of_cons. by left.
    + apply dec_stable in Heq. rewrite IH. split.
      * intros H key Hk. apply elem_of_cons in Hk as [->|Hk]; [done|by apply H].
      * intros H key Hk. apply H, elem_of_cons. by right.
Qed.

Lemma intersects_from_some (this other : DataMap) (keys : list string) :
  intersects_from this other keys = true <->
  exists key, key ∈ keys /\ DataMap_get this key = DataMap_get other key.
Proof.
  induction keys as [|state rest IH]; simpl.
  - split; [done|]. intros (key & H & _). by apply elem_of_nil in H.
  - destruct (decide (DataMap_get this state = DataMap_get other state))
      as [Heq|Hne].
    + split; [|done]. intros _. exists state. split; [|done].
      apply elem_of_cons. by left.
    + rewrite IH. split.
      * intros (key & Hk & He). exists key. split; [|done].
        apply elem_of_cons. by right.
      * intros (key & Hk & He). apply elem_of_cons in Hk as [->|Hk]; [done|].
        by exists key.
Qed.

(** X25.  [includes] answers whether the two maps agree on every key the
    other map lists, [intersects] whether they agree on at least one: of a
    map that lists no key, every map includes it and none intersects it. *)
Theorem includes_all_intersects_some (this other : DataMap) :
  (includes this other = true <->
   forall key, key ∈ DataMap_keys other ->
               DataMap_get this key = DataMap_get other key) /\
  (intersects this other = true <->
   exists key, key ∈ DataMap_keys other /\
               DataMap_get this key = DataMap_get other key) /\
  (DataMap_keys other = [] ->
   includes this other = true /\ intersects this other = false).
Proof.
  unfold StateMap.includes, StateMap.intersects. split; [|split].
  - rewrite includes_from_all. by setoid_rewrite elem_of_reverse.
  - rewrite intersects_from_some. by setoid_rewrite elem_of_reverse.
  - by intros ->.
Qed.

(** X24.  [includes] is transitive on maps that list a key exactly when
    they hold something for it. *)
Theorem includes_transitive (a b c : DataMap) :
  (forall key, DataMap_get b key <> None -> key ∈ DataMap_keys b) ->
  (forall key, key ∈ DataMap_keys c -> DataMap_get c key <> None) ->
  includes a b = true -> includes b c = true -> includes a c = true.
Proof.
  unfold StateMap.includes. rewrite !includes_from_all.
  intros Hb Hc Hab Hbc key Hk.
  rewrite <- (Hbc key Hk). apply Hab. apply elem_of_reverse, Hb.
  rewrite (Hbc key Hk). apply Hc. by apply elem_of_reverse.
Qed.

Section WithDataMap.

(** What the methods rely on: [get] answers what [set] stored last for
    the key, and [set] leaves the other keys alone. *)
Hypothesis get_set :
  forall m key v, DataMap_get (DataMap_set m key v) key = v.
Hypothesis get_set_other :
  forall m key v other,
    other <> key -> DataMap_get (DataMap_set m key v) other = DataMap_get m other.

Lemma update_fold (newState : DataMap) (keys : list string) :
  forall acc changed,
    let r := foldl (update_key newState) (acc, changed) keys in
    (forall key, key ∈ keys ->
                 DataMap_get r.1 key = DataMap_get newState key) /\
    (forall key, key ∉ keys -> DataMap_get r.1 key = DataMap_get acc key) /\
    r.2 = changed || negb (includes_from acc newState keys).
Proof.
  induction keys as [|state rest IH]; intros acc changed.
  - simpl. split; [|split].
    + intros key H. by apply elem_of_nil in H.
    + done.
    + by rewrite orb_false_r.
  - change (foldl ?f (acc, changed) (state :: rest))
      with (foldl f (f (acc, changed) state) rest).
    set (st1 := update_key newState (acc, changed) state).
    assert (DataMap_get st1.1 state = DataMap_get newState state /\
            (forall key, key <> state ->
                         DataMap_get st1.1 key = DataMap_get acc key) /\
            st1.2 = changed ||
                    bool_decide (DataMap_get acc state <>
                                 DataMap_get newState state) /\
            (DataMap_get acc state = DataMap_get newState state -> st1.1 = acc))
      as (Hs & Ho & Hc & Hsame).
    { unfold st1, StateMap.update_key. cbn [fst snd].
      destruct (decide (DataMap_get acc state <> DataMap_get newState state))
        as [Hne|Heq]; cbn [fst snd].
      - rewrite bool_decide_true by done. rewrite orb_true_r.
        split; [apply get_set|]. split; [|done].
        intros key Hk. by apply get_set_other.
      - rewrite bool_decide_false by done. rewrite orb_false_r.
        split; [by apply dec_stable in Heq|]. done. }
    destruct (IH st1.1 st1.2) as (H1 & H2 & H3).
    rewrite <- surjective_pairing in H1, H2, H3.
    cbv zeta. split; [|split].
    + intros key Hk. destruct (decide (key ∈ rest)) as [Hin|Hnin].
      * by apply H1.
      * apply elem_of_cons in Hk as [->|Hk]; [|done]. by rewrite H2.
    + intros key Hk. apply not_elem_of_cons in Hk as [Hne Hnin].
      rewrite H2 by done. by apply Ho.
    + rewrite H3, Hc. cbn [StateMap.includes_from].
      destruct (decide (DataMap_get acc state <> DataMap_get newState state))
        as [Hne|Heq].
      * rewrite bool_decide_true by done. cbn [negb].
        by rewrite !orb_true_r.
      * rewrite bool_decide_false by done. rewrite orb_false_r.
        apply dec_stable in Heq. by rewrite (Hsame Heq).
Qed.

Lemma update_fold_same (newState : DataMap) (keys : list string) :
  forall acc changed,
    includes_from acc newState keys = true ->
    foldl (update_key newState) (acc, changed) keys = (acc, changed).
Proof.
  induction keys as [|state rest IH]; intros acc changed H; [done|].
  simpl in H.
  change (foldl ?f (acc, changed) (state :: rest))
    with (foldl f (f (acc, changed) state) rest).
  unfold StateMap.update_key at 2. cbn [fst snd].
  destruct (decide (DataMap_get acc state <> DataMap_get newState state));
    [done|]. by apply IH.
Qed.

(** X22.  After [update] the map agrees with the new state on every key
    the new state lists, so that it includes it, and holds what it held
    for every other key. *)
Theorem update_matches (this newState : DataMap) :
  (forall key, key ∈ DataMap_keys newState ->
     DataMap_get (update this newState).1 key = DataMap_get newState key) /\
  (forall key, key ∉ DataMap_keys newState ->
     DataMap_get (update this newState).1 key = DataMap_get this key) /\
  includes (update this newState).1 newState = true.
Proof.
  destruct (update_fold newState (reverse (DataMap_keys newState)) this false)
    as (H1 & H2 & _).
  assert (forall key, key ∈ DataMap_keys newState ->
            DataMap_get (update this newState).1 key =
            DataMap_get newState key) as Hin.
  { intros key Hk. apply H1. by apply elem_of_reverse. }
  split; [exact Hin|]. split.
  - intros key Hk. apply H2. by rewrite elem_of_reverse.
  - unfold StateMap.includes. apply includes_from_all.
    intros key Hk. apply Hin. by apply elem_of_reverse.
Qed.

(** X23.  [update] returns [true] exactly when the map did not include the
    new state, that is when it had to change something; when it returns
    [false] it has called [set] not once. *)
Theorem update_reports_change (this newState : DataMap) :
  (update this newState).2 = negb (includes this newState) /\
  ((update this newState).2 = false -> (update this newState).1 = this).
Proof.
  destruct (update_fold newState (reverse (DataMap_keys newState)) this false)
    as (_ & _ & H3).
  assert ((update this newState).2 = negb (includes this newState)) as Hc.
  { exact H3. }
  split; [exact Hc|]. rewrite Hc. intros Hi. apply negb_false_iff in Hi.
  unfold StateMap.update.
  by rewrite (update_fold_same newState _ this false Hi).
Qed.

Lemma update_entry_get (m : DataMap) (str key : string) :
  DataMap_get (update_entry m str) key =
  match says key str with
  | Some v => Some v
  | None => DataMap_get m key
  end.
Proof.
  unfold StateMap.update_entry, says. destruct str as [|c rest]; [done|].
  destruct (Ascii.eqb c "!").
  - destruct (String.eqb_spec rest key) as [->|Hne]; [apply get_set|].
    apply get_set_other. congruence.
  - destruct (String.eqb_spec (String c rest) key) as [<-|Hne];
      [apply get_set|].
    apply get_set_other. congruence.
Qed.

(** X26.  [updateFromString] takes the entries from the last to the first,
    so for a state the list names more than once the first entry that
    names it decides; a state the list does not name is as it was.  An
    empty entry names nothing, and the entry ["!"] clears the state whose
    name is the empty string. *)
Theorem updateFromString_first_entry_decides (this : DataMap)
    (states key : string) :
  DataMap_get (updateFromString this states) key =
  match stated key (greenSplit states) with
  | [] => DataMap_get this key
  | v :: _ => Some v
  end.
Proof.
  unfold StateMap.updateFromString, stated.
  induction (greenSplit states) as [|str arr IH]; [done|].
  rewrite reverse_cons, foldl_app. cbn [foldl].
  rewrite update_entry_get. cbn [omap list_omap].
  destruct (says key str) as [v|]; [done|]. exact IH.
Qed.

End WithDataMap.

End StateMapFacts.

(** ** Examples for the scheduler's other properties *)

Section SchedulerMoreExamples.

Import JSNumber HandlerLogic HandlerLogicBus SchedulerScene BusScene.

Lemma watching_message (l : list nat) :
  message_of nat (watching l) = window_message.
Proof. by vm_compute. Qed.

Lemma scene_is_quiet :
  quiet_children nat unit trigger_handle_logic /\
  quiet_children nat unit trigger_odd /\
  quiet_owner nat unit trigger_check_collision_group trigger_time_elapsed.
Proof. by repeat split. Qed.



(** A listener that spawns: the pass over [[0]] ends with [[0; 9]], and
    a tick of [46], three steps, sends to [0], then to [9] and [0] twice
    over. *)
Example pass_with_spawn :
  entities nat (spawning_pass 1 tt (watching [0%nat]) []).1.2 =
    [0%nat; 9%nat] /\
  entities nat (spawning_tick (watching [0%nat]) forty_six tt).1.1 =
    [0%nat; 9%nat; 9%nat; 9%nat] /\
  (dispatched_to nat (spawning_tick (watching [0%nat]) forty_six tt).2).*1 =
    [0%nat; 9%nat; 0%nat; 9%nat; 9%nat; 0%nat].
Proof. repeat apply conj; by vm_compute. Qed.

(** Four entities, none with a position, the odd ones with a listener:
    all four are sent the message, from the last to the first, and the
    even ones are taken off the list. *)
Lemma logic_pass_removes_silent_witness :
  entities nat
    (logic_pass nat unit getMessageIds unplaced unplaced trigger_odd 4 tt
       (watching [0%nat; 1%nat; 2%nat; 3%nat]) []).1.2 = [1%nat; 3%nat] /\
  dispatched_to nat
    (logic_pass nat unit getMessageIds unplaced unplaced trigger_odd 4 tt
       (watching [0%nat; 1%nat; 2%nat; 3%nat]) []).2 =
    [(3%nat, window_message); (2%nat, window_message);
     (1%nat, window_message); (0%nat, window_message)].
Proof.
  destruct scene_is_quiet as (_ & Q & _).
  apply (logic_pass_removes_silent getMessageIds unplaced unplaced
           trigger_odd window_message has_listener Q
           (fun _ _ => eq_refl) (fun _ _ => eq_refl)
           tt (watching [0%nat; 1%nat; 2%nat; 3%nat]) (watching_message _)).
Defined.

(** After a tick of [40], which runs two steps, three ticks of [10] run
    none, though they add up to two step lengths. *)
Lemma short_ticks_never_step_witness :
  steps_run nat
    (deliver_all
       (deliver_all (fresh_state, tt, []) started)
       (Tick <$> [ten; ten; ten])).2 =
  steps_run nat (deliver_all (fresh_state, tt, []) started).2 /\
  dispatched_to nat
    (deliver_all
       (deliver_all (fresh_state, tt, []) started)
       (Tick <$> [ten; ten; ten])).2 =
  dispatched_to nat (deliver_all (fresh_state, tt, []) started).2.
Proof.
  apply (short_ticks_never_step getMessageIds entity_x entity_y
           trigger_handle_logic trigger_check_collision_group
           trigger_time_elapsed
           {| def_stepLength := None; def_buffer := None |}
           started tt [ten; ten; ten]).
  repeat (apply Forall_cons_2; [apply conj; by vm_compute|]).
  apply Forall_nil_2.
Defined.

(** A viewport of [400 x 300] at the origin, and an entity at
    [(200, 100)]. *)
Lemma viewport_inside_window_witness :
  in_window (camera nat (camera_update nat fresh_state
                           (viewport four_hundred)))
    (Some two_hundred) (Some hundred) = true.
Proof.
  apply (viewport_inside_window fresh_state (viewport four_hundred)
           two_hundred hundred); by vm_compute.
Defined.

End SchedulerMoreExamples.

(** ** Examples for the collision group's other properties *)

Section CollisionGroupMoreExamples.

Import CollisionGroup CollisionGroupSpec CollisionGroupMethods.
Import CollisionGroupMethodsSpec CollisionScene MembersScene.

(** The platform carries itself and the crate, the crate itself and the
    passenger: three entities are asked. *)
Lemma getAllEntities_counts_leaves_witness :
  getAllEntities 2 stacked 0%nat = Some 3%nat.
Proof.
  destruct (getAllEntities_counts_leaves stacked 2 0%nat platform_group
              stacked_nests eq_refl) as [H _].
  exact H.
Defined.

(** The passenger has no shape. *)
Lemma getShapes_concatenates_witness :
  getShapes nat own_getShapes 2 stacked 0%nat (Some "solid")
  = Some [0%nat; 1%nat].
Proof.
  exact (getShapes_concatenates nat own_getShapes stacked (Some "solid") 2
           0%nat stacked_nests).
Defined.

Lemma getCollisionTypes_union_witness :
  exists types,
    getCollisionTypes own_getCollisionTypes 2 stacked 0%nat = Some types /\
    (forall t, t ∈ types <->
       exists leaf, leaf ∈ leaves stacked 2 0%nat /\
                    t ∈ own_getCollisionTypes leaf) /\
    ((forall leaf, leaf ∈ leaves stacked 2 0%nat ->
        NoDup (own_getCollisionTypes leaf)) ->
     NoDup types).
Proof.
  exact (getCollisionTypes_union own_getCollisionTypes stacked 2 0%nat
           stacked_nests).
Defined.

Lemma getSolidCollisions_union_witness :
  exists compiled,
    getSolidCollisions own_getSolidCollisions 2 stacked 0%nat = Some compiled /\
    forall key,
      (is_Some (compiled !! key) <->
       exists leaf, leaf ∈ leaves stacked 2 0%nat /\
                    is_Some (own_getSolidCollisions leaf !! key)) /\
      forall item,
        (exists l, compiled !! key = Some l /\ item ∈ l) <->
        exists leaf l, leaf ∈ leaves stacked 2 0%nat /\
                       own_getSolidCollisions leaf !! key = Some l /\
                       item ∈ l.
Proof.
  exact (getSolidCollisions_union own_getSolidCollisions stacked 2 0%nat
           stacked_nests).
Defined.

(** The passenger, listed once by the crate, has two collision types with
    a response: its one entry goes. *)
Lemma removeCollisionEntity_removes_per_type_witness :
  exists h' g',
    removeCollisionEntity stacked 1%nat 2%nat = Some h' /\
    group_of h' 1%nat = Some g' /\
    solidEntities g' `sublist_of` [1%nat; 2%nat] /\
    filter (fun r => r <> 2%nat) (solidEntities g') =
      filter (fun r => r <> 2%nat) [1%nat; 2%nat] /\
    occurrences 2%nat (solidEntities g') =
      (occurrences 2%nat [1%nat; 2%nat] -
       responding (body 20 (-10) None) ["solid"; "hero"])%nat.
Proof.
  destruct (removeCollisionEntity stacked 1%nat 2%nat) as [h'|] eqn:E;
    [|vm_compute in E; discriminate E].
  exists h'.
  destruct (removeCollisionEntity_removes_per_type stacked h' 1%nat 2%nat
              crate_group (body 20 (-10) None) ["solid"; "hero"]
              eq_refl eq_refl eq_refl E) as (g' & H).
  by exists g'.
Defined.

Lemma crate_types_respond (t : string) :
  t ∈ ["solid"; "hero"] ->
  is_Some (solidCollisions (body 20 0 None) !! t).
Proof.
  intros Ht. apply elem_of_cons in Ht as [->|Ht]; [by eexists|].
  apply elem_of_cons in Ht as [->|Ht]; [by eexists|].
  by apply elem_of_nil in Ht.
Qed.

Lemma add_then_remove_restores_witness :
  exists h1 h2,
    addCollisionEntity empty_platform 0%nat 1%nat = Some h1 /\
    removeCollisionEntity h1 0%nat 1%nat = Some h2 /\
    ents h2 = ents empty_platform.
Proof.
  apply (add_then_remove_restores empty_platform 0%nat 1%nat
           {| solidEntities := []; aabb := 0%nat; prevAABB := 1%nat |}
           (body 20 0 None) ["solid"; "hero"]).
  - exact empty_platform_well_formed.
  - reflexivity.
  - reflexivity.
  - reflexivity.
  - exact crate_types_respond.
  - intros H. by apply elem_of_nil in H.
Defined.

Lemma membership_keeps_well_formed_witness :
  (exists h', addCollisionEntity empty_platform 0%nat 1%nat = Some h' /\
              well_formed h') /\
  (exists h', removeCollisionEntity empty_platform 0%nat 1%nat = Some h' /\
              well_formed h').
Proof.
  apply (membership_keeps_well_formed empty_platform 0%nat 1%nat
           {| solidEntities := []; aabb := 0%nat; prevAABB := 1%nat |}
           (body 20 0 None) ["solid"; "hero"]).
  - exact empty_platform_well_formed.
  - reflexivity.
  - reflexivity.
  - reflexivity.
  - exact crate_types_respond.
Defined.

(** The platform's cached box is rebuilt from its own box, which is empty
    without a collision type, and the crate's cached box. *)
Lemma updateAABB_encloses_members_witness :
  exists h' cached,
    updateAABB stacked 0%nat = Some h' /\
    boxes h' !! 0%nat = Some cached /\
    (forall r, r <> 0%nat -> boxes h' !! r = boxes stacked !! r) /\
    encloses cached (square 20 (-10) 20).
Proof.
  destruct (updateAABB stacked 0%nat) as [h'|] eqn:E; [|vm_compute in E; discriminate E].
  destruct (updateAABB_encloses_members stacked h' 0%nat platform_group)
    as (cached & Hc & Hother & Hall).
  - reflexivity.
  - intros member gm Hin Hd Hgm.
    apply elem_of_cons in Hin as [->|Hin]; [discriminate|].
    apply elem_of_cons in Hin as [->|Hin]; [|by apply elem_of_nil in Hin].
    injection Hgm as <-. discriminate.
  - exact E.
  - exists h', cached. split; [done|]. split; [exact Hc|].
    split; [exact Hother|].
    assert (1%nat ∈ solidEntities platform_group) as Hin.
    { apply elem_of_cons. right. apply elem_of_cons. by left. }
    apply (Hall 1%nat Hin crate_group); reflexivity.
Defined.

Lemma destroy_empties_group_witness :
  getSize (destroy stacked 0%nat) 0%nat = Some 0%nat /\
  getAllEntities 1 (destroy stacked 0%nat) 0%nat = Some 0%nat /\
  getShapes nat own_getShapes 1 (destroy stacked 0%nat) 0%nat (Some "solid")
    = Some [] /\
  getCollisionTypes own_getCollisionTypes 1 (destroy stacked 0%nat) 0%nat
    = Some [] /\
  getSolidCollisions own_getSolidCollisions 1 (destroy stacked 0%nat) 0%nat
    = Some ∅ /\
  (no_filter (Some "solid") = false ->
   exists h' a,
     getAABB 1 (destroy stacked 0%nat) 0%nat (Some "solid") = Some (h', a) /\
     (a ∉ dom (boxes stacked)) /\ boxes h' !! a = Some None) /\
  getAABB 1 (destroy stacked 0%nat) 0%nat None
    = Some (destroy stacked 0%nat, aabb platform_group) /\
  boxes (destroy stacked 0%nat) !! aabb platform_group
    = boxes stacked !! aabb platform_group.
Proof.
  exact (destroy_empties_group nat own_getCollisionTypes
           own_getSolidCollisions own_getShapes stacked 0%nat platform_group
           (Some "solid") eq_refl).
Defined.

Lemma riding_flat (member : ref) :
  member ∈ solidEntities riding_group ->
  is_Some (ents riding !! member) /\ delegates riding 0%nat member = false.
Proof.
  intros Hin. apply elem_of_cons in Hin as [->|Hin]; [by split; [eexists|]|].
  apply elem_of_cons in Hin as [->|Hin]; [by split; [eexists|]|].
  by apply elem_of_nil in Hin.
Qed.

Lemma riding_well_formed : well_formed riding.
Proof.
  intros o e g Ho Hg. unfold riding in Ho. simpl in Ho.
  destruct (decide (o = 0%nat)) as [->|H0].
  - rewrite lookup_insert_eq in Ho. injection Ho as <-.
    injection Hg as <-. split; [by eexists|]. apply riding_flat.
  - rewrite lookup_insert_ne in Ho by done.
    destruct (decide (o = 1%nat)) as [->|H1].
    + rewrite lookup_singleton_eq in Ho. injection Ho as <-. discriminate.
    + by rewrite lookup_singleton_ne in Ho.
Qed.

(** The platform has moved from [(0, 0)] to [(5, 3)], the crate rests at
    [(20, 0)]. *)
Lemma prepareCollision_saves_members_witness :
  exists h1,
    prepareCollision keep 1 riding 0%nat 0 0 = Some h1 /\
    (forall member e,
       member ∈ solidEntities riding_group -> ents riding !! member = Some e ->
       exists e',
         ents h1 !! member = Some e' /\
         saveDX e' = x e - previousX e /\
         saveDY e' = y e - previousY e /\
         saveOX e' = previousX riding_platform - previousX e /\
         saveOY e' = previousY riding_platform - previousY e /\
         x e' = x e /\ y e' = y e /\
         previousX e' = previousX e /\ previousY e' = previousY e) /\
    (forall r, r ∉ solidEntities riding_group ->
               ents h1 !! r = ents riding !! r).
Proof.
  apply (prepareCollision_saves_members keep (fun _ _ _ _ => eq_refl)
           0 riding 0%nat riding_group riding_platform 0 0).
  - reflexivity.
  - reflexivity.
  - exact riding_flat.
Defined.

Lemma relocateEntity_flat_positions_witness :
  exists h',
    relocateEntity place 1 riding 0%nat resolved stopped_along_x = Some h' /\
    stands_at h' 0%nat 2 3 = true /\
    stands_at h' 1%nat 22 3 = true.
Proof.
  destruct (relocateEntity_flat_positions place (fun _ _ _ _ => eq_refl)
              0 riding 0%nat riding_group riding_platform resolved
              stopped_along_x eq_refl eq_refl riding_flat)
    as (h' & Hh' & _).
  exists h'. split; [exact Hh'|].
  injection Hh' as <-. split; by vm_compute.
Defined.


Lemma relocate_entity_records_position_witness :
  exists h',
    relocate_entity riding 0%nat = Some h' /\
    ents h' =
      <[0%nat := with_previous riding_platform (x riding_platform)
                   (y riding_platform)]> (ents riding) /\
    group_of h' 0%nat = Some riding_group /\
    dom (boxes h') = dom (boxes riding) /\
    is_Some (boxes h' !! aabb riding_group).
Proof.
  apply (relocate_entity_records_position riding 0%nat riding_group
           riding_platform).
  - exact riding_well_formed.
  - reflexivity.
  - reflexivity.
Defined.

End CollisionGroupMoreExamples.

(** ** Examples for the state map *)

Section StateMapExamples.

Import StateMap StateMapSpec DataMapScene.

Lemma get_set (m : DataMap) (key : string) (v : value) :
  get (set m key v) key = v.
Proof. unfold get, set. simpl. by rewrite String.eqb_refl. Qed.

Lemma get_set_other (m : DataMap) (key : string) (v : value) (other : string) :
  other <> key -> get (set m key v) other = get m other.
Proof.
  intros Hne. unfold get, set. simpl.
  by destruct (String.eqb_spec other key).
Qed.

(** A map that holds [blue: false] is updated to [blue, red, !green]. *)
Lemma update_matches_witness :
  (forall key, key ∈ keys colours ->
     get (update not_blue colours).1 key = get colours key) /\
  (forall key, key ∉ keys colours ->
     get (update not_blue colours).1 key = get not_blue key) /\
  includes (update not_blue colours).1 colours = true.
Proof.
  exact (update_matches get set keys get_set get_set_other not_blue colours).
Defined.

Lemma update_reports_change_witness :
  (update not_blue colours).2 = negb (includes not_blue colours) /\
  ((update not_blue colours).2 = false ->
   (update not_blue colours).1 = not_blue).
Proof.
  exact (update_reports_change get set keys get_set get_set_other
           not_blue colours).
Defined.

Lemma blue_red_listed (key : string) :
  get blue_red key <> None -> key ∈ keys blue_red.
Proof.
  intros H. destruct (String.eqb_spec key "blue") as [->|Hb].
  - apply elem_of_cons. right. apply elem_of_cons. by left.
  - destruct (String.eqb_spec key "red") as [->|Hr].
    + apply elem_of_cons. by left.
    + destruct H. unfold get. simpl.
      destruct (String.eqb_spec key "blue"); [done|].
      by destruct (String.eqb_spec key "red").
Qed.

Lemma blue_only_held (key : string) :
  key ∈ keys blue_only -> get blue_only key <> None.
Proof.
  intros H. apply elem_of_cons in H as [->|H]; [done|].
  by apply elem_of_nil in H.
Qed.

(** [blue, red, !green] includes [blue, red], which includes [blue]. *)
Lemma includes_transitive_witness :
  includes colours blue_red = true /\
  includes blue_red blue_only = true /\
  includes colours blue_only = true.
Proof.
  split; [reflexivity|]. split; [reflexivity|].
  apply (includes_transitive get keys colours blue_red blue_only
           blue_red_listed blue_only_held); reflexivity.
Defined.

(** ["blue,!blue"] sets [blue]: the first entry decides. *)
Lemma updateFromString_first_entry_decides_witness :
  get (updateFromString new "blue,!blue") "blue" = Some true.
Proof.
  exact (updateFromString_first_entry_decides get set greenSplit
           get_set get_set_other new "blue,!blue" "blue").
Defined.

End StateMapExamples.
